(** * AATM release-name engine: a shallow embedding of the JavaScript sources

    The development follows the layout of the repository:

    - [JS]          the part of the JavaScript runtime the sources rely on
                    (strings as sequences of UTF-16 code units, case mapping,
                    canonical decomposition, arrays as lists);
    - [Regex]       a backtracking matcher for the regular expressions of
                    [parsers.js] and [utils.js];
    - [Config], [Utils], [Parsers], [Generators]
                    the free functions of [config.js], [utils.js],
                    [parsers.js] and [generators.js];
    - [MediaClass], [FilmClass], [SerieClass]
                    the class hierarchy of [models/].

    Definitions come first, the lemmas and theorems follow. *)

From Stdlib Require Import List NArith ZArith Bool Lia String Ascii.
From Stdlib Require Import Permutation Sorted DecimalString DecimalPos.
Import ListNotations.

Set Implicit Arguments.

(* ================================================================== *)
(** * The JavaScript runtime *)
(* ================================================================== *)

Module JS.

Local Open Scope N_scope.

(** A JavaScript string is a sequence of UTF-16 code units. *)
Definition char := N.
Definition jsstring := list char.

(** ** Literals

    Source literals are written as Rocq strings (UTF-8 bytes) and decoded
    to code units; only the Basic Multilingual Plane is needed. *)

Fixpoint utf8 (bs : list N) : jsstring :=
  match bs with
  | [] => []
  | b :: r =>
      if b <? 0x80 then b :: utf8 r
      else if b <? 0xE0 then
        match r with
        | b1 :: r' => ((b - 0xC0) * 64 + (b1 - 0x80)) :: utf8 r'
        | [] => []
        end
      else
        match r with
        | b1 :: b2 :: r' =>
            ((b - 0xE0) * 4096 + (b1 - 0x80) * 64 + (b2 - 0x80)) :: utf8 r'
        | _ => []
        end
  end.

Definition js (s : string) : jsstring :=
  utf8 (map N_of_ascii (list_ascii_of_string s)).

(** ** Comparison and search *)

Fixpoint eqb (a b : jsstring) : bool :=
  match a, b with
  | [], [] => true
  | x :: a', y :: b' => (x =? y) && eqb a' b'
  | _, _ => false
  end.

(** [stripPrefix p s] is the rest of [s] after [p], when [s] starts with [p]. *)
Fixpoint stripPrefix (p s : jsstring) : option jsstring :=
  match p, s with
  | [], _ => Some s
  | x :: p', y :: s' => if x =? y then stripPrefix p' s' else None
  | _ :: _, [] => None
  end.

Definition startsWith (s p : jsstring) : bool :=
  match stripPrefix p s with Some _ => true | None => false end.

Definition endsWith (s p : jsstring) : bool := startsWith (rev s) (rev p).

(** [String.prototype.includes] *)
Fixpoint includes (s sub : jsstring) : bool :=
  startsWith s sub ||
  match s with
  | [] => false
  | _ :: s' => includes s' sub
  end.

(** [Array.prototype.includes] and [Array.prototype.indexOf] on strings *)
Definition arrIncludes (l : list jsstring) (x : jsstring) : bool :=
  existsb (eqb x) l.

Fixpoint indexOfFrom (i : Z) (l : list jsstring) (x : jsstring) : Z :=
  match l with
  | [] => (-1)%Z
  | y :: l' => if eqb y x then i else indexOfFrom (i + 1)%Z l' x
  end.

Definition indexOf (l : list jsstring) (x : jsstring) : Z := indexOfFrom 0%Z l x.

(** Truthiness of a string, and of a possibly absent string. *)
Definition truthy (s : jsstring) : bool :=
  match s with [] => false | _ :: _ => true end.

Definition truthyOpt (o : option jsstring) : bool :=
  match o with Some s => truthy s | None => false end.

(** [o || ''] *)
Definition orEmpty (o : option jsstring) : jsstring :=
  match o with Some s => s | None => [] end.

(** ** White space: the [\s] class, which is also what [trim] removes *)

Definition isSpace (c : char) : bool :=
  ((0x09 <=? c) && (c <=? 0x0D)) || (c =? 0x20) || (c =? 0xA0)
  || (c =? 0x1680) || ((0x2000 <=? c) && (c <=? 0x200A))
  || (c =? 0x2028) || (c =? 0x2029) || (c =? 0x202F) || (c =? 0x205F)
  || (c =? 0x3000) || (c =? 0xFEFF).

Fixpoint trimStart (s : jsstring) : jsstring :=
  match s with
  | c :: s' => if isSpace c then trimStart s' else s
  | [] => []
  end.

Definition trimEnd (s : jsstring) : jsstring := rev (trimStart (rev s)).

Definition trim (s : jsstring) : jsstring := trimEnd (trimStart s).

(** ** Case mapping

    The tables cover Basic Latin and the Latin-1 Supplement together with
    the three code points that case mapping of Latin-1 reaches outside it
    (U+0178, U+039C, U+03BC).  Other code units are left unchanged. *)

Definition lowerChar (c : char) : char :=
  if (0x41 <=? c) && (c <=? 0x5A) then c + 0x20
  else if (0xC0 <=? c) && (c <=? 0xDE) && negb (c =? 0xD7) then c + 0x20
  else if c =? 0x178 then 0xFF
  else if c =? 0x39C then 0x3BC
  else c.

Definition upperChar (c : char) : jsstring :=
  if (0x61 <=? c) && (c <=? 0x7A) then [c - 0x20]
  else if (0xE0 <=? c) && (c <=? 0xFE) && negb (c =? 0xF7) then [c - 0x20]
  else if c =? 0xDF then [0x53; 0x53]
  else if c =? 0xFF then [0x178]
  else if c =? 0xB5 then [0x39C]
  else if c =? 0x3BC then [0x39C]
  else [c].

Definition toLowerCase (s : jsstring) : jsstring := map lowerChar s.
Definition toUpperCase (s : jsstring) : jsstring := flat_map upperChar s.

(** ** Canonical decomposition ([normalize('NFD')])

    Every precomposed letter of the Latin-1 Supplement decomposes into a
    Basic Latin letter followed by one combining mark.  As for the case
    mapping, the table is that of the runtime on Basic Latin and the
    Latin-1 Supplement (see [Vocabulary.latin1]); other code units are
    left unchanged. *)

Definition nfdChar (c : char) : jsstring :=
  let d (base mark : N) := [base; mark] in
  let accent (k : N) :=          (* position in a grave..ring run *)
    match k with
    | 0 => 0x300 | 1 => 0x301 | 2 => 0x302 | 3 => 0x303 | 4 => 0x308
    | _ => 0x30A
    end in
  let accent4 (k : N) :=         (* grave, acute, circumflex, diaeresis *)
    match k with
    | 0 => 0x300 | 1 => 0x301 | 2 => 0x302 | _ => 0x308
    end in
  if (0xC0 <=? c) && (c <=? 0xC5) then d 0x41 (accent (c - 0xC0))
  else if c =? 0xC7 then d 0x43 0x327
  else if (0xC8 <=? c) && (c <=? 0xCB) then d 0x45 (accent4 (c - 0xC8))
  else if (0xCC <=? c) && (c <=? 0xCF) then d 0x49 (accent4 (c - 0xCC))
  else if c =? 0xD1 then d 0x4E 0x303
  else if (0xD2 <=? c) && (c <=? 0xD6) then d 0x4F (accent (c - 0xD2))
  else if (0xD9 <=? c) && (c <=? 0xDC) then d 0x55 (accent4 (c - 0xD9))
  else if c =? 0xDD then d 0x59 0x301
  else if (0xE0 <=? c) && (c <=? 0xE5) then d 0x61 (accent (c - 0xE0))
  else if c =? 0xE7 then d 0x63 0x327
  else if (0xE8 <=? c) && (c <=? 0xEB) then d 0x65 (accent4 (c - 0xE8))
  else if (0xEC <=? c) && (c <=? 0xEF) then d 0x69 (accent4 (c - 0xEC))
  else if c =? 0xF1 then d 0x6E 0x303
  else if (0xF2 <=? c) && (c <=? 0xF6) then d 0x6F (accent (c - 0xF2))
  else if (0xF9 <=? c) && (c <=? 0xFC) then d 0x75 (accent4 (c - 0xF9))
  else if c =? 0xFD then d 0x79 0x301
  else if c =? 0xFF then d 0x79 0x308
  else if c =? 0x178 then d 0x59 0x308
  else [c].

Definition nfd (s : jsstring) : jsstring := flat_map nfdChar s.

(** The class of combining marks U+0300..U+036F and the property
    Diacritic (restricted to code units up to U+036F). *)
Definition isCombining (c : char) : bool := (0x300 <=? c) && (c <=? 0x36F).

Definition isDiacritic (c : char) : bool :=
  (c =? 0x5E) || (c =? 0x60) || (c =? 0xA8) || (c =? 0xAF) || (c =? 0xB4)
  || (c =? 0xB7) || (c =? 0xB8)
  || ((0x2B0 <=? c) && (c <=? 0x34E)) || ((0x350 <=? c) && (c <=? 0x357))
  || ((0x35D <=? c) && (c <=? 0x362)).

(** ** Building strings *)

Fixpoint join (sep : jsstring) (l : list jsstring) : jsstring :=
  match l with
  | [] => []
  | [x] => x
  | x :: l' => x ++ sep ++ join sep l'
  end.

(** [s.replace(pat, rep)] with a string pattern: the first occurrence only. *)
Fixpoint replaceFirst (pat rep s : jsstring) : jsstring :=
  match stripPrefix pat s with
  | Some r => rep ++ r
  | None =>
      match s with
      | [] => []
      | c :: s' => c :: replaceFirst pat rep s'
      end
  end.

(** [s.padStart(n, '0')] *)
Definition padStart0 (n : nat) (s : jsstring) : jsstring :=
  repeat 0x30 (n - List.length s) ++ s.

(** [[...new Set(l)]]: first occurrences, in insertion order. *)
Fixpoint uniqAcc (seen : list jsstring) (l : list jsstring) : list jsstring :=
  match l with
  | [] => []
  | x :: l' =>
      if arrIncludes seen x then uniqAcc seen l'
      else x :: uniqAcc (x :: seen) l'
  end.

Definition uniq (l : list jsstring) : list jsstring := uniqAcc [] l.

(** [Array.prototype.sort] with the comparator [(a, b) => key(a) - key(b)]:
    the sort is stable, so the result is the stable sort by [key].
    Elements are inserted from the right, each one before the elements of
    equal key that followed it in the input. *)
Section Sort.
Variable key : jsstring -> Z.

Fixpoint insertByKey (x : jsstring) (l : list jsstring) : list jsstring :=
  match l with
  | [] => [x]
  | y :: l' =>
      if (key x <=? key y)%Z then x :: y :: l'
      else y :: insertByKey x l'
  end.

Definition sortByKey (l : list jsstring) : list jsstring :=
  fold_right insertByKey [] l.
End Sort.

End JS.

(* ================================================================== *)
(** * Regular expressions *)
(* ================================================================== *)

(** A backtracking matcher with the semantics of JavaScript's [RegExp]
    for the constructs that occur in the sources: literals, classes,
    sequence, ordered alternation, greedy quantifiers on classes, capture
    groups, [\b], [^] and [$]. *)

Module Regex.

Import JS.
Local Open Scope N_scope.

Inductive re : Type :=
| Eps
| Chr (p : char -> bool)                       (* one code unit in a class *)
| Seq (a b : re)
| Alt (a b : re)                               (* a|b, [a] tried first *)
| Rep (min : nat) (max : option nat) (p : char -> bool)  (* greedy p{min,max} *)
| Grp (k : nat) (a : re)                       (* capture group number [k] *)
| WordB                                        (* \b *)
| Bol                                          (* ^ *)
| Eol.                                         (* $ *)

(** The matcher walks a [state]: the index reached, the code unit before
    it, what remains of the input, and the groups captured so far. *)
Record state : Type := mkState
  { pos : nat; prev : option char; rest : jsstring;
    caps : list (nat * jsstring) }.

Definition advance (c : char) (s' : jsstring) (st : state) : state :=
  mkState (S (pos st)) (Some c) s' (caps st).

Definition capture (k : nat) (from : state) (st : state) : state :=
  mkState (pos st) (prev st) (rest st)
          ((k, firstn (pos st - pos from) (rest from)) :: caps st).

(** Character classes *)
Definition isDigit (c : char) : bool := (0x30 <=? c) && (c <=? 0x39).
Definition isUpperAZ (c : char) : bool := (0x41 <=? c) && (c <=? 0x5A).
Definition isLowerAZ (c : char) : bool := (0x61 <=? c) && (c <=? 0x7A).
Definition isWord (c : char) : bool :=          (* \w *)
  isDigit c || isUpperAZ c || isLowerAZ c || (c =? 0x5F).
Definition isDot (c : char) : bool :=           (* . *)
  negb ((c =? 0x0A) || (c =? 0x0D) || (c =? 0x2028) || (c =? 0x2029)).
Definition oneOf (set : string) (c : char) : bool :=
  existsb (N.eqb c) (js set).
(** Case folding of the [i] flag (without [u]) on a Basic Latin letter. *)
Definition foldAZ (c : char) : char := if isUpperAZ c then c + 0x20 else c.
Definition sameI (a c : char) : bool := foldAZ a =? foldAZ c.

Definition wordAt (o : option char) : bool :=
  match o with Some c => isWord c | None => false end.

Definition underMax (n : nat) (max : option nat) : bool :=
  match max with Some m => Nat.ltb n m | None => true end.

Section Match.
Variable A : Type.

(** Greedy repetition of a class: take one more code unit when allowed,
    and fall back to stopping here when the continuation fails. *)
Fixpoint rep (p : char -> bool) (min : nat) (max : option nat)
         (k : state -> option A) (n : nat) (s : jsstring) (st : state)
  : option A :=
  let stop := if Nat.leb min n then k st else None in
  match s with
  | c :: s' =>
      if p c && underMax n max then
        match rep p min max k (S n) s' (advance c s' st) with
        | Some r => Some r
        | None => stop
        end
      else stop
  | [] => stop
  end.

Fixpoint run (r : re) (k : state -> option A) (st : state) : option A :=
  match r with
  | Eps => k st
  | Chr p =>
      match rest st with
      | c :: s' => if p c then k (advance c s' st) else None
      | [] => None
      end
  | Seq a b => run a (run b k) st
  | Alt a b =>
      match run a k st with
      | Some x => Some x
      | None => run b k st
      end
  | Rep min max p => rep p min max k 0 (rest st) st
  | Grp g a => run a (fun st' => k (capture g st st')) st
  | WordB =>
      if xorb (wordAt (prev st)) (wordAt (hd_error (rest st)))
      then k st else None
  | Bol => match prev st with None => k st | Some _ => None end
  | Eol => match rest st with [] => k st | _ :: _ => None end
  end.
End Match.

(** The result of a successful match: where it starts, the matched text
    and the capture groups. *)
Record result : Type := mkResult
  { index : nat; matched : jsstring; groups : list (nat * jsstring) }.

Definition matchHere (r : re) (st : state) : option result :=
  match run r (fun e => Some e) st with
  | Some e =>
      Some (mkResult (pos st) (firstn (pos e - pos st) (rest st)) (caps e))
  | None => None
  end.

(** Leftmost match: try every start index in turn. *)
Fixpoint execFrom (r : re) (s : jsstring) (st : state) : option result :=
  match matchHere r st with
  | Some x => Some x
  | None =>
      match s with
      | [] => None
      | c :: s' => execFrom r s' (advance c s' st)
      end
  end.

(** [r.exec(s)] (from index 0) and [s.match(r)] without the [g] flag *)
Definition exec (r : re) (s : jsstring) : option result :=
  execFrom r s (mkState 0 None s []).

Definition test (r : re) (s : jsstring) : bool :=
  match exec r s with Some _ => true | None => false end.

(** [m[k]] *)
Fixpoint group (k : nat) (g : list (nat * jsstring)) : option jsstring :=
  match g with
  | [] => None
  | (j, v) :: g' => if Nat.eqb j k then Some v else group k g'
  end.

(** [s.replace(r, rep)] without the [g] flag *)
Definition replace (r : re) (rep : jsstring) (s : jsstring) : jsstring :=
  match exec r s with
  | Some x =>
      firstn (index x) s ++ rep ++ skipn (index x + List.length (matched x)) s
  | None => s
  end.

(** Pattern builders *)
Fixpoint seqs (l : list re) : re :=
  match l with
  | [] => Eps
  | [a] => a
  | a :: l' => Seq a (seqs l')
  end.

Fixpoint alts (l : list re) : re :=
  match l with
  | [] => Chr (fun _ => false)
  | [a] => a
  | a :: l' => Alt a (alts l')
  end.

Definition lit (s : string) : re := seqs (map (fun c => Chr (N.eqb c)) (js s)).
Definition liti (s : string) : re := seqs (map (fun c => Chr (sameI c)) (js s)).
Definition opt (p : char -> bool) : re := Rep 0 (Some 1%nat) p.
Definition plus (p : char -> bool) : re := Rep 1 None p.
Definition star (p : char -> bool) : re := Rep 0 None p.
Definition between (a b : nat) (p : char -> bool) : re := Rep a (Some b) p.

End Regex.

(* ================================================================== *)
(** * config.js *)
(* ================================================================== *)

Module Config.

Import JS.

(** [LANGUAGE_MAP]: own entries of the object literal, in source order. *)
Definition LANGUAGE_MAP : list (jsstring * jsstring) :=
  map (fun kv => (js (fst kv), js (snd kv)))
    [ ("french", "Français"); ("français", "Français"); ("fr", "Français");
      ("english", "Anglais"); ("en", "Anglais");
      ("spanish", "Espagnol"); ("español", "Espagnol"); ("es", "Espagnol");
      ("german", "Allemand"); ("deutsch", "Allemand"); ("de", "Allemand");
      ("italian", "Italien"); ("italiano", "Italien"); ("it", "Italien");
      ("portuguese", "Portugais"); ("português", "Portugais");
      ("pt", "Portugais");
      ("japanese", "Japonais"); ("ja", "Japonais");
      ("korean", "Coréen"); ("ko", "Coréen");
      ("chinese", "Chinois"); ("zh", "Chinois");
      ("russian", "Russe"); ("ru", "Russe");
      ("arabic", "Arabe"); ("ar", "Arabe") ]%string.

(** [table[key]] on an object literal used as a map: the own entries.
    The names that every object inherits ([constructor], [__proto__] and
    the like, see [Vocabulary.ownKeyOnly]) are not keys of the tables. *)
Fixpoint lookup (A : Type) (table : list (jsstring * A)) (key : jsstring)
  : option A :=
  match table with
  | [] => None
  | (k, v) :: t => if eqb k key then Some v else lookup t key
  end.

End Config.

(** [PARSING_PATTERNS]: the two patterns that [utils.js] tests file names
    with. *)
Module Patterns.

Import JS Regex.

(** [/\.(mkv|mp4|avi|iso)$/i] *)
Definition videoExtension : re :=
  seqs [lit "."; Grp 1 (alts (map liti ["mkv"; "mp4"; "avi"; "iso"]%string));
        Eol].

(** [/\.(epub|pdf|mobi|azw3?|cbr|cbz)$/i] *)
Definition ebookFormat : re :=
  seqs [lit ".";
        Grp 1 (alts [liti "epub"; liti "pdf"; liti "mobi";
                     Seq (liti "azw") (opt (N.eqb 0x33%N));
                     liti "cbr"; liti "cbz"]);
        Eol].

End Patterns.

(* ================================================================== *)
(** * utils.js *)
(* ================================================================== *)

Module Utils.

Import JS Regex Config.

(** [/VOSTFR|VO[\s-]*STF?R?/i] *)
Definition reVostfrLang : re :=
  Alt (liti "VOSTFR")
      (seqs [liti "VO"; star (fun c => isSpace c || oneOf "-" c);
             liti "ST"; opt (sameI 0x46%N); opt (sameI 0x52%N)]).

(** [/VF[FQ]/i] *)
Definition reVf : re :=
  Seq (liti "VF") (Chr (fun c => sameI 0x46%N c || sameI 0x51%N c)).

(** [/^([\w\-]+)/i] *)
Definition reBase : re :=
  Seq Bol (Grp 1 (plus (fun c => isWord c || oneOf "-" c))).

Definition normalizeLang (lang : option jsstring) : jsstring :=
  if negb (truthyOpt lang) then js "Unknown"
  else
    let lang := trim (orEmpty lang) in
    if test reVostfrLang lang then js "VOSTFR"
    else
      match exec reVf lang with
      | Some m =>
          if eqb (toUpperCase (matched m)) (js "VFQ") then js "VFQ"
          else js "VFF"
      | None =>
          match exec reBase lang with
          | Some m =>
              let base := toLowerCase (orEmpty (group 1 (groups m))) in
              match lookup LANGUAGE_MAP base with
              | Some v => v
              | None => lang
              end
          | None => if truthy lang then lang else js "Unknown"
          end
      end.

(** [cleanFileName]: the characters that a file name may not hold are
    removed, every run of white space becomes one space, and the result
    is trimmed. *)
Definition forbiddenInFileName (c : char) : bool :=
  oneOf "<>:/\|?*" c || N.eqb c 0x22%N.

Fixpoint squeezeSpaces (inRun : bool) (s : jsstring) : jsstring :=
  match s with
  | [] => []
  | c :: s' =>
      if isSpace c then
        if inRun then squeezeSpaces true s'
        else 0x20%N :: squeezeSpaces true s'
      else c :: squeezeSpaces false s'
  end.

Definition cleanFileName (name : jsstring) : jsstring :=
  trim (squeezeSpaces false
          (filter (fun c => negb (forbiddenInFileName c)) name)).

(** [text.substring(0, n)]: [n] is clamped to the length of [text]. *)
Definition substringTo (n : Z) (text : jsstring) : jsstring :=
  firstn (Z.to_nat n) text.

(** [truncateText]: a falsy [text] is given back as it is. *)
Definition truncateText (text : option jsstring) (maxLength : Z)
  : option jsstring :=
  match text with
  | None => None
  | Some t =>
      if negb (truthy t) || (Z.of_nat (List.length t) <=? maxLength)%Z
      then Some t
      else Some (substringTo (maxLength - 3) t ++ js "...")
  end.

Definition isVideoFile (filename : jsstring) : bool :=
  test Patterns.videoExtension filename.

Definition isEbookFile (filename : jsstring) : bool :=
  test Patterns.ebookFormat filename.

End Utils.

(* ================================================================== *)
(** * parsers.js *)
(* ================================================================== *)

Module Parsers.

Import JS Regex Utils.

(** The plain object that the parsers build and the generators read.  A
    property that was never assigned is [None]; the boolean flags are
    [false] when unset.  Display-only properties ([videoBitrate],
    [audioTracks], [detectedLanguages], [subtitleLanguages]) are left out. *)
Record ReleaseInfo : Type := mkInfo
  { title : option jsstring;
    year : option jsstring;
    season : option jsstring;
    episode : option jsstring;
    source : option jsstring;
    releaseGroup : option jsstring;
    container : option jsstring;
    resolution : option jsstring;
    codec : option jsstring;
    hdr : option (list jsstring);
    audioLanguages : option (list jsstring);
    audioCodecs : option (list jsstring);
    language : option jsstring;
    isVOSTFR : bool;
    (* set by the form, never by the parsers *)
    threeD : bool;
    threeDType : option jsstring;
    info : option jsstring;
    edition : option jsstring;
    imax : bool;
    languageInfo : option jsstring;
    platform : option jsstring;
    tags : option (list jsstring);
    audio : option jsstring;
    audioChannels : option jsstring;
    audioSpec : option jsstring }.

Definition emptyInfo : ReleaseInfo :=
  mkInfo None None None None None None None None None None None None None
         false false None None None false None None None None None None.

(** One entry of [media.track] in the analyser's JSON report. *)
Record Track : Type := mkTrack
  { type_ : jsstring;                       (* '@type' *)
    Format : option jsstring;
    Width : option jsstring;
    Height : option jsstring;
    Encoded_Library : option jsstring;
    HDR_Format : option jsstring;
    HDR_Format_Compatibility : option jsstring;
    transfer_characteristics : option jsstring;
    Language : option jsstring;
    Title : option jsstring;
    Format_Commercial : option jsstring;
    Format_AdditionalFeatures : option jsstring;
    Channels : option jsstring }.

(** [parseInt(x)]: leading white space, a sign, then the longest prefix
    of decimal digits (hexadecimal after [0x]); [None] is [NaN]. *)
Definition digitVal (radix : Z) (c : char) : option Z :=
  let v :=
    if isDigit c then Some (Z.of_N c - 48)%Z
    else if isLowerAZ c then Some (Z.of_N c - 87)%Z
    else if isUpperAZ c then Some (Z.of_N c - 55)%Z
    else None in
  match v with
  | Some d => if (d <? radix)%Z then Some d else None
  | None => None
  end.

Definition orZero (o : option Z) : Z :=
  match o with Some z => z | None => 0%Z end.

Fixpoint digits (radix : Z) (acc : option Z) (s : jsstring) : option Z :=
  match s with
  | [] => acc
  | c :: s' =>
      match digitVal radix c with
      | Some d => digits radix (Some (orZero acc * radix + d)%Z) s'
      | None => acc
      end
  end.

Definition parseInt (x : option jsstring) : option Z :=
  match x with
  | None => None
  | Some s =>
      let s := trimStart s in
      let '(neg, s) :=
        match s with
        | c :: s' =>
            if N.eqb c 0x2D%N then (true, s')
            else if N.eqb c 0x2B%N then (false, s')
            else (false, s)
        | [] => (false, [])
        end in
      let '(radix, s) :=
        match s with
        | z :: x :: s' =>
            if N.eqb z 0x30%N && (N.eqb x 0x78%N || N.eqb x 0x58%N)
            then (16%Z, s') else (10%Z, s)
        | _ => (10%Z, s)
        end in
      match digits radix None s with
      | Some v => Some (if neg then (- v)%Z else v)
      | None => None
      end
  end.

(** The thresholds of lines 42-45, on [parseInt(..) || 0]. *)
Definition resolutionOf (width height : Z) : option jsstring :=
  if ((width >=? 3840) || (height >=? 2100))%Z then Some (js "2160p")
  else if ((width >=? 1920) || (height >=? 1000))%Z then Some (js "1080p")
  else if ((width >=? 1280) || (height >=? 700))%Z then Some (js "720p")
  else if ((width >? 0) || (height >? 0))%Z then Some (js "480p")
  else None.

Definition videoResolution (videoTrack : Track) : option jsstring :=
  let width := orZero (parseInt (Width videoTrack)) in
  let height := orZero (parseInt (Height videoTrack)) in
  resolutionOf width height.

Definition videoCodec (videoTrack : Track) : option jsstring :=
  let format := orEmpty (Format videoTrack) in
  let encodedLib := orEmpty (Encoded_Library videoTrack) in
  if includes encodedLib (js "x265") || eqb format (js "HEVC")
  then Some (js "x265")
  else if includes encodedLib (js "x264") || eqb format (js "AVC")
  then Some (js "x264")
  else if eqb format (js "AV1") then Some (js "AV1")
  else if truthy format then Some format
  else None.

(** [o?.includes(x)] *)
Definition optIncludes (o : option jsstring) (x : jsstring) : bool :=
  match o with Some s => includes s x | None => false end.

Definition videoHdr (videoTrack : Track) : list jsstring :=
  (if truthyOpt (HDR_Format videoTrack) then
     let hdrFmt := orEmpty (HDR_Format videoTrack) in
     (if includes hdrFmt (js "HDR10+") then [js "HDR10+"]
      else if includes hdrFmt (js "HDR10") then [js "HDR10"]
      else if includes hdrFmt (js "HDR") then [js "HDR"]
      else [])
     ++
     (if includes hdrFmt (js "Dolby Vision")
         || optIncludes (HDR_Format_Compatibility videoTrack) (js "HDR10")
      then [js "DV"] else [])
   else [])
  ++
  (if optIncludes (transfer_characteristics videoTrack) (js "HLG")
   then [js "HLG"] else []).

(** [a || b || c] on possibly absent strings *)
Definition firstTruthy (l : list (option jsstring)) (dflt : jsstring)
  : jsstring :=
  match filter truthyOpt l with
  | Some s :: _ => s
  | _ => dflt
  end.

Definition audioLang (track : Track) : jsstring :=
  normalizeLang
    (Some (firstTruthy [Language track; Title track] (js "Unknown"))).

Definition audioCodec (track : Track) : jsstring :=
  let codec := orEmpty (Format track) in
  let commercial := orEmpty (Format_Commercial track) in
  let codec :=
    if includes codec (js "E-AC-3") || includes codec (js "EAC3")
    then js "EAC3"
    else if includes codec (js "AC-3") || eqb codec (js "AC3") then js "AC3"
    else if includes codec (js "DTS") then
      if includes commercial (js "DTS:X") then js "DTS:X"
      else if includes codec (js "DTS-HD MA") then js "DTS-HD MA"
      else if includes codec (js "DTS-HD") then js "DTS-HD"
      else js "DTS"
    else if includes codec (js "MLP") || includes codec (js "TrueHD")
    then js "TrueHD"
    else if includes codec (js "AAC") then js "AAC"
    else if includes codec (js "FLAC") then js "FLAC"
    else if includes codec (js "Opus") then js "Opus"
    else codec in
  if includes commercial (js "Atmos")
     || optIncludes (Format_AdditionalFeatures track) (js "Atmos")
  then
    if eqb codec (js "TrueHD") then js "TrueHD Atmos"
    else if eqb codec (js "EAC3") then js "E-AC3 Atmos"
    else codec ++ js " Atmos"
  else codec.

Definition isFrenchLang (l : jsstring) : bool :=
  includes (toLowerCase l) (js "français")
  || includes (toLowerCase l) (js "vff")
  || includes (toLowerCase l) (js "vfq").

(** Lines 156-161: the advisory [language] property. *)
Definition generalLanguage (audioLanguages : list jsstring)
  : option jsstring :=
  let hasFrench := existsb isFrenchLang audioLanguages in
  let hasNonFrench := existsb (fun l => negb (isFrenchLang l)) audioLanguages in
  if hasFrench && hasNonFrench then Some (js "MULTi")
  else if hasFrench then Some (js "FRENCH")
  else None.

Inductive MediaInfoJson : Type :=
| MIText (text : jsstring)                 (* an old plain-text answer *)
| MIReport (track : list Track).           (* [media.track], [] if absent *)

Definition ofType (t : string) (tr : Track) : bool := eqb (type_ tr) (js t).

(** [if (videoTrack) { ... }] *)
Definition ifTrack (A : Type) (videoTrack : option Track)
           (f : Track -> option A) : option A :=
  match videoTrack with Some v => f v | None => None end.

Definition parseMediaInfo (mediainfoJson : MediaInfoJson) : ReleaseInfo :=
  match mediainfoJson with
  | MIText _ => emptyInfo
  | MIReport tracks =>
      let generalTrack := find (ofType "General") tracks in
      let videoTrack := find (ofType "Video") tracks in
      let audioTracks := filter (ofType "Audio") tracks in
      let fromVideo (A : Type) := @ifTrack A videoTrack in
      let container :=
        fromVideo _ (fun _ =>
          match generalTrack with
          | Some g =>
              if truthyOpt (Format g) then
                let fmt := orEmpty (Format g) in
                if includes fmt (js "Matroska") then Some (js "MKV")
                else if includes fmt (js "MPEG-4") then Some (js "MP4")
                else if includes fmt (js "AVI") then Some (js "AVI")
                else Some fmt
              else None
          | None => None
          end) in
      let hdr :=
        fromVideo _ (fun v =>
          match videoHdr v with [] => None | h => Some h end) in
      let hasAudio := match audioTracks with [] => false | _ => true end in
      let audioLanguages := map audioLang audioTracks in
      mkInfo None None None None None None
             container
             (fromVideo _ videoResolution)
             (fromVideo _ videoCodec)
             hdr
             (if hasAudio then Some audioLanguages else None)
             (if hasAudio then Some (uniq (map audioCodec audioTracks))
              else None)
             (if hasAudio then generalLanguage audioLanguages else None)
             false false None None None false None None None None None None
  end.

(** ** [parseReleaseName] *)

Definition reVideoExt : re :=      (* /\.(mkv|mp4|avi|iso)$/i *)
  seqs [lit "."; Grp 1 (alts (map liti ["mkv"; "mp4"; "avi"; "iso"]%string)); Eol].

Definition reGroup : re :=         (* /-([a-zA-Z0-9\[\]]+)$/ *)
  seqs [lit "-";
        Grp 1 (plus (fun c => isLowerAZ c || isUpperAZ c || isDigit c
                              || oneOf "[]" c));
        Eol].

Definition reResolution : re :=    (* /^(2160|1080|720|576|480|4320)p$/i *)
  seqs [Bol;
        Grp 1 (alts (map liti ["2160"; "1080"; "720"; "576"; "480";
                               "4320"]%string));
        liti "p"; Eol].

Definition reYear : re :=          (* /\b(19|20)\d{2}\b/g *)
  seqs [WordB; Grp 1 (Alt (lit "19") (lit "20")); between 2 2 isDigit; WordB].

(** [/\b(?:S|Season)\s?(\d{1,2})\b|\b(Complete|Integrale)\b/gi] *)
Definition reSeason : re :=
  Alt (seqs [WordB; Alt (liti "S") (liti "Season"); opt isSpace;
             Grp 1 (between 1 2 isDigit); WordB])
      (seqs [WordB; Grp 2 (Alt (liti "Complete") (liti "Integrale")); WordB]).

Definition reEpisode : re :=       (* /\b(?:E|Episode)\s?(\d{1,3})\b/gi *)
  seqs [WordB; Alt (liti "E") (liti "Episode"); opt isSpace;
        Grp 1 (between 1 3 isDigit); WordB].

Definition reSeasonEpisode : re := (* /\bS(\d{1,2})E(\d{1,3})\b/gi *)
  seqs [WordB; liti "S"; Grp 1 (between 1 2 isDigit);
        liti "E"; Grp 2 (between 1 3 isDigit); WordB].

(** [/\b(Bluray|BluRay|BDRip|BRRip|WEBRip|WebRip|WEB-DL|WEBDL|WEB|HDTV|DVDRip)\b/gi] *)
Definition reSource : re :=
  seqs [WordB;
        Grp 1 (alts (map liti ["Bluray"; "BluRay"; "BDRip"; "BRRip"; "WEBRip";
                               "WebRip"; "WEB-DL"; "WEBDL"; "WEB"; "HDTV";
                               "DVDRip"]%string));
        WordB].

(** [/(?:^|[\.\s\-])VOSTFR(?:[\.\s\-]|$)/i] *)
Definition reVostfr : re :=
  let sep := Chr (fun c => oneOf ".-" c || isSpace c) in
  seqs [Alt Bol sep; liti "VOSTFR"; Alt sep Eol].

(** [/\.(epub|pdf|mobi|azw3?|cbr|cbz)$/i] *)
Definition reEbookFormat : re :=
  seqs [lit ".";
        Grp 1 (alts [liti "epub"; liti "pdf"; liti "mobi";
                     Seq (liti "azw") (opt (N.eqb 0x33%N));
                     liti "cbr"; liti "cbz"]);
        Eol].

Definition reTrailing : re :=      (* /[-()]+$/ *)
  Seq (plus (oneOf "-()")) Eol.

(** [s.replace(/c/g, ' ')] for a single code unit [c] *)
Definition replaceAllChar (c by_ : char) (s : jsstring) : jsstring :=
  map (fun x => if N.eqb x c then by_ else x) s.

(** [Object.assign(info, nfoInfo)] for the properties [parseMediaInfo] sets. *)
Definition orElse (A : Type) (a b : option A) : option A :=
  match a with Some _ => a | None => b end.

Definition assign (info nfoInfo : ReleaseInfo) : ReleaseInfo :=
  mkInfo (title info) (year info) (season info) (episode info) (source info)
         (releaseGroup info)
         (orElse (container nfoInfo) (container info))
         (orElse (resolution nfoInfo) (resolution info))
         (orElse (codec nfoInfo) (codec info))
         (orElse (hdr nfoInfo) (hdr info))
         (orElse (audioLanguages nfoInfo) (audioLanguages info))
         (orElse (audioCodecs nfoInfo) (audioCodecs info))
         (orElse (language nfoInfo) (language info))
         (isVOSTFR info) (threeD info) (threeDType info) (Parsers.info info)
         (edition info) (imax info) (languageInfo info) (platform info)
         (tags info) (audio info) (audioChannels info) (audioSpec info).

Definition pad2 (o : option jsstring) : jsstring := padStart0 2 (orEmpty o).

Definition parseReleaseName (name : jsstring)
           (nfoContent : option MediaInfoJson) : ReleaseInfo :=
  let cleanName := trim name in
  let cleanName := replace reVideoExt [] cleanName in
  let releaseGroup :=
    match exec reGroup cleanName with
    | Some groupMatch =>
        let potentialGroup := orEmpty (group 1 (groups groupMatch)) in
        if negb (test reResolution potentialGroup) then Some potentialGroup
        else None
    | None => None
    end in
  let firstTagIndex := List.length cleanName in
  let ebookMatch := exec reEbookFormat cleanName in
  let container :=
    match ebookMatch with
    | Some m => Some (toUpperCase (orEmpty (group 1 (groups m))))
    | None => None
    end in
  let cleanName :=
    match ebookMatch with
    | Some _ => replace reEbookFormat [] cleanName
    | None => cleanName
    end in
  let lower (m : option result) (i : nat) : nat :=
    match m with
    | Some x => if Nat.ltb (index x) i then index x else i
    | None => i
    end in
  let yearMatch := exec reYear cleanName in
  let firstTagIndex := lower yearMatch firstTagIndex in
  let sxeMatch := exec reSeasonEpisode cleanName in
  let seasonMatch := exec reSeason cleanName in
  let epMatch := exec reEpisode cleanName in
  let season :=
    match sxeMatch with
    | Some m => Some (js "S" ++ pad2 (group 1 (groups m)))
    | None =>
        match seasonMatch with
        | Some m =>
            if truthyOpt (group 2 (groups m))
            then Some (toUpperCase (orEmpty (group 2 (groups m))))
            else Some (js "S" ++ pad2 (group 1 (groups m)))
        | None => None
        end
    end in
  let episode :=
    match sxeMatch with
    | Some m => Some (js "E" ++ pad2 (group 2 (groups m)))
    | None =>
        match epMatch with
        | Some m => Some (js "E" ++ pad2 (group 1 (groups m)))
        | None => None
        end
    end in
  let firstTagIndex :=
    match sxeMatch with
    | Some _ => lower sxeMatch firstTagIndex
    | None => lower epMatch (lower seasonMatch firstTagIndex)
    end in
  let sourceMatch := exec reSource cleanName in
  let source :=
    match sourceMatch with Some m => Some (matched m) | None => None end in
  let firstTagIndex := lower sourceMatch firstTagIndex in
  let potentialTitle :=
    trim (replace reTrailing []
            (replaceAllChar 0x5F%N 0x20%N
               (replaceAllChar 0x2E%N 0x20%N
                  (firstn firstTagIndex cleanName)))) in
  let parsed :=
    mkInfo (if truthy potentialTitle then Some potentialTitle else None)
           (match yearMatch with Some m => Some (matched m) | None => None end)
           season episode source releaseGroup container
           None None None None None None
           false false None None None false None None None None None None in
  let merged :=
    match nfoContent with
    | Some (MIReport t) => assign parsed (parseMediaInfo (MIReport t))
    | _ => parsed
    end in
  if test reVostfr name
  then mkInfo (title merged) (year merged) (Parsers.season merged)
              (Parsers.episode merged) (Parsers.source merged)
              (Parsers.releaseGroup merged) (Parsers.container merged)
              (resolution merged) (codec merged) (hdr merged)
              (audioLanguages merged) (audioCodecs merged) (language merged)
              true (threeD merged) (threeDType merged) (Parsers.info merged)
              (edition merged) (imax merged) (languageInfo merged)
              (platform merged) (tags merged) (audio merged)
              (audioChannels merged) (audioSpec merged)
  else merged.

End Parsers.

(* ================================================================== *)
(** * generators.js *)
(* ================================================================== *)

Module Generators.

Import JS Regex Parsers.

(** ** [normalizeTitle]

    The global replacements act code unit by code unit and are written as
    [map] and [filter]; [split], the collapse of repeated dots and the
    final trim are direct recursions. *)

Definition DOT : char := 0x2E%N.

Definition stripAccents (s : jsstring) : jsstring :=
  filter (fun c => negb (isCombining c)) (nfd s).

Definition foldCedilla (s : jsstring) : jsstring :=
  map (fun c => if N.eqb c 0xE7%N then 0x63%N
                else if N.eqb c 0xC7%N then 0x43%N else c) s.

Definition apostrophesToDots (s : jsstring) : jsstring :=
  map (fun c => if N.eqb c 0x27%N || N.eqb c 0x60%N then DOT else c) s.

Definition removeForbidden (s : jsstring) : jsstring :=
  filter (fun c => negb (oneOf ",;}{[]:" c)) s.

Definition hyphensToDots (s : jsstring) : jsstring :=
  map (fun c => if N.eqb c 0x2D%N then DOT else c) s.

(** [s.split(/\s+/)]: [inSep] tells that the previous code unit was
    white space, so that a run of white space separates only once. *)
Definition consHead (c : char) (l : list jsstring) : list jsstring :=
  match l with
  | w :: ws => (c :: w) :: ws
  | [] => [[c]]
  end.

Fixpoint splitAux (inSep : bool) (s : jsstring) : list jsstring :=
  match s with
  | [] => [[]]
  | c :: s' =>
      if isSpace c then
        if inSep then splitAux true s' else [] :: splitAux true s'
      else consHead c (splitAux false s')
  end.

Definition splitSpaces (s : jsstring) : list jsstring := splitAux false s.

Definition capitalizeWord (word : jsstring) : jsstring :=
  match word with
  | [] => []
  | c :: tl =>
      if eqb word (toUpperCase word) && Nat.leb (List.length word) 4
      then word
      else toUpperCase [c] ++ toLowerCase tl
  end.

(** [s.replace(/\.{2,}/g, '.')] *)
Fixpoint collapseAux (afterDot : bool) (s : jsstring) : jsstring :=
  match s with
  | [] => []
  | c :: s' =>
      if N.eqb c DOT then
        if afterDot then collapseAux true s' else c :: collapseAux true s'
      else c :: collapseAux false s'
  end.

Definition collapseDots (s : jsstring) : jsstring := collapseAux false s.

(** [s.replace(/^\.|\.$/g, '')]: one dot at the start, and one at the end
    of what follows. *)
Fixpoint dropFinalDot (s : jsstring) : jsstring :=
  match s with
  | [] => []
  | [c] => if N.eqb c DOT then [] else [c]
  | c :: s' => c :: dropFinalDot s'
  end.

Definition trimDots (s : jsstring) : jsstring :=
  match s with
  | c :: s' => if N.eqb c DOT then dropFinalDot s' else dropFinalDot s
  | [] => []
  end.

Definition normalizeTitle (title : jsstring) : jsstring :=
  if negb (truthy title) then []
  else
    let normalized := stripAccents title in
    let normalized := foldCedilla normalized in
    let normalized := apostrophesToDots normalized in
    let normalized := removeForbidden normalized in
    let normalized := hyphensToDots normalized in
    let normalized :=
      join [DOT] (map capitalizeWord (splitSpaces normalized)) in
    trimDots (collapseDots normalized).

(** ** Language *)

(** [String(x)] for a possibly undefined string *)
Definition strOf (o : option jsstring) : jsstring :=
  match o with Some s => s | None => js "undefined" end.

Definition orNil (o : option (list jsstring)) : list jsstring :=
  match o with Some l => l | None => [] end.

Definition nonEmptyArr (o : option (list jsstring)) : bool :=
  match o with Some (_ :: _) => true | _ => false end.

Definition includesAny (text : jsstring) (keys : list string) : bool :=
  existsb (fun k => includes text (js k)) keys.

Definition detectFrenchVariant (releaseGroup : option jsstring)
           (tags : option (list jsstring)) : jsstring :=
  let searchText :=
    toUpperCase (strOf releaseGroup ++ js " " ++ join (js " ") (orNil tags)) in
  if includesAny searchText
       ["VFQ"; "QUÉBEC"; "QUEBEC"; "CANADIAN"; "CANADA"; "QUEBECOIS";
        "QUÉBÉCOIS"]%string
  then js "VFQ"
  else if includesAny searchText ["VFF"; "FRENCH"; "FRANCE"; "EUROPEAN"]%string
  then js "VFF"
  else js "VFF".

Definition lowerIs (name : string) (l : jsstring) : bool :=
  eqb (toLowerCase l) (js name).

Definition lowerIncludes (name : string) (l : jsstring) : bool :=
  includes (toLowerCase l) (js name).

Definition isEnglish (l : jsstring) : bool :=
  lowerIs "anglais" l || lowerIs "english" l || lowerIs "en" l.

Definition isFrenchGeneric (l : jsstring) : bool :=
  lowerIncludes "français" l || lowerIncludes "french" l.

Definition isOtherLanguage (l : jsstring) : bool :=
  negb (arrIncludes
          (map js ["vff"; "vfq"; "français"; "french"; "anglais"; "english";
                   "en"]%string)
          (toLowerCase l)).

(** The cascade of lines 91-110, shared with [Media.getLanguageParts]:
    [french] is what the branch "generic French alone" pushes. *)
Definition languageCascade (audioLanguages : list jsstring)
           (french : jsstring) : list jsstring :=
  let hasEnglish := existsb isEnglish audioLanguages in
  let hasVFF := existsb (lowerIs "vff") audioLanguages in
  let hasVFQ := existsb (lowerIs "vfq") audioLanguages in
  let hasFrench := existsb isFrenchGeneric audioLanguages in
  let otherLanguages := filter isOtherLanguage audioLanguages in
  let others := List.length otherLanguages in
  if hasEnglish && negb hasVFF && negb hasVFQ && negb hasFrench
     && Nat.eqb others 0
  then [js "VOSTFR"]
  else if hasEnglish && (hasVFQ || hasVFF) && Nat.eqb others 0
  then [js "MULTI"]
  else if hasVFF && hasVFQ && negb hasEnglish && negb hasFrench
          && Nat.eqb others 0
  then [js "MULTI"]
  else if hasVFF && negb hasVFQ && negb hasEnglish && negb hasFrench
          && Nat.eqb others 0
  then [js "VFF"]
  else if hasVFQ && negb hasVFF && negb hasEnglish && negb hasFrench
          && Nat.eqb others 0
  then [js "VFQ"]
  else if hasFrench && negb hasVFF && negb hasVFQ && Nat.ltb 0 others
  then [js "MULTI"]
  else if hasFrench && negb hasVFF && negb hasVFQ && Nat.eqb others 0
  then [french]
  else if Nat.ltb 1 others then [js "MULTI"]
  else
    match otherLanguages with
    | [l] => [toUpperCase l]
    | _ => []
    end.

(** [parts.push(lang === 'MULTI' ? 'MULTi' : lang)] *)
Definition languageField (language : jsstring) : list jsstring :=
  let lang := toUpperCase language in
  [if eqb lang (js "MULTI") then js "MULTi" else lang].

Definition generateLanguageParts (info : ReleaseInfo) : list jsstring :=
  if isVOSTFR info then [js "VOSTFR"]
  else if nonEmptyArr (audioLanguages info) then
    languageCascade (orNil (audioLanguages info))
      (toUpperCase (detectFrenchVariant (releaseGroup info) (tags info)))
  else if truthyOpt (language info) then languageField (orEmpty (language info))
  else [].

Definition generateLanguageInfoParts (info : ReleaseInfo) : list jsstring :=
  (if nonEmptyArr (audioLanguages info) then
     let langs := orNil (audioLanguages info) in
     let hasVFF := existsb (lowerIs "vff") langs in
     let hasVFQ := existsb (lowerIs "vfq") langs in
     let otherLanguages :=
       filter (fun l => negb (lowerIs "vff" l) && negb (lowerIs "vfq" l)
                        && negb (lowerIncludes "français" l)
                        && negb (lowerIncludes "french" l)) langs in
     if (hasVFF || hasVFQ) && Nat.ltb 0 (List.length otherLanguages)
     then [if hasVFQ then js "VFQ" else js "TrueFrench"]
     else []
   else [])
  ++
  (if truthyOpt (languageInfo info)
   then [toUpperCase (orEmpty (languageInfo info))] else []).

(** ** Source *)

Definition sourcePatterns : list (string * re) :=
  [ ("REMUX", lit "REMUX");
    ("WEB-DL", Alt (lit "WEB-DL") (lit "WEBDL"));
    ("WEB", seqs [Bol; lit "WEB"; Eol]);
    ("WEBRip", Alt (lit "WEBRIP") (seqs [lit "WEB"; Chr isDot; lit "RIP"]));
    ("HDTV", lit "HDTV");
    ("HDLight", lit "HDLIGHT");
    ("4KLight", lit "4KLIGHT");
    ("BluRay", alts [lit "BLURAY"; lit "BLU-RAY"; lit "BDRIP"; lit "BRRIP"]);
    ("DVDRip", Alt (lit "DVDRIP") (lit "DVD-RIP")) ]%string.

(** The renaming of lines 177-186, shared with [Media.getSourcePart]. *)
Definition canonicalSource (source : jsstring) : jsstring :=
  if lowerIs "web-dl" source || lowerIs "webdl" source then js "WEB-DL"
  else if lowerIs "webrip" source then js "WEBRip"
  else if lowerIs "bluray" source || lowerIs "blu-ray" source
          || lowerIs "bdrip" source || lowerIs "brrip" source
  then js "BluRay"
  else if lowerIs "remux" source then js "REMUX"
  else if lowerIs "hdlight" source then js "HDLight"
  else if lowerIs "4klight" source then js "4KLight"
  else if lowerIs "dvdrip" source then js "DVDRip"
  else if lowerIs "hdtv" source then js "HDTV"
  else source.

Definition detectedSources (info : ReleaseInfo) : list jsstring :=
  let allText :=
    toUpperCase (orEmpty (source info) ++ js " "
                 ++ orEmpty (releaseGroup info) ++ js " "
                 ++ join (js " ") (orNil (tags info))) in
  uniq
    (map (fun p => js (fst p))
         (filter (fun p => test (snd p) allText) sourcePatterns)
     ++ (if truthyOpt (source info)
         then [canonicalSource (orEmpty (source info))] else [])).

Definition generateSourcePart (info : ReleaseInfo) : jsstring :=
  join [DOT] (detectedSources info).

(** ** Audio *)

(** [s.replace(/\s+KW/, '')] for a keyword [kw] that does not start with
    white space: the leftmost run of white space followed by [kw]. *)
Fixpoint removeSpacesThen (kw : jsstring) (s : jsstring) : jsstring :=
  match s with
  | [] => []
  | c :: s' =>
      if isSpace c then
        match stripPrefix kw (trimStart s') with
        | Some r => r
        | None => c :: removeSpacesThen kw s'
        end
      else c :: removeSpacesThen kw s'
  end.

Definition stripAudioSpecs (codec : jsstring) : jsstring :=
  removeSpacesThen (js "DTS:X") (removeSpacesThen (js "ATMOS") codec).

Definition audioCodecToken (c : jsstring) : jsstring :=
  let codec := toUpperCase c in
  let codec :=
    if eqb codec (js "TRUEHD ATMOS") || includes codec (js "TRUEHD")
    then js "TrueHD"
    else if eqb codec (js "E-AC3 ATMOS") || eqb codec (js "EAC3 ATMOS")
            || includes codec (js "E-AC3")
    then js "EAC3"
    else if eqb codec (js "DTS:X") then js "DTS:X"
    else if includes codec (js "DTS") then js "DTS"
    else codec in
  stripAudioSpecs codec.

(** The [audioSpecs] set of lines 224-234, shared with
    [Media.getAudioParts]: insertion order Atmos, DTS:X per codec. *)
Definition audioSpecsOf (audioCodecs : list jsstring) : list jsstring :=
  uniq (flat_map
          (fun c =>
             let lower := toLowerCase c in
             (if includes lower (js "atmos") then [js "Atmos"] else [])
             ++ (if includes lower (js "dts:x") || includes lower (js "dtsx")
                 then [js "DTS:X"] else []))
          audioCodecs).

Definition audioSpecsPart (audioCodecs : list jsstring) : list jsstring :=
  match audioSpecsOf audioCodecs with
  | [] => []
  | specs => [join [DOT] specs]
  end.

Definition generateAudioParts (info : ReleaseInfo) : list jsstring :=
  (if nonEmptyArr (audioCodecs info) then
     [join [DOT] (uniq (map audioCodecToken (orNil (audioCodecs info))))]
   else if truthyOpt (audio info) then
     let audio := toUpperCase (orEmpty (audio info)) in
     let audio :=
       if eqb audio (js "DDP") || eqb audio (js "E-AC-3") then js "EAC3"
       else audio in
     let audio :=
       if eqb audio (js "DD") || eqb audio (js "AC-3") then js "AC3"
       else audio in
     [audio]
   else [])
  ++ (if truthyOpt (audioChannels info) then [orEmpty (audioChannels info)]
      else [])
  ++ (if nonEmptyArr (audioCodecs info)
      then audioSpecsPart (orNil (audioCodecs info)) else [])
  ++ (if truthyOpt (audioSpec info) then [orEmpty (audioSpec info)] else []).

(** ** HDR, resolution, video codec: the inline blocks of the two
    generators, which [Media] has as methods *)

Definition hdrOrder : list jsstring :=
  map js ["HDR10+"; "HDR10"; "HDR"; "DV"; "HLG"; "SDR"]%string.

Definition hdrLabel (h : jsstring) : jsstring :=
  replaceFirst (js "DOLBY VISION") (js "DV") (toUpperCase h).

Definition hdrRank (a : jsstring) : Z := indexOf hdrOrder a.

Definition sortedHdr (hdr : list jsstring) : list jsstring :=
  sortByKey hdrRank (map hdrLabel hdr).

Definition resolutionPart (resolution : jsstring) : jsstring :=
  let res := toLowerCase resolution in
  if endsWith res (js "p") then res else res ++ js "p".

Definition codecPart (codec : jsstring) : jsstring :=
  let codec := toUpperCase codec in
  let codec :=
    if eqb codec (js "H264") || eqb codec (js "H.264") || eqb codec (js "AVC")
    then js "x264" else codec in
  if eqb codec (js "H265") || eqb codec (js "H.265") || eqb codec (js "HEVC")
  then js "x265" else codec.

(** ** The two generators *)

(** [if (x) parts.push(f(x))] *)
Definition pushIf (o : option jsstring) (f : jsstring -> jsstring)
  : list jsstring :=
  if truthyOpt o then [f (orEmpty o)] else [].

Definition flag (b : bool) (token : string) : list jsstring :=
  if b then [js token] else [].

Definition same (s : jsstring) : jsstring := s.

(** Slots 5 to 14 of the movie name, which are slots 5 to 15 of the
    series name. *)
Definition commonTail (info : ReleaseInfo) : list jsstring :=
  pushIf (Parsers.info info) toUpperCase
  ++ pushIf (edition info) same
  ++ flag (imax info) "iMAX"
  ++ generateLanguageParts info
  ++ generateLanguageInfoParts info
  ++ (if nonEmptyArr (hdr info) then sortedHdr (orNil (hdr info)) else [])
  ++ pushIf (resolution info) resolutionPart
  ++ pushIf (platform info) toUpperCase
  ++ (let sourcePart := generateSourcePart info in
      if truthy sourcePart then [sourcePart] else [])
  ++ generateAudioParts info
  ++ pushIf (codec info) codecPart.

Definition commonHead (info : ReleaseInfo) : list jsstring :=
  pushIf (title info) normalizeTitle
  ++ flag (threeD info) "3D"
  ++ pushIf (threeDType info) same
  ++ pushIf (year info) same.

Definition team (releaseGroup : option jsstring) : jsstring :=
  if truthyOpt releaseGroup then orEmpty releaseGroup else js "NoTag".

Definition movieParts (info : ReleaseInfo) : list jsstring :=
  commonHead info ++ commonTail info.

Definition generateMovieReleaseName (info : ReleaseInfo) : jsstring :=
  let baseName := join [DOT] (movieParts info) in
  baseName ++ js "-" ++ team (releaseGroup info).

Definition seasonEpisodePart (info : ReleaseInfo) (mediaType : jsstring)
  : list jsstring :=
  if eqb mediaType (js "season") then
    if truthyOpt (season info) then
      let s := toUpperCase (orEmpty (season info)) in
      if eqb s (js "COMPLETE") || eqb s (js "INTEGRALE")
      then [js "COMPLETE"] else [s]
    else []
  else
    if truthyOpt (season info) && truthyOpt (episode info) then
      [toUpperCase (orEmpty (season info))
       ++ toUpperCase (orEmpty (episode info))]
    else if truthyOpt (episode info) then
      [toUpperCase (orEmpty (episode info))]
    else if truthyOpt (season info) then
      [toUpperCase (orEmpty (season info))]
    else [].

Definition seriesParts (info : ReleaseInfo) (mediaType : jsstring)
  : list jsstring :=
  commonHead info ++ seasonEpisodePart info mediaType ++ commonTail info.

Definition generateSeriesReleaseName (info : ReleaseInfo)
           (mediaType : jsstring) : jsstring :=
  let baseName := join [DOT] (seriesParts info mediaType) in
  baseName ++ js "-" ++ team (releaseGroup info).

Definition generateReleaseName (info : ReleaseInfo) (mediaType : jsstring)
  : jsstring :=
  if eqb mediaType (js "movie") then generateMovieReleaseName info
  else if eqb mediaType (js "season") || eqb mediaType (js "episode")
  then generateSeriesReleaseName info mediaType
  else orEmpty (title info).

End Generators.

(* ================================================================== *)
(** * models/Media.js *)
(* ================================================================== *)

Module MediaClass.

Import JS Regex.

(** The state of a [Media] object after its constructor ran: string
    properties default to [''], arrays to [[]], flags to [false].
    [subtitles] and [extension] are read by [getAutoTags] but never set
    by a constructor.  Display and bookkeeping properties ([audioTracks],
    [subtitleLanguages], [externalId], [externalData], [selectedTagIds])
    are left out. *)
Record Media : Type := mkMedia
  { path : jsstring;
    title : jsstring;
    year : jsstring;
    resolution : jsstring;
    codec : jsstring;
    container : jsstring;
    hdr : list jsstring;
    audioCodecs : list jsstring;
    audioChannels : jsstring;
    audioLanguages : list jsstring;
    source : jsstring;
    releaseGroup : jsstring;
    edition : jsstring;
    info : jsstring;
    language : jsstring;
    isVOSTFR : bool;
    imax : bool;
    threeD : bool;
    threeDType : jsstring;
    platform : jsstring;
    subtitles : option (list jsstring);
    extension : option jsstring }.

(** [new Film({})]: every property at its default. *)
Definition emptyMedia : Media :=
  mkMedia [] [] [] [] [] [] [] [] [] [] [] [] [] [] [] false false false
          [] [] None None.

(** [Media.normalizeTitle] has the body of [normalizeTitle] in
    [generators.js], line for line. *)
Definition normalizeTitle : jsstring -> jsstring := Generators.normalizeTitle.

(** [getLanguageParts]: the cascade of the generator, where generic
    French alone gives ['VFF'] without looking at the release group. *)
Definition getLanguageParts (this : Media) : list jsstring :=
  if isVOSTFR this then [js "VOSTFR"]
  else
    match audioLanguages this with
    | _ :: _ => Generators.languageCascade (audioLanguages this) (js "VFF")
    | [] =>
        if truthy (language this) then Generators.languageField (language this)
        else []
    end.

Definition getSourcePart (this : Media) : jsstring :=
  if negb (truthy (source this)) then []
  else Generators.canonicalSource (source this).

Definition audioCodecToken (c : jsstring) : jsstring :=
  let codec := toUpperCase c in
  if includes codec (js "TRUEHD") then js "TrueHD"
  else if includes codec (js "E-AC3") || includes codec (js "EAC3")
  then js "EAC3"
  else if eqb codec (js "DTS:X") then js "DTS:X"
  else if includes codec (js "DTS") then js "DTS"
  else Generators.stripAudioSpecs codec.

Definition getAudioParts (this : Media) : list jsstring :=
  (match audioCodecs this with
   | _ :: _ =>
       [join [Generators.DOT] (uniq (map audioCodecToken (audioCodecs this)))]
   | [] => []
   end)
  ++ (if truthy (audioChannels this) then [audioChannels this] else [])
  ++ (match audioCodecs this with
      | _ :: _ => Generators.audioSpecsPart (audioCodecs this)
      | [] => []
      end).

Definition getCodecPart (this : Media) : jsstring :=
  if negb (truthy (codec this)) then []
  else
    let codec := toUpperCase (codec this) in
    if eqb codec (js "H264") || eqb codec (js "H.264") || eqb codec (js "AVC")
    then js "x264"
    else if eqb codec (js "H265") || eqb codec (js "H.265")
            || eqb codec (js "HEVC")
    then js "x265"
    else codec.

(** [getHdrParts]: the [map] and [sort] of the generators' HDR block. *)
Definition getHdrParts (this : Media) : list jsstring :=
  match hdr this with
  | [] => []
  | _ :: _ => Generators.sortedHdr (hdr this)
  end.

Definition getResolutionPart (this : Media) : jsstring :=
  if negb (truthy (resolution this)) then []
  else Generators.resolutionPart (resolution this).

(** [applyMediaInfo] and [applyReleaseInfo], for the properties kept. *)
Definition pick (o : option jsstring) (old : jsstring) : jsstring :=
  if truthyOpt o then orEmpty o else old.

Definition pickArr (o : option (list jsstring)) (old : list jsstring)
  : list jsstring :=
  match o with Some l => l | None => old end.

Definition applyMediaInfo (this : Media) (mediaInfo : Parsers.ReleaseInfo)
  : Media :=
  mkMedia (path this) (title this) (year this)
          (pick (Parsers.resolution mediaInfo) (resolution this))
          (pick (Parsers.codec mediaInfo) (codec this))
          (pick (Parsers.container mediaInfo) (container this))
          (pickArr (Parsers.hdr mediaInfo) (hdr this))
          (pickArr (Parsers.audioCodecs mediaInfo) (audioCodecs this))
          (pick (Parsers.audioChannels mediaInfo) (audioChannels this))
          (pickArr (Parsers.audioLanguages mediaInfo) (audioLanguages this))
          (source this) (releaseGroup this) (edition this) (info this)
          (pick (Parsers.language mediaInfo) (language this))
          (isVOSTFR this) (imax this) (threeD this) (threeDType this)
          (platform this) (subtitles this) (extension this).

Definition applyReleaseInfo (this : Media) (releaseInfo : Parsers.ReleaseInfo)
  : Media :=
  mkMedia (path this)
          (pick (Parsers.title releaseInfo) (title this))
          (pick (Parsers.year releaseInfo) (year this))
          (resolution this) (codec this) (container this) (hdr this)
          (audioCodecs this) (audioChannels this) (audioLanguages this)
          (pick (Parsers.source releaseInfo) (source this))
          (pick (Parsers.releaseGroup releaseInfo) (releaseGroup this))
          (pick (Parsers.edition releaseInfo) (edition this))
          (pick (Parsers.info releaseInfo) (info this))
          (language this)
          (if Parsers.isVOSTFR releaseInfo then true else isVOSTFR this)
          (imax this) (threeD this) (threeDType this) (platform this)
          (subtitles this) (extension this).

(** [isComplete] and [getMissingFields] of the base class *)
Definition isComplete (this : Media) : bool :=
  truthy (title this) && truthy (resolution this).

Definition missing (value : jsstring) (label : string) : list jsstring :=
  if negb (truthy value) then [js label] else [].

Definition getMissingFields (this : Media) : list jsstring :=
  missing (title this) "titre" ++ missing (resolution this) "résolution".

End MediaClass.

(* ================================================================== *)
(** * models/Film.js *)
(* ================================================================== *)

Module FilmClass.

Import JS MediaClass.

Definition pushIf (s : jsstring) (f : jsstring -> jsstring) : list jsstring :=
  if truthy s then [f s] else [].

Definition pushPart (part : jsstring) : list jsstring :=
  if truthy part then [part] else [].

(** The [parts] array of [Film.generateName], slot by slot. *)
Definition nameParts (this : Media) : list jsstring :=
  pushIf (title this) normalizeTitle
  ++ Generators.flag (threeD this) "3D"
  ++ pushPart (threeDType this)
  ++ pushPart (year this)
  ++ pushIf (info this) toUpperCase
  ++ pushPart (edition this)
  ++ Generators.flag (imax this) "iMAX"
  ++ getLanguageParts this
  ++ getHdrParts this
  ++ pushPart (getResolutionPart this)
  ++ pushIf (platform this) toUpperCase
  ++ pushPart (getSourcePart this)
  ++ getAudioParts this
  ++ pushPart (getCodecPart this).

Definition baseName (this : Media) : jsstring :=
  join [Generators.DOT] (nameParts this).

Definition team (this : Media) : jsstring :=
  if truthy (releaseGroup this) then releaseGroup this else js "NoTag".

Definition generateName (this : Media) : jsstring :=
  baseName this ++ js "-" ++ team this.

Definition isComplete (this : Media) : bool :=
  truthy (title this) && truthy (year this) && truthy (resolution this).

Definition getMissingFields (this : Media) : list jsstring :=
  MediaClass.getMissingFields this ++ missing (year this) "année".

End FilmClass.

(* ================================================================== *)
(** * models/Serie.js *)
(* ================================================================== *)

Module SerieClass.

Import JS Regex Config MediaClass.

(** ** State *)

(** A season or episode designator is a string or a number. *)
Inductive value : Type :=
| VStr (s : jsstring)
| VNum (n : Z).

Definition truthyValue (v : value) : bool :=
  match v with
  | VStr s => truthy s
  | VNum n => negb (n =? 0)%Z
  end.

(** [String(v)] *)
Definition toString (v : value) : jsstring :=
  match v with
  | VStr s => s
  | VNum n => js (NilEmpty.string_of_int (Z.to_int n))
  end.

Record Serie : Type := mkSerie
  { media : Media;
    _season : value;
    _episode : value;
    episodeCount : Z;
    isComplete : bool;
    genres : list jsstring;
    _isPack : bool }.

(** The properties of [options] that the [Serie] constructor reads
    itself; [None] is [undefined]. *)
Record SerieOptions : Type := mkOptions
  { o_season : option value;
    o_episode : option value;
    o_episodeCount : option Z;
    o_isComplete : option bool;
    o_genres : option (list jsstring);
    o_isPack : option bool }.

(** [options.x || ''] *)
Definition valueOrEmpty (o : option value) : value :=
  match o with
  | Some v => if truthyValue v then v else VStr []
  | None => VStr []
  end.

Definition withIsPack (b : bool) (this : Serie) : Serie :=
  mkSerie (media this) (_season this) (_episode this) (episodeCount this)
          (isComplete this) (genres this) b.

Definition _updateIsPack (this : Serie) : Serie :=
  if truthyValue (_episode this)
     && negb (eqb (trim (toString (_episode this))) [])
  then withIsPack false this
  else if (episodeCount this >? 1)%Z then withIsPack true this
  else this.

(** [new Serie(options)], where [base] is the state left by
    [super(options)]. *)
Definition constructor (base : Media) (options : SerieOptions) : Serie :=
  let episodeCount :=
    match o_episodeCount options with Some n => n | None => 0%Z end in
  _updateIsPack
    (mkSerie base
             (valueOrEmpty (o_season options))
             (valueOrEmpty (o_episode options))
             episodeCount
             (match o_isComplete options with Some b => b | None => false end)
             (match o_genres options with Some g => g | None => [] end)
             (match o_isPack options with
              | Some b => b
              | None => (episodeCount >? 1)%Z
              end)).

(** The accessors *)
Definition episode (this : Serie) : value := _episode this.
Definition season (this : Serie) : value := _season this.
Definition isPack (this : Serie) : bool := _isPack this.

Definition set_season (val : value) (this : Serie) : Serie :=
  _updateIsPack
    (mkSerie (media this) val (_episode this) (episodeCount this)
             (isComplete this) (genres this) (_isPack this)).

Definition set_episode (val : value) (this : Serie) : Serie :=
  _updateIsPack
    (mkSerie (media this) (_season this) val (episodeCount this)
             (isComplete this) (genres this) (_isPack this)).

Definition set_isPack (val : bool) (this : Serie) : Serie :=
  withIsPack val this.

Definition type (this : Serie) : jsstring :=
  if isPack this then js "season" else js "episode".

(** ** [generateName] *)

(** [/^0+S/], which undoes the padding of [padStart(3, '0')] *)
Definition rePaddedS : re := seqs [Bol; plus (N.eqb 0x30%N); lit "S"].

Definition formatSeason (this : Serie) : jsstring :=
  if negb (truthyValue (season this)) then []
  else
    let s := toUpperCase (toString (season this)) in
    if eqb s (js "COMPLETE") || eqb s (js "INTEGRALE") then js "COMPLETE"
    else if startsWith s (js "S")
    then replace rePaddedS (js "S") (padStart0 3 s)
    else js "S" ++ padStart0 2 s.

Definition formatEpisode (this : Serie) : jsstring :=
  if negb (truthyValue (episode this)) then []
  else
    let e := toUpperCase (toString (episode this)) in
    if startsWith e (js "E") then e
    else js "E" ++ padStart0 2 e.

(** Slot 4 of the name: the season pack or the episode *)
Definition seasonEpisodeParts (this : Serie) : list jsstring :=
  if isPack this then
    if isComplete this then [js "COMPLETE"]
    else if truthyValue (season this) then [formatSeason this]
    else []
  else
    if truthyValue (season this) && truthyValue (episode this)
    then [formatSeason this ++ formatEpisode this]
    else if truthyValue (episode this) then
      if truthyValue (season this)
      then [formatSeason this ++ formatEpisode this]
      else [formatEpisode this]
    else if truthyValue (season this) then [formatSeason this]
    else [].

Definition pushIf (s : jsstring) (f : jsstring -> jsstring) : list jsstring :=
  if truthy s then [f s] else [].

Definition pushPart (part : jsstring) : list jsstring :=
  if truthy part then [part] else [].

(** The [parts] array of [Serie.generateName], slot by slot. *)
Definition nameParts (this : Serie) : list jsstring :=
  let m := media this in
  pushIf (title m) normalizeTitle
  ++ Generators.flag (threeD m) "3D"
  ++ pushPart (threeDType m)
  ++ pushPart (year m)
  ++ seasonEpisodeParts this
  ++ pushIf (info m) toUpperCase
  ++ pushPart (edition m)
  ++ Generators.flag (imax m) "iMAX"
  ++ getLanguageParts m
  ++ getHdrParts m
  ++ pushPart (getResolutionPart m)
  ++ pushIf (platform m) toUpperCase
  ++ pushPart (getSourcePart m)
  ++ getAudioParts m
  ++ pushPart (getCodecPart m).

Definition generateName (this : Serie) : jsstring :=
  let baseName := join [Generators.DOT] (nameParts this) in
  let team :=
    if truthy (releaseGroup (media this)) then releaseGroup (media this)
    else js "NoTag" in
  baseName ++ js "-" ++ team.

(** ** [applyDirectoryAnalysis] *)

(** The result of the directory analysis; [None] is [undefined]. *)
Record Analysis : Type := mkAnalysis
  { a_isPack : option bool;
    a_episodeCount : option Z;
    a_season : option value;
    a_isComplete : option bool }.

Definition applyDirectoryAnalysis (analysis : Analysis) (this : Serie)
  : Serie :=
  let this :=
    match a_isPack analysis with
    | Some b => set_isPack b this
    | None => this
    end in
  let this :=
    match a_episodeCount analysis with
    | Some n =>
        if negb (n =? 0)%Z
        then mkSerie (media this) (_season this) (_episode this) n
                     (isComplete this) (genres this) (_isPack this)
        else this
    | None => this
    end in
  let this :=
    match a_season analysis with
    | Some v => if truthyValue v then set_season v this else this
    | None => this
    end in
  match a_isComplete analysis with
  | Some true =>
      mkSerie (media this) (_season this) (_episode this) (episodeCount this)
              true (genres this) (_isPack this)
  | _ => this
  end.

(** ** The tag taxonomy *)

Record Tag : Type := mkTag { tagId : jsstring; tagName : jsstring }.

Record Category : Type := mkCategory { catName : jsstring; tags : list Tag }.

(** [window.LaCaleTagCache]; [categories] is [None] when the object has
    no such property (or [null]). *)
Record TagCache : Type := mkCache { categories : option (list Category) }.

(** How a call ends *)
Inductive outcome (A : Type) : Type :=
| Returned (a : A)
| Raised.                                   (* a [TypeError] *)
Arguments Raised {A}.

Definition norm (s : jsstring) : jsstring :=
  trim (toLowerCase (filter (fun c => negb (isDiacritic c)) (nfd s))).

Definition table (l : list (string * list string))
  : list (jsstring * list jsstring) :=
  map (fun kv => (js (fst kv), map js (snd kv))) l.

Definition aliases : list (jsstring * list jsstring) :=
  table
    [ ("x264", ["avc/h264/x264"; "avc"; "h264"]);
      ("x265", ["hevc/h265/x265"; "hevc"; "h265"]);
      ("ac3", ["ac3"; "dolby digital"]);
      ("francais", ["french"; "français"; "fr"]);
      ("french", ["francais"; "français"; "fr"]);
      ("anglais", ["english"; "en"]);
      ("english", ["anglais"; "en"]);
      ("web-dl", ["web-dl"; "webdl"]);
      ("vff", ["vff"]);
      ("vfq", ["vfq"]);
      ("multi", ["multi"]);
      ("1080p", ["1080p (full hd)"; "1080p"]);
      ("2160p", ["2160p (4k)"; "2160p"; "4k"]);
      ("720p", ["720p (hd)"; "720p"]);
      ("sd", ["sd"]);
      ("remux", ["remux"]);
      ("bluray", ["bluray"; "blu-ray"]);
      ("mkv", ["mkv"]);
      ("mp4", ["mp4"]);
      ("avi", ["avi"]);
      ("iso", ["iso"]);
      ("autres", ["autres"; "autres extensions"; "autres sous-titres";
                  "autres audio"]) ]%string.

Definition categoryVariants : list (jsstring * list jsstring) :=
  table
    [ ("Source", ["Source"; "Source / Type"]);
      ("Source / Type", ["Source"; "Source / Type"]);
      ("Langue audio", ["Langue audio"; "Langues audio"]);
      ("Langues audio", ["Langue audio"; "Langues audio"]);
      ("Codec vidéo", ["Codec vidéo"]);
      ("Codec audio", ["Codec audio"]);
      ("Extension", ["Extension"; "Extensions"]);
      ("Sous-titres", ["Sous-titres"; "Sous titres"]);
      ("Résolution", ["Résolution"; "Qualité / Résolution"]);
      ("Qualité / Résolution", ["Résolution"; "Qualité / Résolution"]);
      ("Genre", ["Genre"; "Genres"]);
      ("HDR", ["HDR"; "Caractéristiques vidéo"]);
      ("Caractéristiques vidéo", ["HDR"; "Caractéristiques vidéo"]);
      ("Type", ["Type"]) ]%string.

(** The nested loops [for (cat of cats) for (tag of cat.tags)] that
    leave with the first tag accepted by [hit]. *)
Fixpoint scanTags (hit : Tag -> option jsstring) (l : list Tag)
  : option jsstring :=
  match l with
  | [] => None
  | tag :: l' =>
      match hit tag with
      | Some i => Some i
      | None => scanTags hit l'
      end
  end.

Fixpoint scanCats (hit : Tag -> option jsstring) (cats : list Category)
  : option jsstring :=
  match cats with
  | [] => None
  | cat :: cats' =>
      match scanTags hit (tags cat) with
      | Some i => Some i
      | None => scanCats hit cats'
      end
  end.

Definition returnIf (b : bool) (tag : Tag) : option jsstring :=
  if b then Some (tagId tag) else None.

Definition aliasHit (normName : jsstring) (tag : Tag) : bool :=
  match lookup aliases normName with
  | Some l => existsb (fun alias => includes (norm (tagName tag)) (norm alias)) l
  | None => false
  end.

(** The filter of lines 622-627 *)
Definition scoped (cats : list Category) (category : option jsstring)
  : list Category :=
  if truthyOpt category then
    let category := orEmpty category in
    match lookup categoryVariants category with
    | Some variants =>
        filter (fun cat =>
                  existsb (fun v => eqb (norm (catName cat)) (norm v)) variants)
               cats
    | None => filter (fun cat => eqb (norm (catName cat)) (norm category)) cats
    end
  else cats.

(** The body of [findTagIdByName] once [name] is known to be truthy and
    [tagCache.categories] to be an array; [None] is the final
    [return null]. *)
Definition searchTag (allCats : list Category) (name : jsstring)
           (category : option jsstring) : option jsstring :=
  let normName := norm name in
  let cats := scoped allCats category in
  let exact tag := eqb (norm (tagName tag)) normName in
  let partial tag := includes (norm (tagName tag)) normName in
  (* 1. exact and alias match in the target category *)
  match scanCats (fun tag => returnIf (exact tag || aliasHit normName tag) tag)
                 cats with
  | Some i => Some i
  | None =>
      (* 2. partial match in the target category *)
      match scanCats (fun tag => returnIf (partial tag) tag) cats with
      | Some i => Some i
      | None =>
          (* 3. fallback over all categories *)
          scanCats (fun tag => returnIf (exact tag || aliasHit normName tag
                                         || partial tag) tag)
                   allCats
      end
  end.

(** [findTagIdByName(name, category = null)], a closure over [tagCache].
    Reading [.filter] or iterating over a missing [categories] raises. *)
Definition findTagIdByName (tagCache : TagCache) (name : option jsstring)
           (category : option jsstring) : outcome (option jsstring) :=
  if negb (truthyOpt name) then Returned None
  else
    match categories tagCache with
    | None => Raised
    | Some allCats => Returned (searchTag allCats (orEmpty name) category)
    end.

(** ** [getAutoTags]

    [findNamed] is [findTagIdByName] with [categories] already read; every
    call below has a string for [name], which may be empty. *)
Definition findNamed (allCats : list Category) (name : string)
           (category : option string) : option jsstring :=
  searchTag allCats (js name) (option_map js category).

Definition findValue (allCats : list Category) (name : jsstring)
           (category : string) : option jsstring :=
  if truthy name then searchTag allCats name (Some (js category)) else None.

(** [a || b] on tag ids, and [if (t) tags.push(t)] *)
Definition orId (a b : option jsstring) : option jsstring :=
  if truthyOpt a then a else b.

Definition pushId (o : option jsstring) : list jsstring :=
  if truthyOpt o then [orEmpty o] else [].

(** [this.path.match(/\.([a-z0-9]+)$/i)] *)
Definition reExtension : re :=
  seqs [lit ".";
        Grp 1 (plus (fun c => isLowerAZ c || isUpperAZ c || isDigit c));
        Eol].

Definition extensionOf (this : Media) : option jsstring :=
  let ext := extension this in
  let ext :=
    if negb (truthyOpt ext) && truthy (container this)
    then Some (container this) else ext in
  if negb (truthyOpt ext) && truthy (path this) then
    match exec reExtension (path this) with
    | Some m => group 1 (groups m)
    | None => ext
    end
  else ext.

(** Lines 723-758: the language tags *)
Definition languageTags (allCats : list Category) (this : Media)
  : list jsstring :=
  let langs := map toLowerCase (audioLanguages this) in
  let fileName := toLowerCase (path this) in
  let hasFrench :=
    existsb (fun l => includes l (js "français") || eqb l (js "fr")
                      || eqb l (js "french")) langs in
  let hasVFQ :=
    existsb (fun l => includes l (js "vfq")) langs
    || includes fileName (js "vfq") in
  let hasVFF :=
    existsb (fun l => includes l (js "vff")) langs
    || includes fileName (js "vff") in
  let hasEnglish :=
    existsb (fun l => includes l (js "anglais") || eqb l (js "en")
                      || eqb l (js "english")) langs in
  let langCount := List.length langs in
  let french :=
    pushId (orId (findNamed allCats "French" None)
                 (findNamed allCats "Français" None)) in
  let english :=
    pushId (orId (findNamed allCats "English" None)
                 (findNamed allCats "Anglais" None)) in
  if isVOSTFR this then pushId (findNamed allCats "VOSTFR" None)
  else if hasVFQ then pushId (findNamed allCats "VFQ" None)
  else if hasVFF then pushId (findNamed allCats "VFF" None)
  else if Nat.ltb 1 langCount then
    pushId (findNamed allCats "MULTI" None)
    ++ (if hasFrench then french else [])
    ++ (if hasEnglish then english else [])
  else if hasFrench then french
  else if hasEnglish then english
  else [].

(** [l.forEach(x => { const i = findTagIdByName(x, category);
    if (i) tags.push(i); })] *)
Definition pushEach (allCats : list Category) (l : list jsstring)
           (category : string) : list jsstring :=
  flat_map (fun x => pushId (findValue allCats x category)) l.

(** Lines 651-758: what is pushed before the genres are looked at. *)
Definition fieldTags (allCats : list Category) (this : Serie)
  : list jsstring :=
  let m := media this in
  pushId (orId (findNamed allCats "Série" (Some "Type"%string))
               (findNamed allCats "Serie" (Some "Type"%string)))
  ++ (if isPack this
      then pushId (orId (findNamed allCats "Pack Saison" None)
                        (findNamed allCats "Saison" None))
      else [])
  ++ pushId (findValue allCats (resolution m) "Résolution")
  ++ pushId (findValue allCats (source m) "Source")
  ++ pushId (findValue allCats (codec m) "Codec vidéo")
  ++ pushEach allCats (hdr m) "HDR"
  ++ pushEach allCats (audioCodecs m) "Codec audio"
  ++ pushEach allCats (audioLanguages m) "Langue audio"
  ++ pushEach allCats (match subtitles m with Some l => l | None => [] end)
              "Sous-titres"
  ++ pushId (findValue allCats (orEmpty (extensionOf m)) "Extension")
  ++ languageTags allCats m.

(** Lines 760-801: the genres.  A genre lookup walks the categories named
    Genre or Genres and stops at the first tag that is accepted and has a
    truthy id ([if (genreId) break]). *)
Definition genreAliases : list (jsstring * list jsstring) :=
  table [ ("sf", ["science-fiction"; "sci-fi"]);
          ("comedy", ["comédie"; "comedy"]) ]%string.

Definition genreCats (allCats : list Category) : list Category :=
  filter (fun cat => arrIncludes [js "genre"; js "genres"] (norm (catName cat)))
         allCats.

Definition isTelefilm (normGenre : jsstring) : bool :=
  eqb normGenre (js "téléfilm") || eqb normGenre (js "telefilm").

Definition genreId (accepted : Tag -> bool) (allCats : list Category)
  : option jsstring :=
  scanCats (fun tag => if accepted tag && truthy (tagId tag)
                       then Some (tagId tag) else None)
           (genreCats allCats).

Definition telefilmTag (tag : Tag) : bool :=
  isTelefilm (norm (tagName tag))
  || existsb (fun alias => eqb (norm (tagName tag)) (norm alias))
             [js "téléfilm"; js "telefilm"].

Definition genreTag (normGenre : jsstring) (tag : Tag) : bool :=
  eqb (norm (tagName tag)) normGenre
  || match lookup genreAliases normGenre with
     | Some l => existsb (fun alias => eqb (norm (tagName tag)) (norm alias)) l
     | None => false
     end.

Definition genreTags (allCats : list Category) (genres : list jsstring)
  : list jsstring :=
  let normGenres := map norm genres in
  if Nat.eqb (List.length normGenres) 1 && isTelefilm (hd [] normGenres)
  then pushId (genreId telefilmTag allCats)
  else
    flat_map
      (fun genre =>
         let normGenre := norm genre in
         if isTelefilm normGenre then []       (* skipped among others *)
         else pushId (genreId (genreTag normGenre) allCats))
      genres.

(** [[...new Set(tags.filter(Boolean))]] *)
Definition autoTags (allCats : list Category) (this : Serie)
  : list jsstring :=
  uniq (filter truthy (fieldTags allCats this
                       ++ genreTags allCats (genres this))).

(** [getAutoTags] with the tag cache already loaded.  The first lookup
    raises when [categories] is missing. *)
Definition getAutoTags (tagCache : TagCache) (this : Serie)
  : outcome (list jsstring) :=
  match categories tagCache with
  | None => Raised
  | Some allCats => Returned (autoTags allCats this)
  end.

End SerieClass.

(* ================================================================== *)
(** * models/Film.js: [getAutoTags] *)
(* ================================================================== *)

(** [Film.getAutoTags] has its own copy of [findTagIdByName] and of the
    genre block; both are transcribed from [Film.js], over the taxonomy
    types of [SerieClass]. *)

Module FilmTags.

Import JS Regex Config MediaClass.
Import SerieClass (Tag, Category, tagId, tagName, catName, tags, norm, table,
                   categoryVariants, scanCats, returnIf, scoped, pushId,
                   genreCats, isTelefilm, genreId).

(** The alias table of [Film.js], which has no entry for x265. *)
Definition aliases : list (jsstring * list jsstring) :=
  table
    [ ("x264", ["avc/h264/x264"; "avc"; "h264"]);
      ("ac3", ["ac3"; "dolby digital"]);
      ("francais", ["french"; "français"; "fr"]);
      ("french", ["francais"; "français"; "fr"]);
      ("anglais", ["english"; "en"]);
      ("english", ["anglais"; "en"]);
      ("web-dl", ["web-dl"; "webdl"]);
      ("vff", ["vff"]);
      ("vfq", ["vfq"]);
      ("multi", ["multi"]);
      ("1080p", ["1080p (full hd)"; "1080p"]);
      ("2160p", ["2160p (4k)"; "2160p"; "4k"]);
      ("720p", ["720p (hd)"; "720p"]);
      ("sd", ["sd"]);
      ("remux", ["remux"]);
      ("bluray", ["bluray"; "blu-ray"]);
      ("mkv", ["mkv"]);
      ("mp4", ["mp4"]);
      ("avi", ["avi"]);
      ("iso", ["iso"]);
      ("autres", ["autres"; "autres extensions"; "autres sous-titres";
                  "autres audio"]) ]%string.

Definition aliasHit (normName : jsstring) (tag : Tag) : bool :=
  match lookup aliases normName with
  | Some l => existsb (fun alias => includes (norm (tagName tag)) (norm alias)) l
  | None => false
  end.

(** The body of [findTagIdByName] once [name] is known to be truthy *)
Definition searchTag (allCats : list Category) (name : jsstring)
           (category : option jsstring) : option jsstring :=
  let normName := norm name in
  let cats := scoped allCats category in
  let exact tag := eqb (norm (tagName tag)) normName in
  let partial tag := includes (norm (tagName tag)) normName in
  match scanCats (fun tag => returnIf (exact tag || aliasHit normName tag) tag)
                 cats with
  | Some i => Some i
  | None =>
      match scanCats (fun tag => returnIf (partial tag) tag) cats with
      | Some i => Some i
      | None =>
          scanCats (fun tag => returnIf (exact tag || aliasHit normName tag
                                         || partial tag) tag)
                   allCats
      end
  end.

(** The genre block, with the alias table of [Film.js] *)
Definition genreAliases : list (jsstring * list jsstring) :=
  table [ ("sf", ["science-fiction"; "sci-fi"]);
          ("comedy", ["comédie"; "comedy"]);
          ("telefilm", ["téléfilm"; "telefilm"]) ]%string.

Definition aliasOf (key : jsstring) (tag : Tag) : bool :=
  match lookup genreAliases key with
  | Some l => existsb (fun alias => eqb (norm (tagName tag)) (norm alias)) l
  | None => false
  end.

Definition telefilmTag (tag : Tag) : bool :=
  isTelefilm (norm (tagName tag)) || aliasOf (js "telefilm") tag.

Definition genreTag (normGenre : jsstring) (tag : Tag) : bool :=
  eqb (norm (tagName tag)) normGenre || aliasOf normGenre tag.

Definition genreTags (allCats : list Category) (genres : list jsstring)
  : list jsstring :=
  let normGenres := map norm genres in
  if Nat.eqb (List.length normGenres) 1 && isTelefilm (hd [] normGenres)
  then pushId (genreId telefilmTag allCats)
  else
    flat_map
      (fun genre =>
         let normGenre := norm genre in
         if isTelefilm normGenre then []
         else pushId (genreId (genreTag normGenre) allCats))
      genres.

End FilmTags.

(* ================================================================== *)
(** * Scenarios *)
(* ================================================================== *)

(** The concrete inputs that the statements below refer to. *)

Module Scenarios.

Import JS.

(** An audio track that only carries a language. *)
Definition audioTrack (lang : string) : Parsers.Track :=
  Parsers.mkTrack (js "Audio") None None None None None None None
                  (Some (js lang)) None None None None.

(** A video track that only carries its dimensions. *)
Definition videoTrack (width height : option string) : Parsers.Track :=
  Parsers.mkTrack (js "Video") None (option_map js width)
                  (option_map js height) None None None None None None None
                  None None.

Definition frenchEnglishReport : Parsers.MediaInfoJson :=
  Parsers.MIReport [audioTrack "Français"; audioTrack "English"].

Definition exampleName : jsstring :=
  js "Example.Movie.2019.1080p.BluRay.x264-GROUP".

(** What technical metadata supplies for the example: resolution 1080p
    and video codec x264. *)
Definition exampleTechnical : Parsers.ReleaseInfo :=
  Parsers.mkInfo None None None None None None None
                 (Some (js "1080p")) (Some (js "x264"))
                 None None None None false false None None None false None
                 None None None None None.

(** [new Film({ title, year, edition, resolution, hdr, audioLanguages })] *)
Definition film (title year edition resolution : string)
           (hdr audioLanguages : list string) : MediaClass.Media :=
  MediaClass.mkMedia [] (js title) (js year) (js resolution) [] []
                     (map js hdr) [] [] (map js audioLanguages) [] []
                     (js edition) [] [] false false false [] [] None None.

(** [new Serie({ episode, isPack })] and [new Serie({ genres })] *)
Definition serieOf (episode : option SerieClass.value) (isPack : option bool)
           (genres : option (list string)) : SerieClass.Serie :=
  SerieClass.constructor MediaClass.emptyMedia
    (SerieClass.mkOptions None episode None None
                          (option_map (map js) genres) isPack).

Definition genreTaxonomy : list SerieClass.Category :=
  [ SerieClass.mkCategory (js "Genres")
      [ SerieClass.mkTag (js "g-telefilm") (js "Téléfilm");
        SerieClass.mkTag (js "g-drame") (js "Drame") ];
    SerieClass.mkCategory (js "Type")
      [ SerieClass.mkTag (js "t-serie") (js "Série TV") ] ].

(** A report with one audio track in Greek, and a series with the genres
    Téléfilm and Drame to which the parsed report is applied:
    [new Serie({ genres: ['Téléfilm', 'Drame'] })] followed by
    [applyMediaInfo(parseMediaInfo(report))]. *)
Definition greekReport : Parsers.MediaInfoJson :=
  Parsers.MIReport [audioTrack "el"].

Definition greekTelefilm : SerieClass.Serie :=
  SerieClass.constructor
    (MediaClass.applyMediaInfo MediaClass.emptyMedia
                               (Parsers.parseMediaInfo greekReport))
    (SerieClass.mkOptions None None None None
                          (Some (map js ["Téléfilm"; "Drame"]%string)) None).

(** The answer of the backend when no tag of the media type has an id:
    [{ categories: null }] *)
Definition nullCategories : SerieClass.TagCache := SerieClass.mkCache None.

End Scenarios.

(* ================================================================== *)
(** * Vocabulary of the statements *)
(* ================================================================== *)

Module Vocabulary.

Import JS.

(** An episode value that [_updateIsPack] takes as defined: truthy, and
    not blank once converted to a string. *)
Definition definedEpisode (v : SerieClass.value) : Prop :=
  SerieClass.truthyValue v = true /\ trim (SerieClass.toString v) <> [].

(** Order by a sort key *)
Definition keyLe (key : jsstring -> Z) (a b : jsstring) : Prop :=
  (key a <= key b)%Z.

(** Dot hygiene.  [cleanAux afterDot s] reads [s] from a position that
    follows a dot ([afterDot = true], also used for the start of the
    string) or a plain code unit: it rejects a dot right after a dot or
    at the start, and a dot at the end.  A string is [dotClean] when it is
    not empty, has no two dots in a row and neither starts nor ends with
    a dot. *)
Fixpoint cleanAux (afterDot : bool) (s : jsstring) : bool :=
  match s with
  | [] => negb afterDot
  | c :: s' =>
      if N.eqb c Generators.DOT then negb afterDot && cleanAux true s'
      else cleanAux false s'
  end.

Definition dotClean (s : jsstring) : bool := cleanAux true s.

(** No two dots in a row (and no dot first when [afterDot]). *)
Fixpoint noDoubleDot (afterDot : bool) (s : jsstring) : bool :=
  match s with
  | [] => true
  | c :: s' =>
      if N.eqb c Generators.DOT then negb afterDot && noDoubleDot true s'
      else noDoubleDot false s'
  end.

Definition dotFree (s : jsstring) : bool :=
  forallb (fun c => negb (N.eqb c Generators.DOT)) s.

(** A slot value is fine when it is absent or [dotClean]. *)
Definition slotOk (s : jsstring) : bool :=
  match s with [] => true | _ :: _ => dotClean s end.

(** An audio codec name is fine when it has no dot and starts with a
    code unit that is not white space. *)
Definition codecNameOk (s : jsstring) : bool :=
  match s with
  | [] => false
  | c :: _ => negb (isSpace c) && dotFree s
  end.

(** A [Media] whose slot values are dot-clean, and whose title, when
    there is one, does not normalize to the empty string. *)
Definition tidyMedia (this : MediaClass.Media) : bool :=
  (negb (truthy (MediaClass.title this))
   || truthy (MediaClass.normalizeTitle (MediaClass.title this)))
  && slotOk (MediaClass.threeDType this)
  && slotOk (MediaClass.year this)
  && slotOk (MediaClass.info this)
  && slotOk (MediaClass.edition this)
  && slotOk (MediaClass.language this)
  && forallb dotClean (MediaClass.audioLanguages this)
  && forallb dotClean (MediaClass.hdr this)
  && slotOk (MediaClass.resolution this)
  && slotOk (MediaClass.platform this)
  && slotOk (MediaClass.source this)
  && forallb codecNameOk (MediaClass.audioCodecs this)
  && slotOk (MediaClass.audioChannels this)
  && slotOk (MediaClass.codec this).



(** Strings of Basic Latin and Latin-1 Supplement code units: the domain
    on which the case mapping and the decomposition of [JS] are those of
    the runtime. *)
Definition latin1 (s : jsstring) : bool :=
  forallb (fun c => N.leb c 0xFF) s.

(** Single words, for the idempotence of [normalizeTitle].  A plain code
    unit is Basic Latin and not white space; a calm one is moreover none
    of the characters that [normalizeTitle] rewrites to a dot or removes;
    a single word is made of plain code units and starts with a calm one
    that is not a dot. *)
Definition isAscii (c : char) : bool := N.ltb c 128.

Definition plainChar (c : char) : bool := isAscii c && negb (isSpace c).

Definition calm (c : char) : bool :=
  plainChar c
  && negb (N.eqb c 0x27 || N.eqb c 0x60 || N.eqb c 0x2D
           || Regex.oneOf ",;}{[]:" c).




(** The tags of the categories named Genre or Genres, and what is
    expected of them: one id per genre name (up to [norm]) and one genre
    name per id. *)
Definition genreTagsOf (allCats : list SerieClass.Category)
  : list SerieClass.Tag :=
  flat_map SerieClass.tags (SerieClass.genreCats allCats).

Definition genreTaxonomyOk (allCats : list SerieClass.Category) : Prop :=
  forall t1 t2,
    In t1 (genreTagsOf allCats) -> In t2 (genreTagsOf allCats) ->
    (SerieClass.tagId t1 = SerieClass.tagId t2
     <-> SerieClass.norm (SerieClass.tagName t1)
         = SerieClass.norm (SerieClass.tagName t2)).

(** White space in a cleaned file name: [singleSpaced afterSpace s] tells
    that the only white space in [s] is the space U+0020 and that no two
    spaces follow each other; with [afterSpace = true], that [s] does not
    start with one either. *)
Fixpoint singleSpaced (afterSpace : bool) (s : jsstring) : bool :=
  match s with
  | [] => true
  | c :: s' =>
      if isSpace c then N.eqb c 0x20 && negb afterSpace && singleSpaced true s'
      else singleSpaced false s'
  end.

(** Pairwise distinct strings *)
Fixpoint distinct (l : list jsstring) : bool :=
  match l with
  | [] => true
  | x :: l' => negb (arrIncludes l' x) && distinct l'
  end.

(** The names that every object literal inherits from [Object.prototype]:
    [table[key]] is a value of the table or [undefined] for the other
    keys only. *)
Definition inheritedProperties : list jsstring :=
  map js ["constructor"; "__defineGetter__"; "__defineSetter__";
          "hasOwnProperty"; "__lookupGetter__"; "__lookupSetter__";
          "isPrototypeOf"; "propertyIsEnumerable"; "toString"; "valueOf";
          "__proto__"; "toLocaleString"]%string.

Definition ownKeyOnly (key : jsstring) : bool :=
  negb (arrIncludes inheritedProperties key).

(** ** What a regular expression matches

    [sem r st w st'] tells that [r] can match the word [w] from the
    state [st] and leave the matcher in [st']: the declarative reading of
    [Regex.run], without the order in which alternatives are tried.
    [feed w st] walks over [w]; [startState pre post] is the state in
    which a match is attempted after the prefix [pre] of the input. *)
Fixpoint feed (w : jsstring) (st : Regex.state) : Regex.state :=
  match w with
  | [] => st
  | c :: w' => feed w' (Regex.advance c (tl (Regex.rest st)) st)
  end.

Definition lastOpt (pre : jsstring) : option char :=
  match rev pre with c :: _ => Some c | [] => None end.

Definition startState (pre post : jsstring) : Regex.state :=
  Regex.mkState (List.length pre) (lastOpt pre) post [].

Fixpoint sem (r : Regex.re) (st : Regex.state) (w : jsstring)
         (st' : Regex.state) : Prop :=
  match r with
  | Regex.Eps => w = [] /\ st' = st
  | Regex.Chr p =>
      exists c, w = [c] /\ p c = true
                /\ Regex.rest st = c :: Regex.rest st' /\ st' = feed w st
  | Regex.Seq a b =>
      exists w1 w2 mid, w = w1 ++ w2 /\ sem a st w1 mid /\ sem b mid w2 st'
  | Regex.Alt a b => sem a st w st' \/ sem b st w st'
  | Regex.Rep min max p =>
      forallb p w = true /\ min <= List.length w
      /\ (forall m, max = Some m -> List.length w <= m)
      /\ Regex.rest st = w ++ Regex.rest st' /\ st' = feed w st
  | Regex.Grp g a =>
      exists mid, sem a st w mid /\ st' = Regex.capture g st mid
  | Regex.WordB =>
      w = [] /\ st' = st
      /\ xorb (Regex.wordAt (Regex.prev st))
              (Regex.wordAt (hd_error (Regex.rest st))) = true
  | Regex.Bol => w = [] /\ st' = st /\ Regex.prev st = None
  | Regex.Eol => w = [] /\ st' = st /\ Regex.rest st = []
  end.

(** ** The shape of what [parseReleaseName] extracts *)

(** A year: four digits that start with 19 or 20. *)
Definition isYear (y : jsstring) : bool :=
  match y with
  | [a; b; c; d] =>
      (eqb [a; b] (js "19") || eqb [a; b] (js "20"))
      && Regex.isDigit c && Regex.isDigit d
  | _ => false
  end.

(** A season designator: COMPLETE, INTEGRALE, or S and two digits. *)
Definition isSeasonToken (s : jsstring) : bool :=
  eqb s (js "COMPLETE") || eqb s (js "INTEGRALE")
  || match s with
     | [x; a; b] => N.eqb x 0x53 && Regex.isDigit a && Regex.isDigit b
     | _ => false
     end.

(** An episode designator: E and two or three digits. *)
Definition isEpisodeToken (e : jsstring) : bool :=
  match e with
  | x :: a :: b :: more =>
      N.eqb x 0x45 && Regex.isDigit a && Regex.isDigit b
      && match more with
         | [] => true
         | [c] => Regex.isDigit c
         | _ => false
         end
  | _ => false
  end.

(** The code units of a release group, and the resolution tokens that
    are not taken for one (compared without regard to case). *)
Definition groupChar (c : char) : bool :=
  Regex.isLowerAZ c || Regex.isUpperAZ c || Regex.isDigit c
  || Regex.oneOf "[]" c.

Definition resolutionTokens : list jsstring :=
  map js ["2160p"; "1080p"; "720p"; "576p"; "480p"; "4320p"]%string.

Definition isResolutionToken (s : jsstring) : bool :=
  arrIncludes resolutionTokens (map Regex.foldAZ s).

(** The code units that a normalized title is made of: no white space,
    no combining mark, and none of the punctuation that [normalizeTitle]
    rewrites or removes. *)
Definition titleChar (c : char) : bool :=
  negb (isSpace c) && negb (isCombining c)
  && negb (N.eqb c 0x27 || N.eqb c 0x60 || N.eqb c 0x2D
           || Regex.oneOf ",;}{[]:" c).

(** A track label whose leading word is not the name of a property that
    an object literal inherits: [LANGUAGE_MAP[base]] is then a value of
    the table or undefined. *)
Definition ownLabel (lang : jsstring) : bool :=
  negb (startsWith (toLowerCase (trim lang)) (js "constructor"))
  && negb (startsWith (toLowerCase (trim lang)) (js "__proto__")).

End Vocabulary.

(* ================================================================== *)
(** * Properties *)
(* ================================================================== *)

Import JS Vocabulary.

#[local] Arguments N.eqb : simpl never.
#[local] Arguments N.leb : simpl never.

(** ** Strings *)

Lemma eqb_refl (a : jsstring) : eqb a a = true.
Proof.
  induction a as [|x a IH]; simpl; [reflexivity|].
  now rewrite N.eqb_refl.
Qed.

Lemma eqb_eq (a b : jsstring) : eqb a b = true <-> a = b.
Proof.
  split; [|intros ->; apply eqb_refl].
  revert b; induction a as [|x a IH]; intros [|y b]; simpl; try easy.
  intros H; apply andb_true_iff in H as [Hx Hab].
  apply N.eqb_eq in Hx; f_equal; auto.
Qed.

Lemma eqb_neq (a b : jsstring) : eqb a b = false <-> a <> b.
Proof.
  rewrite <- eqb_eq; destruct (eqb a b); split; congruence.
Qed.

(** ** The tag matcher on degenerate input *)

Lemma scoped_nil (category : option jsstring) :
  SerieClass.scoped [] category = [].
Proof.
  unfold SerieClass.scoped.
  destruct (truthyOpt category); [|reflexivity].
  now destruct (Config.lookup SerieClass.categoryVariants (orEmpty category)).
Qed.

Lemma searchTag_nil (name : jsstring) (category : option jsstring) :
  SerieClass.searchTag [] name category = None.
Proof.
  unfold SerieClass.searchTag; now rewrite scoped_nil.
Qed.

(** C8.  Whatever the category hint, [findTagIdByName] returns [null]
    without raising when the query is [null] (or [undefined]) or the empty
    string, and when the taxonomy has an empty category list.  It raises
    for every other query when the taxonomy has no category list at all
    ([categories] is [null]), as in the lookup of Série in the category
    Type. *)
Theorem C8_findTagIdByName_raises_without_categories :
  forall (category : option jsstring),
    (forall tagCache,
        SerieClass.findTagIdByName tagCache None category
        = SerieClass.Returned None) /\
    (forall tagCache,
        SerieClass.findTagIdByName tagCache (Some []) category
        = SerieClass.Returned None) /\
    (forall name,
        SerieClass.findTagIdByName (SerieClass.mkCache (Some [])) name category
        = SerieClass.Returned None) /\
    (forall c s,
        SerieClass.findTagIdByName Scenarios.nullCategories (Some (c :: s))
                                   category
        = SerieClass.Raised) /\
    SerieClass.findTagIdByName Scenarios.nullCategories (Some (js "Série"))
                               (Some (js "Type"))
    = SerieClass.Raised.
Proof.
  intros category; repeat split; intros; try reflexivity.
  unfold SerieClass.findTagIdByName; simpl.
  destruct (truthyOpt name); simpl; [|reflexivity].
  now rewrite searchTag_nil.
Qed.

(** ** Resolution *)

Lemma resolutionOf_spec (width height : Z) :
  Parsers.resolutionOf width height =
  if ((3840 <=? width) || (2100 <=? height))%Z then Some (js "2160p")
  else if ((1920 <=? width) || (1000 <=? height))%Z then Some (js "1080p")
  else if ((1280 <=? width) || (700 <=? height))%Z then Some (js "720p")
  else if ((0 <? width) || (0 <? height))%Z then Some (js "480p")
  else None.
Proof.
  unfold Parsers.resolutionOf.
  now rewrite !Z.geb_leb, !Z.gtb_ltb.
Qed.

(** C7.  The resolution of a report is decided by the width or the height
    of its first video track, each alone being enough: 2160p from width
    3840 or height 2100, else 1080p from 1920 or 1000, else 720p from
    1280 or 700, else 480p for any positive dimension.  Width 3840 gives
    2160p whatever the height, and width 1920 gives 1080p unless the
    height reaches 2100. *)
Theorem C7_resolution_thresholds :
  forall (tracks : list Parsers.Track) (v : Parsers.Track) (width height : Z),
    List.find (Parsers.ofType "Video") tracks = Some v ->
    width = Parsers.orZero (Parsers.parseInt (Parsers.Width v)) ->
    height = Parsers.orZero (Parsers.parseInt (Parsers.Height v)) ->
    let resolution :=
      Parsers.resolution (Parsers.parseMediaInfo (Parsers.MIReport tracks)) in
    ((3840 <= width \/ 2100 <= height)%Z -> resolution = Some (js "2160p")) /\
    ((width < 3840 /\ height < 2100)%Z ->
     (1920 <= width \/ 1000 <= height)%Z -> resolution = Some (js "1080p")) /\
    ((width < 1920 /\ height < 1000)%Z ->
     (1280 <= width \/ 700 <= height)%Z -> resolution = Some (js "720p")) /\
    ((width < 1280 /\ height < 700)%Z ->
     (0 < width \/ 0 < height)%Z -> resolution = Some (js "480p")) /\
    (width = 3840%Z -> resolution = Some (js "2160p")) /\
    (width = 1920%Z -> (height < 2100)%Z -> resolution = Some (js "1080p")).
Proof.
  intros tracks v width height Hv Hw Hh resolution.
  assert (E : resolution = Parsers.resolutionOf width height).
  { unfold resolution, Parsers.parseMediaInfo; simpl.
    rewrite Hv; simpl. unfold Parsers.videoResolution. now subst. }
  rewrite E, resolutionOf_spec.
  repeat split; intros;
    repeat match goal with
      | |- context [(?a <=? ?b)%Z] => destruct (Z.leb_spec a b)
      | |- context [(?a <? ?b)%Z] => destruct (Z.ltb_spec a b)
      end; simpl; try reflexivity; lia.
Qed.

(** The scenario of C7: a report whose video track has width 3840, then
    width 1920, and no height. *)
Lemma C7_resolution_thresholds_witness :
  Parsers.resolution
    (Parsers.parseMediaInfo
       (Parsers.MIReport [Scenarios.videoTrack (Some "3840"%string) None]))
  = Some (js "2160p")
  /\ Parsers.resolution
       (Parsers.parseMediaInfo
          (Parsers.MIReport [Scenarios.videoTrack (Some "1920"%string) None]))
     = Some (js "1080p").
Proof.
  split.
  - refine (proj1 (proj2 (proj2 (proj2 (proj2
      (@C7_resolution_thresholds
         [Scenarios.videoTrack (Some "3840"%string) None]
         (Scenarios.videoTrack (Some "3840"%string) None)
         3840%Z 0%Z _ _ _))))) _); reflexivity.
  - refine (proj2 (proj2 (proj2 (proj2 (proj2
      (@C7_resolution_thresholds
         [Scenarios.videoTrack (Some "1920"%string) None]
         (Scenarios.videoTrack (Some "1920"%string) None)
         1920%Z 0%Z _ _ _))))) _ _); try reflexivity; lia.
Defined.

(** ** The pack flag of a [Serie] *)

Lemma updateIsPack_defined (this : SerieClass.Serie) :
  definedEpisode (SerieClass._episode this) ->
  SerieClass._isPack (SerieClass._updateIsPack this) = false.
Proof.
  intros [Ht Hb]; unfold SerieClass._updateIsPack.
  rewrite Ht; apply eqb_neq in Hb; rewrite Hb; reflexivity.
Qed.

(** C10, as the code has it.  Constructing a [Serie] with an episode that
    is truthy and not blank, or assigning such a value to [episode],
    leaves [isPack] false and [type] equal to ['episode'], whatever
    [isPack] and [episodeCount] were given to the constructor. *)
Theorem C10_episode_clears_pack :
  forall (v : SerieClass.value),
    definedEpisode v ->
    (forall base season episodeCount isComplete genres isPack,
        let this :=
          SerieClass.constructor base
            (SerieClass.mkOptions season (Some v) episodeCount isComplete
                                  genres isPack) in
        SerieClass.isPack this = false
        /\ SerieClass.type this = js "episode") /\
    (forall this : SerieClass.Serie,
        SerieClass.isPack (SerieClass.set_episode v this) = false
        /\ SerieClass.type (SerieClass.set_episode v this) = js "episode").
Proof.
  intros v Hv.
  assert (K : forall s, SerieClass._episode s = v ->
                        SerieClass.isPack (SerieClass._updateIsPack s) = false
                        /\ SerieClass.type (SerieClass._updateIsPack s)
                           = js "episode").
  { intros s Hs. unfold SerieClass.type, SerieClass.isPack.
    rewrite updateIsPack_defined by (rewrite Hs; exact Hv). now split. }
  split.
  - intros; apply K; simpl.
    unfold SerieClass.valueOrEmpty. now rewrite (proj1 Hv).
  - intros; apply K; reflexivity.
Qed.

Lemma C10_episode_clears_pack_witness :
  SerieClass.isPack
    (Scenarios.serieOf (Some (SerieClass.VStr (js "E01"))) (Some true) None)
  = false
  /\ SerieClass.isPack
       (SerieClass.set_episode (SerieClass.VNum 7)
          (Scenarios.serieOf None (Some true) None))
     = false.
Proof.
  split.
  - refine (proj1 (proj1 (@C10_episode_clears_pack
                            (SerieClass.VStr (js "E01")) _)
                         MediaClass.emptyMedia None None None None
                         (Some true))).
    split; [reflexivity | vm_compute; discriminate].
  - refine (proj1 (proj2 (@C10_episode_clears_pack (SerieClass.VNum 7) _)
                         (Scenarios.serieOf None (Some true) None))).
    split; [reflexivity | vm_compute; discriminate].
Defined.

(** C10 as stated fails on a blank episode: [new Serie({ episode: ' ',
    isPack: true })] has a non-empty episode and is a season pack. *)
Lemma C10_blank_episode_keeps_pack :
  let this :=
    Scenarios.serieOf (Some (SerieClass.VStr (js " "))) (Some true) None in
  SerieClass.episode this = SerieClass.VStr (js " ")
  /\ SerieClass.episode this <> SerieClass.VStr []
  /\ SerieClass.isPack this = true
  /\ SerieClass.type this = js "season".
Proof.
  vm_compute; repeat split; discriminate.
Qed.

(** ** The two language classifications *)

(** C1.  For audio tracks in Français and English the normalizer stores
    the languages as Français and Anglais and sets the advisory language
    to MULTi, while the language slot of both composers emits VFF: the
    cascade reaches "generic French and no other language", which does not
    look at English. *)
Theorem C1_advisory_multi_slot_vff :
  let info := Parsers.parseMediaInfo Scenarios.frenchEnglishReport in
  Parsers.audioLanguages info = Some [js "Français"; js "Anglais"]
  /\ Parsers.language info = Some (js "MULTi")
  /\ Parsers.isVOSTFR info = false
  /\ Generators.generateLanguageParts info = [js "VFF"]
  /\ MediaClass.getLanguageParts
       (MediaClass.applyMediaInfo MediaClass.emptyMedia info) = [js "VFF"]
  /\ MediaClass.getLanguageParts
       (Scenarios.film "" "" "" "" [] ["Français"; "English"]%string)
     = [js "VFF"]
  /\ MediaClass.getLanguageParts
       (Scenarios.film "" "" "" "" [] ["VFF"; "English"]%string)
     = [js "MULTI"].
Proof.
  vm_compute; repeat split.
Qed.

(** ** The example release name *)

(** C2.  The example name parses as the claim says, and the movie name
    composed from the parsed bag with resolution 1080p and codec x264
    supplied ends in [X264-GROUP]: the codec slot uppercases its input
    and restores the lower-case [x] only for H264, H.264 and AVC. *)
Theorem C2_example_name_codec_uppercased :
  let parsed := Parsers.parseReleaseName Scenarios.exampleName None in
  let bag := Parsers.assign parsed Scenarios.exampleTechnical in
  let film :=
    MediaClass.applyMediaInfo
      (MediaClass.applyReleaseInfo MediaClass.emptyMedia parsed)
      Scenarios.exampleTechnical in
  Parsers.title parsed = Some (js "Example Movie")
  /\ Parsers.year parsed = Some (js "2019")
  /\ Parsers.resolution parsed = None
  /\ Parsers.source parsed = Some (js "BluRay")
  /\ Parsers.releaseGroup parsed = Some (js "GROUP")
  /\ Generators.generateMovieReleaseName bag
     = js "Example.Movie.2019.1080p.BluRay.X264-GROUP"
  /\ FilmClass.generateName film
     = js "Example.Movie.2019.1080p.BluRay.X264-GROUP"
  /\ Generators.generateMovieReleaseName bag <> Scenarios.exampleName
  /\ MediaClass.getCodecPart film = js "X264"
  /\ Generators.codecPart (js "H264") = js "x264".
Proof.
  vm_compute; repeat split; discriminate.
Qed.

(** ** Sorting by a key *)

Section SortByKey.

Variable key : jsstring -> Z.

Lemma insertByKey_perm (x : jsstring) (l : list jsstring) :
  Permutation (insertByKey key x l) (x :: l).
Proof.
  induction l as [|y l IH]; simpl; [reflexivity|].
  destruct (key x <=? key y)%Z; [reflexivity|].
  rewrite IH; apply perm_swap.
Qed.

Lemma sortByKey_perm (l : list jsstring) : Permutation (sortByKey key l) l.
Proof.
  induction l as [|x l IH]; simpl; [reflexivity|].
  rewrite insertByKey_perm; now constructor.
Qed.

Lemma insertByKey_sorted (x : jsstring) (l : list jsstring) :
  StronglySorted (keyLe key) l -> StronglySorted (keyLe key) (insertByKey key x l).
Proof.
  induction 1 as [|y l Hl IH Hy]; simpl; [repeat constructor|].
  destruct (Z.leb_spec (key x) (key y)) as [Hxy|Hxy].
  - constructor; [now constructor|].
    constructor; [exact Hxy|].
    eapply Forall_impl; [|exact Hy].
    unfold keyLe in *; intros; lia.
  - constructor; [exact IH|].
    eapply Permutation_Forall; [symmetry; apply insertByKey_perm|].
    constructor; [unfold keyLe in *; lia | exact Hy].
Qed.

Lemma sortByKey_sorted (l : list jsstring) :
  StronglySorted (keyLe key) (sortByKey key l).
Proof.
  induction l; simpl; [constructor | now apply insertByKey_sorted].
Qed.

(** Two sorted arrangements of the same elements coincide when equal
    keys mean equal elements. *)
Lemma sorted_perm_unique (l1 l2 : list jsstring) :
  StronglySorted (keyLe key) l1 -> StronglySorted (keyLe key) l2 ->
  Permutation l1 l2 ->
  (forall a b, In a l1 -> In b l1 -> key a = key b -> a = b) ->
  l1 = l2.
Proof.
  intros S1; revert l2.
  induction S1 as [|a l1 S1 IH Ha]; intros l2 S2 P Inj.
  - apply Permutation_nil in P; now subst.
  - destruct l2 as [|b l2].
    { symmetry in P; apply Permutation_nil in P; discriminate. }
    inversion S2 as [|? ? S2' Hb]; subst.
    assert (Eab : a = b).
    { apply Inj; [now left | eapply Permutation_in; [symmetry; exact P|now left]|].
      assert (Hab : keyLe key a b).
      { assert (I : In b (a :: l1))
          by (eapply Permutation_in; [symmetry; exact P | now left]).
        destruct I as [->|I]; [unfold keyLe in *; lia|].
        rewrite Forall_forall in Ha; auto. }
      assert (Hba : keyLe key b a).
      { assert (I : In a (b :: l2))
          by (eapply Permutation_in; [exact P | now left]).
        destruct I as [->|I]; [unfold keyLe in *; lia|].
        rewrite Forall_forall in Hb; auto. }
      unfold keyLe in *; lia. }
    subst b; f_equal.
    apply IH; [exact S2' | eapply Permutation_cons_inv; exact P|].
    intros x y Hx Hy; apply Inj; now right.
Qed.

(** With keys that are [-1] or non-negative, the elements of key [-1]
    come first, in their input order. *)
Hypothesis key_range : forall x, key x = (-1)%Z \/ (0 <= key x)%Z.

Lemma insertByKey_lowest (x : jsstring) (l : list jsstring) :
  key x = (-1)%Z -> insertByKey key x l = x :: l.
Proof.
  intros Hx; destruct l as [|y l]; simpl; [reflexivity|].
  destruct (Z.leb_spec (key x) (key y)); [reflexivity|].
  destruct (key_range y); lia.
Qed.

Lemma insertByKey_skip (x : jsstring) (us ks : list jsstring) :
  (0 <= key x)%Z -> Forall (fun u => key u = (-1)%Z) us ->
  insertByKey key x (us ++ ks) = us ++ insertByKey key x ks.
Proof.
  intros Hx; induction 1 as [|u us Hu _ IH]; simpl; [reflexivity|].
  destruct (Z.leb_spec (key x) (key u)); [lia|].
  now rewrite IH.
Qed.

Lemma sortByKey_split (l : list jsstring) :
  sortByKey key l
  = filter (fun x => key x <? 0)%Z l
    ++ sortByKey key (filter (fun x => 0 <=? key x)%Z l).
Proof.
  induction l as [|x l IH]; simpl; [reflexivity|].
  rewrite IH.
  destruct (key_range x) as [Hx|Hx].
  - rewrite insertByKey_lowest by exact Hx.
    rewrite Hx; reflexivity.
  - destruct (Z.ltb_spec (key x) 0); [lia|].
    destruct (Z.leb_spec 0 (key x)); [|lia]; simpl.
    apply insertByKey_skip; [exact Hx|].
    apply Forall_forall; intros u Hu.
    apply filter_In in Hu as [_ Hu].
    destruct (key_range u); [assumption|].
    apply Z.ltb_lt in Hu; lia.
Qed.

End SortByKey.

(** ** The HDR slot *)

Lemma indexOfFrom_range (l : list jsstring) (x : jsstring) (i : Z) :
  indexOfFrom i l x = (-1)%Z \/ (i <= indexOfFrom i l x)%Z.
Proof.
  revert i; induction l as [|y l IH]; intros i; simpl; [now left|].
  destruct (eqb y x); [right; lia|].
  destruct (IH (i + 1)%Z); [now left | right; lia].
Qed.

Lemma indexOfFrom_found (l : list jsstring) (x : jsstring) (i : Z) :
  (0 <= i)%Z -> (i <= indexOfFrom i l x)%Z ->
  nth_error l (Z.to_nat (indexOfFrom i l x - i)) = Some x.
Proof.
  revert i; induction l as [|y l IH]; intros i Hi; simpl; [lia|].
  destruct (eqb y x) eqn:E.
  - intros _; apply eqb_eq in E; subst; now rewrite Z.sub_diag.
  - intros H.
    assert (H' : (i + 1 <= indexOfFrom (i + 1) l x)%Z)
      by (destruct (indexOfFrom_range l x (i + 1)); lia).
    specialize (IH (i + 1)%Z ltac:(lia) H').
    replace (Z.to_nat (indexOfFrom (i + 1) l x - i))
      with (S (Z.to_nat (indexOfFrom (i + 1) l x - (i + 1)))) by lia.
    exact IH.
Qed.

Lemma hdrRank_range (x : jsstring) :
  Generators.hdrRank x = (-1)%Z \/ (0 <= Generators.hdrRank x)%Z.
Proof.
  apply indexOfFrom_range.
Qed.

(** A label with a rank is the entry of [hdrOrder] at that rank. *)
Lemma hdrRank_inj (a b : jsstring) :
  (0 <= Generators.hdrRank a)%Z ->
  Generators.hdrRank a = Generators.hdrRank b -> a = b.
Proof.
  intros Ha E.
  assert (Hb : (0 <= Generators.hdrRank b)%Z) by lia.
  apply indexOfFrom_found in Ha, Hb; try lia.
  unfold Generators.hdrRank, indexOf in E.
  rewrite E in Ha; rewrite Ha in Hb; congruence.
Qed.

Lemma getHdrParts_sortedHdr (this : MediaClass.Media) :
  MediaClass.getHdrParts this = Generators.sortedHdr (MediaClass.hdr this).
Proof.
  unfold MediaClass.getHdrParts; now destruct (MediaClass.hdr this).
Qed.

Lemma nameParts_hdr (this : MediaClass.Media) :
  exists before after,
    FilmClass.nameParts this = before ++ MediaClass.getHdrParts this ++ after.
Proof.
  unfold FilmClass.nameParts.
  match goal with
  | |- exists b a, ?a1 ++ ?a2 ++ ?a3 ++ ?a4 ++ ?a5 ++ ?a6 ++ ?a7 ++ ?a8
                   ++ ?h ++ ?r = _ =>
      exists (a1 ++ a2 ++ a3 ++ a4 ++ a5 ++ a6 ++ a7 ++ a8), r
  end.
  now rewrite <- !app_assoc.
Qed.

Lemma indexOfFrom_In (l : list jsstring) (x : jsstring) (i : Z) :
  In x l -> (i <= indexOfFrom i l x)%Z.
Proof.
  revert i; induction l as [|y l IH]; intros i; simpl; [easy|].
  intros [->|H]; [rewrite eqb_refl; lia|].
  destruct (eqb y x); [lia|].
  specialize (IH (i + 1)%Z H); lia.
Qed.

Lemma hdrRank_listed (x : jsstring) :
  (0 <= Generators.hdrRank x)%Z <-> In x Generators.hdrOrder.
Proof.
  split; intros H.
  - eapply nth_error_In.
    exact (@indexOfFrom_found Generators.hdrOrder x 0%Z (Z.le_refl 0) H).
  - now apply indexOfFrom_In.
Qed.

Lemma sortedHdr_split (hdr : list jsstring) :
  Generators.sortedHdr hdr
  = filter (fun l => Generators.hdrRank l <? 0)%Z
           (map Generators.hdrLabel hdr)
    ++ sortByKey Generators.hdrRank
         (filter (fun l => 0 <=? Generators.hdrRank l)%Z
                 (map Generators.hdrLabel hdr)).
Proof.
  apply sortByKey_split, hdrRank_range.
Qed.

Lemma commonTail_hdr (info : Parsers.ReleaseInfo) (hdr : list jsstring) :
  Parsers.hdr info = Some hdr ->
  exists before after,
    Generators.commonTail info = before ++ Generators.sortedHdr hdr ++ after.
Proof.
  intros E; unfold Generators.commonTail; rewrite E.
  replace (if Generators.nonEmptyArr (Some hdr)
           then Generators.sortedHdr (Generators.orNil (Some hdr)) else [])
    with (Generators.sortedHdr hdr) by (now destruct hdr).
  match goal with
  | |- exists b a, ?a1 ++ ?a2 ++ ?a3 ++ ?a4 ++ ?a5 ++ ?h ++ ?r = _ =>
      exists (a1 ++ a2 ++ a3 ++ a4 ++ a5), r
  end.
  now rewrite <- !app_assoc.
Qed.

(** The HDR block is the same in [Media.getHdrParts] and in the two
    generators: the tokens of a bag with HDR entries [hdr] are
    [sortedHdr hdr], inside the parts of the name. *)
Lemma hdr_tokens_in_names (hdr : list jsstring) :
  (forall this, MediaClass.hdr this = hdr ->
     MediaClass.getHdrParts this = Generators.sortedHdr hdr
     /\ exists before after,
          FilmClass.nameParts this
          = before ++ Generators.sortedHdr hdr ++ after)
  /\ (forall info mediaType, Parsers.hdr info = Some hdr ->
        (exists before after,
            Generators.movieParts info
            = before ++ Generators.sortedHdr hdr ++ after)
        /\ (exists before after,
               Generators.seriesParts info mediaType
               = before ++ Generators.sortedHdr hdr ++ after)).
Proof.
  split.
  - intros this <-; split; [apply getHdrParts_sortedHdr|].
    rewrite <- getHdrParts_sortedHdr; apply nameParts_hdr.
  - intros info mediaType E.
    destruct (commonTail_hdr _ E) as (b & a & K).
    unfold Generators.movieParts, Generators.seriesParts; rewrite K.
    split.
    + exists (Generators.commonHead info ++ b), a.
      now rewrite <- !app_assoc.
    + exists (Generators.commonHead info
              ++ Generators.seasonEpisodePart info mediaType ++ b), a.
      now rewrite <- !app_assoc.
Qed.

(** C5, as the code has it.  In the HDR slot (of [Media.getHdrParts] and
    of both generators) the labels that are not in the priority list come
    first, in their input order, and the listed labels follow, sorted:
    [indexOf] ranks an unlisted label [-1], below every listed one. *)
Theorem C5_unlisted_hdr_labels_first :
  forall hdr : list jsstring,
    let labels := map Generators.hdrLabel hdr in
    let unlisted := filter (fun l => Generators.hdrRank l <? 0)%Z labels in
    let listed :=
      sortByKey Generators.hdrRank
                (filter (fun l => 0 <=? Generators.hdrRank l)%Z labels) in
    Generators.sortedHdr hdr = unlisted ++ listed
    /\ Forall (fun l => ~ In l Generators.hdrOrder) unlisted
    /\ Forall (fun l => In l Generators.hdrOrder) listed
    /\ (forall this, MediaClass.hdr this = hdr ->
          MediaClass.getHdrParts this = unlisted ++ listed)
    /\ (forall info, Parsers.hdr info = Some hdr ->
          exists before after,
            Generators.movieParts info = before ++ (unlisted ++ listed) ++ after).
Proof.
  intros hdr labels unlisted listed.
  pose proof (sortedHdr_split hdr) as S; fold labels unlisted listed in S.
  split; [exact S|].
  split; [|split; [|split]].
  - apply Forall_forall; intros l Hl.
    apply filter_In in Hl as [_ Hl]; apply Z.ltb_lt in Hl.
    rewrite <- hdrRank_listed; lia.
  - apply Forall_forall; intros l Hl.
    eapply Permutation_in in Hl; [|apply sortByKey_perm].
    apply filter_In in Hl as [_ Hl]; apply Z.leb_le in Hl.
    now apply hdrRank_listed.
  - intros this E; rewrite <- S; now apply hdr_tokens_in_names.
  - intros info E; rewrite <- S.
    now apply (proj2 (hdr_tokens_in_names hdr) info []).
Qed.

Lemma C5_unlisted_hdr_labels_first_witness :
  MediaClass.getHdrParts
    (Scenarios.film "" "" "" "" ["HDR10"; "FOO"; "DV"; "BAR"]%string [])
  = [js "FOO"; js "BAR"] ++ [js "HDR10"; js "DV"].
Proof.
  exact (proj1 (proj2 (proj2 (proj2
    (C5_unlisted_hdr_labels_first
       (map js ["HDR10"; "FOO"; "DV"; "BAR"]%string)))))
    (Scenarios.film "" "" "" "" ["HDR10"; "FOO"; "DV"; "BAR"]%string [])
    eq_refl).
Defined.

(** C5 as stated fails: with HDR entries HDR10 and FOO, the unlisted FOO
    is serialized before the listed HDR10. *)
Lemma C5_unlisted_label_precedes_listed :
  let this := Scenarios.film "Movie" "" "" "" ["HDR10"; "FOO"]%string [] in
  MediaClass.getHdrParts this = [js "FOO"; js "HDR10"]
  /\ FilmClass.generateName this = js "Movie.FOO.HDR10-NoTag"
  /\ In (js "HDR10") Generators.hdrOrder
  /\ ~ In (js "FOO") Generators.hdrOrder.
Proof.
  repeat split; try (vm_compute; reflexivity).
  - vm_compute; tauto.
  - vm_compute; intuition discriminate.
Qed.

(** C4, as the code has it.  The HDR tokens of the composed name (of
    [Media.getHdrParts] and of both generators) are the entries of the
    bag, each uppercased with DOLBY VISION turned into DV, and sorted by
    their rank in the priority list: nothing is removed, so an entry given
    twice is emitted twice.  For entries that are all in the list the
    output does not depend on the input order; DV, HDR10 gives HDR10,
    DV. *)
Theorem C4_hdr_tokens_sorted_not_deduplicated :
  forall hdr : list jsstring,
    let tokens := Generators.sortedHdr hdr in
    Permutation tokens (map Generators.hdrLabel hdr)
    /\ StronglySorted (keyLe Generators.hdrRank) tokens
    /\ (forall this, MediaClass.hdr this = hdr ->
          MediaClass.getHdrParts this = tokens
          /\ exists before after,
               FilmClass.nameParts this = before ++ tokens ++ after)
    /\ (forall info, Parsers.hdr info = Some hdr ->
          exists before after,
            Generators.movieParts info = before ++ tokens ++ after)
    /\ (forall other : list jsstring,
          Permutation other hdr ->
          Forall (fun h => In (Generators.hdrLabel h) Generators.hdrOrder) hdr ->
          Generators.sortedHdr other = tokens)
    /\ MediaClass.getHdrParts
         (Scenarios.film "" "" "" "" ["DV"; "HDR10"]%string [])
       = [js "HDR10"; js "DV"].
Proof.
  intros hdr tokens; unfold tokens, Generators.sortedHdr.
  split; [apply sortByKey_perm|].
  split; [apply sortByKey_sorted|].
  split; [apply hdr_tokens_in_names|].
  split; [intros info E; now apply (proj2 (hdr_tokens_in_names hdr) info [])|].
  split; [|vm_compute; reflexivity].
  intros other P K.
  apply sorted_perm_unique with (key := Generators.hdrRank);
    try apply sortByKey_sorted.
  - rewrite !sortByKey_perm; now apply Permutation_map.
  - intros a b Ha _ E; apply hdrRank_inj; [|exact E].
    eapply Permutation_in in Ha; [|apply sortByKey_perm].
    apply in_map_iff in Ha as (h & <- & Hh).
    rewrite Forall_forall in K.
    now apply hdrRank_listed, K, (Permutation_in _ P).
Qed.

Lemma C4_hdr_tokens_sorted_not_deduplicated_witness :
  Generators.sortedHdr (map js ["DV"; "HDR10"; "HLG"]%string)
  = Generators.sortedHdr (map js ["HLG"; "HDR10"; "DV"]%string)
  /\ MediaClass.getHdrParts
       (Scenarios.film "" "" "" "" ["HLG"; "HDR10"; "DV"]%string [])
     = Generators.sortedHdr (map js ["HLG"; "HDR10"; "DV"]%string).
Proof.
  pose proof (C4_hdr_tokens_sorted_not_deduplicated
                (map js ["HLG"; "HDR10"; "DV"]%string)) as T.
  split.
  - refine (proj1 (proj2 (proj2 (proj2 (proj2 T))))
                  (map js ["DV"; "HDR10"; "HLG"]%string) _ _).
    + apply Permutation_sym.
      exact (Permutation_rev (map js ["HLG"; "HDR10"; "DV"]%string)).
    + repeat constructor; vm_compute; tauto.
  - exact (proj1 (proj1 (proj2 (proj2 T))
      (Scenarios.film "" "" "" "" ["HLG"; "HDR10"; "DV"]%string [])
      eq_refl)).
Defined.

(** C4 as stated fails on duplicates: HDR10 given twice is emitted
    twice. *)
Lemma C4_duplicate_hdr_entry_repeated :
  let this := Scenarios.film "Movie" "" "" "" ["HDR10"; "HDR10"]%string [] in
  MediaClass.getHdrParts this = [js "HDR10"; js "HDR10"]
  /\ FilmClass.generateName this = js "Movie.HDR10.HDR10-NoTag"
  /\ ~ NoDup (MediaClass.getHdrParts this).
Proof.
  repeat split; try (vm_compute; reflexivity).
  intros H; inversion H as [|? ? Hin _]; apply Hin; now left.
Qed.

(** ** Genres *)

Lemma scanTags_some hit l i :
  SerieClass.scanTags hit l = Some i ->
  exists tag, In tag l /\ hit tag = Some i.
Proof.
  induction l as [|tag l IH]; simpl; [discriminate|].
  destruct (hit tag) eqn:E.
  - intros [= <-]; exists tag; auto.
  - intros H; destruct (IH H) as (t & Ht & Hi); exists t; auto.
Qed.

Lemma scanTags_hit hit l tag i :
  In tag l -> hit tag = Some i -> exists j, SerieClass.scanTags hit l = Some j.
Proof.
  induction l as [|t l IH]; simpl; [easy|].
  intros [->|H] E.
  - rewrite E; eauto.
  - destruct (hit t); eauto.
Qed.

Lemma scanCats_some hit cats i :
  SerieClass.scanCats hit cats = Some i ->
  exists tag, In tag (flat_map SerieClass.tags cats) /\ hit tag = Some i.
Proof.
  induction cats as [|cat cats IH]; simpl; [discriminate|].
  destruct (SerieClass.scanTags hit (SerieClass.tags cat)) eqn:E.
  - intros [= <-]. apply scanTags_some in E as (t & Ht & Hi).
    exists t; split; [apply in_or_app; now left | exact Hi].
  - intros H; destruct (IH H) as (t & Ht & Hi).
    exists t; split; [apply in_or_app; now right | exact Hi].
Qed.

Lemma scanCats_hit hit cats tag i :
  In tag (flat_map SerieClass.tags cats) -> hit tag = Some i ->
  exists j, SerieClass.scanCats hit cats = Some j.
Proof.
  induction cats as [|cat cats IH]; simpl; [easy|].
  intros H E; apply in_app_or in H as [H|H].
  - destruct (scanTags_hit _ _ _ H E) as (j & ->); eauto.
  - destruct (SerieClass.scanTags hit (SerieClass.tags cat)); eauto.
Qed.

Lemma genreId_some accepted allCats i :
  SerieClass.genreId accepted allCats = Some i ->
  exists tag, In tag (genreTagsOf allCats) /\ accepted tag = true
              /\ truthy (SerieClass.tagId tag) = true
              /\ i = SerieClass.tagId tag.
Proof.
  intros H; apply scanCats_some in H as (t & Ht & Hi).
  exists t; split; [exact Ht|].
  destruct (accepted t), (truthy (SerieClass.tagId t)); simpl in Hi;
    try discriminate.
  injection Hi as <-; auto.
Qed.

Lemma genreId_hit accepted allCats tag :
  In tag (genreTagsOf allCats) -> accepted tag = true ->
  truthy (SerieClass.tagId tag) = true ->
  exists j, SerieClass.genreId accepted allCats = Some j.
Proof.
  intros Ht Ha Hi.
  eapply scanCats_hit; [exact Ht|].
  rewrite Ha, Hi; reflexivity.
Qed.

Lemma pushId_In o i :
  In i (SerieClass.pushId o) -> o = Some i /\ truthy i = true.
Proof.
  unfold SerieClass.pushId.
  destruct o as [x|]; simpl; [|easy].
  destruct (truthy x) eqn:E; simpl; [|easy].
  intros [<-|[]]; auto.
Qed.

Lemma arrIncludes_In l x : arrIncludes l x = true <-> In x l.
Proof.
  unfold arrIncludes; rewrite existsb_exists; split.
  - intros (y & Hy & E); apply eqb_eq in E; now subst.
  - intros H; exists x; split; [exact H | apply eqb_refl].
Qed.

Lemma uniqAcc_In seen l x :
  In x (uniqAcc seen l) <-> In x l /\ ~ In x seen.
Proof.
  revert seen; induction l as [|y l IH]; intros seen; simpl; [tauto|].
  destruct (arrIncludes seen y) eqn:E.
  - apply arrIncludes_In in E. rewrite IH.
    split; [tauto|]. intros [[->|H] N]; tauto.
  - assert (N : ~ In y seen)
      by (rewrite <- arrIncludes_In; congruence).
    simpl; rewrite IH; simpl.
    split.
    + intros [<-|[H K]]; [tauto|]. split; [tauto|]. intros S; apply K; auto.
    + intros [[<-|H] K]; [tauto|].
      destruct (eqb y x) eqn:Ex; [apply eqb_eq in Ex; tauto|].
      apply eqb_neq in Ex. right; split; [exact H|]. intros [?|?]; tauto.
Qed.

Lemma uniq_In l x : In x (uniq l) <-> In x l.
Proof.
  unfold uniq; rewrite uniqAcc_In; simpl; tauto.
Qed.

Lemma autoTags_In allCats this i :
  In i (SerieClass.autoTags allCats this)
  <-> truthy i = true
      /\ (In i (SerieClass.fieldTags allCats this)
          \/ In i (SerieClass.genreTags allCats (SerieClass.genres this))).
Proof.
  unfold SerieClass.autoTags.
  rewrite uniq_In, filter_In, in_app_iff; tauto.
Qed.

Lemma genreAliases_lookup key l :
  Config.lookup SerieClass.genreAliases key = Some l ->
  l = map js ["science-fiction"; "sci-fi"]%string
  \/ l = map js ["comédie"; "comedy"]%string.
Proof.
  unfold SerieClass.genreAliases, SerieClass.table.
  cbn [map fst snd Config.lookup].
  destruct (eqb (js "sf") key); [intros [= <-]; now left|].
  destruct (eqb (js "comedy") key); [intros [= <-]; now right|].
  discriminate.
Qed.

(** A tag accepted for a genre other than Téléfilm is not named
    Téléfilm. *)
Lemma genreTag_not_telefilm normGenre tag :
  SerieClass.isTelefilm normGenre = false ->
  SerieClass.genreTag normGenre tag = true ->
  SerieClass.norm (SerieClass.tagName tag) <> js "telefilm".
Proof.
  intros Hg Ha Hn.
  unfold SerieClass.genreTag in Ha; rewrite Hn in Ha.
  apply orb_true_iff in Ha as [Ha|Ha].
  - apply eqb_eq in Ha; subst normGenre. vm_compute in Hg; discriminate.
  - destruct (Config.lookup SerieClass.genreAliases normGenre) as [l|] eqn:E;
      [|discriminate].
    apply genreAliases_lookup in E as [->| ->];
      vm_compute in Ha; discriminate.
Qed.

Lemma genreTag_drame tag :
  SerieClass.genreTag (js "drame") tag = true ->
  SerieClass.norm (SerieClass.tagName tag) = js "drame".
Proof.
  unfold SerieClass.genreTag.
  replace (Config.lookup SerieClass.genreAliases (js "drame"))
    with (@None (list jsstring)) by (vm_compute; reflexivity).
  rewrite orb_false_r; apply eqb_eq.
Qed.

Lemma genreTags_telefilm_drame allCats :
  SerieClass.genreTags allCats [js "Téléfilm"; js "Drame"]
  = SerieClass.pushId
      (SerieClass.genreId (SerieClass.genreTag (js "drame")) allCats).
Proof.
  unfold SerieClass.genreTags.
  cbn [map List.length Nat.eqb andb flat_map].
  replace (SerieClass.norm (js "Téléfilm")) with (js "telefilm")
    by (vm_compute; reflexivity).
  replace (SerieClass.norm (js "Drame")) with (js "drame")
    by (vm_compute; reflexivity).
  replace (SerieClass.isTelefilm (js "telefilm")) with true
    by (vm_compute; reflexivity).
  replace (SerieClass.isTelefilm (js "drame")) with false
    by (vm_compute; reflexivity).
  cbn [app]; now rewrite app_nil_r.
Qed.

(** The id of a tag named Téléfilm comes out of the genre lookup only
    when Téléfilm is the sole genre. *)
Lemma genreTags_telefilm_sole allCats T genres :
  genreTaxonomyOk allCats ->
  In T (genreTagsOf allCats) ->
  SerieClass.norm (SerieClass.tagName T) = js "telefilm" ->
  In (SerieClass.tagId T) (SerieClass.genreTags allCats genres) ->
  exists g, genres = [g] /\ SerieClass.isTelefilm (SerieClass.norm g) = true.
Proof.
  intros Ok HT HnT Hin.
  unfold SerieClass.genreTags in Hin.
  destruct (Nat.eqb (List.length (map SerieClass.norm genres)) 1
            && SerieClass.isTelefilm (hd [] (map SerieClass.norm genres)))
    eqn:E.
  - apply andb_true_iff in E as [El Et].
    destruct genres as [|g [|g' genres]]; try discriminate.
    exists g; auto.
  - exfalso. apply in_flat_map in Hin as (genre & _ & Hin).
    destruct (SerieClass.isTelefilm (SerieClass.norm genre)) eqn:Eg;
      [easy|].
    apply pushId_In in Hin as [Hin _].
    apply genreId_some in Hin as (t & Ht & Ha & _ & Hi).
    apply (genreTag_not_telefilm _ _ Eg Ha).
    rewrite <- HnT; symmetry; now apply Ok.
Qed.

(** What a successful lookup returns: the id of a tag of the taxonomy
    that matches the name exactly, through an alias or partially. *)
Lemma scoped_incl allCats category tag :
  In tag (flat_map SerieClass.tags (SerieClass.scoped allCats category)) ->
  In tag (flat_map SerieClass.tags allCats).
Proof.
  intros H; apply in_flat_map in H as (cat & Hc & Ht).
  apply in_flat_map; exists cat; split; [|exact Ht].
  unfold SerieClass.scoped in Hc.
  destruct (truthyOpt category); [|exact Hc].
  destruct (Config.lookup SerieClass.categoryVariants (orEmpty category));
    now apply filter_In in Hc.
Qed.

Lemma searchTag_some allCats name category i :
  SerieClass.searchTag allCats name category = Some i ->
  exists tag,
    In tag (flat_map SerieClass.tags allCats)
    /\ SerieClass.tagId tag = i
    /\ (eqb (SerieClass.norm (SerieClass.tagName tag)) (SerieClass.norm name)
        || SerieClass.aliasHit (SerieClass.norm name) tag
        || includes (SerieClass.norm (SerieClass.tagName tag))
                    (SerieClass.norm name)) = true.
Proof.
  unfold SerieClass.searchTag, SerieClass.returnIf; intros H.
  destruct (SerieClass.scanCats _ (SerieClass.scoped allCats category))
    as [j|] eqn:E1 in H.
  { injection H as <-.
    apply scanCats_some in E1 as (t & Ht & Hh); apply scoped_incl in Ht.
    exists t; split; [exact Ht|].
    destruct (eqb _ _ || SerieClass.aliasHit _ t) eqn:B; [|discriminate].
    injection Hh as <-; split; [reflexivity | now rewrite ?orb_true_r]. }
  destruct (SerieClass.scanCats _ (SerieClass.scoped allCats category))
    as [j|] eqn:E2 in H.
  { injection H as <-.
    apply scanCats_some in E2 as (t & Ht & Hh); apply scoped_incl in Ht.
    exists t; split; [exact Ht|].
    destruct (includes _ _) eqn:B; [|discriminate].
    injection Hh as <-; split; [reflexivity | now rewrite ?orb_true_r]. }
  apply scanCats_some in H as (t & Ht & Hh).
  exists t; split; [exact Ht|].
  destruct (eqb _ _ || SerieClass.aliasHit _ t || includes _ _) eqn:B;
    [|discriminate].
  injection Hh as <-; split; [reflexivity | now rewrite ?orb_true_r].
Qed.

Lemma orId_some a b i :
  SerieClass.orId a b = Some i -> a = Some i \/ b = Some i.
Proof.
  unfold SerieClass.orId; destruct (truthyOpt a); auto.
Qed.

(** The genre block alone does what it says: with the genres Téléfilm
    and Drame it yields the id of the Drame tag and nothing else. *)
Lemma genreTags_drame_only allCats cat T D :
  In cat allCats ->
  arrIncludes [js "genre"; js "genres"]
              (SerieClass.norm (SerieClass.catName cat)) = true ->
  In T (SerieClass.tags cat) -> In D (SerieClass.tags cat) ->
  SerieClass.norm (SerieClass.tagName T) = js "telefilm" ->
  SerieClass.norm (SerieClass.tagName D) = js "drame" ->
  truthy (SerieClass.tagId D) = true ->
  genreTaxonomyOk allCats ->
  SerieClass.genreTags allCats [js "Téléfilm"; js "Drame"]
  = [SerieClass.tagId D].
Proof.
  intros Hcat Hname HT HD HnT HnD HiD Ok.
  assert (G : forall t, In t (SerieClass.tags cat) -> In t (genreTagsOf allCats)).
  { intros t Ht; apply in_flat_map; exists cat; split; [|exact Ht].
    apply filter_In; auto. }
  rewrite genreTags_telefilm_drame.
  destruct (genreId_hit (SerieClass.genreTag (js "drame")) allCats D)
    as (j & Hj); auto.
  { unfold SerieClass.genreTag; rewrite HnD, eqb_refl; reflexivity. }
  rewrite Hj. apply genreId_some in Hj as (t & Ht & Ha & Hi & ->).
  apply genreTag_drame in Ha.
  unfold SerieClass.pushId; simpl; rewrite Hi; simpl.
  f_equal; apply Ok; auto. congruence.
Qed.

(** C6.  A series with the genres Téléfilm and Drame whose only audio
    track is in Greek: the report gives the language [el], the genre block
    resolves to the Drame tag alone, but the lookup of [el] among the
    audio languages finds no such category, falls back to a partial match
    over all categories and returns the Téléfilm tag, whose name contains
    [el].  The returned set holds the Téléfilm id beside the Drame id. *)
Theorem C6_telefilm_tagged_beside_another_genre :
  let this := Scenarios.greekTelefilm in
  let taxonomy := Scenarios.genreTaxonomy in
  Parsers.audioLanguages (Parsers.parseMediaInfo Scenarios.greekReport)
  = Some [js "el"]
  /\ MediaClass.audioLanguages (SerieClass.media this) = [js "el"]
  /\ SerieClass.genres this = [js "Téléfilm"; js "Drame"]
  /\ SerieClass.genreTags taxonomy (SerieClass.genres this) = [js "g-drame"]
  /\ SerieClass.findTagIdByName (SerieClass.mkCache (Some taxonomy))
                                (Some (js "el")) (Some (js "Langue audio"))
     = SerieClass.Returned (Some (js "g-telefilm"))
  /\ SerieClass.getAutoTags (SerieClass.mkCache (Some taxonomy)) this
     = SerieClass.Returned [js "t-serie"; js "g-telefilm"; js "g-drame"].
Proof.
  vm_compute; repeat split.
Qed.

(** ** Dot hygiene *)


(** Joining with a dot *)
Lemma cleanAux_dot (b : bool) (a c : jsstring) :
  cleanAux b (a ++ Generators.DOT :: c) = cleanAux b a && cleanAux true c.
Proof.
  revert b; induction a as [|x a IH]; intros b; simpl.
  - reflexivity.
  - destruct (N.eqb x Generators.DOT); rewrite IH; [|reflexivity].
    now rewrite andb_assoc.
Qed.

(** What follows a clean prefix is read from a plain position. *)
Lemma cleanAux_app (b : bool) (a c : jsstring) :
  cleanAux b a = true -> cleanAux b (a ++ c) = cleanAux false c.
Proof.
  revert b; induction a as [|x a IH]; intros b; simpl.
  - now destruct b.
  - destruct (N.eqb x Generators.DOT).
    + intros H; apply andb_true_iff in H as [-> H]; simpl; auto.
    + auto.
Qed.

Lemma dotFree_clean (s : jsstring) :
  dotFree s = true -> cleanAux false s = true.
Proof.
  induction s as [|c s IH]; simpl; [reflexivity|].
  intros H; apply andb_true_iff in H as [Hc Hs].
  apply negb_true_iff in Hc; rewrite Hc; auto.
Qed.

Lemma dotFree_dotClean (c : char) (s : jsstring) :
  dotFree (c :: s) = true -> dotClean (c :: s) = true.
Proof.
  unfold dotClean; simpl.
  intros H; apply andb_true_iff in H as [Hc Hs].
  apply negb_true_iff in Hc; rewrite Hc; now apply dotFree_clean.
Qed.

(** Replacing a dot-free, non-empty stretch by another one *)
Lemma cleanAux_stretch (b : bool) (c : char) (x r : jsstring) :
  dotFree (c :: x) = true -> cleanAux b ((c :: x) ++ r) = cleanAux false r.
Proof.
  simpl; intros H; apply andb_true_iff in H as [Hc Hx].
  apply negb_true_iff in Hc; rewrite Hc.
  clear Hc; induction x as [|y x IH]; simpl; [reflexivity|].
  simpl in Hx; apply andb_true_iff in Hx as [Hy Hx].
  apply negb_true_iff in Hy; rewrite Hy; auto.
Qed.

Lemma dotClean_append (s x : jsstring) :
  dotClean s = true -> dotFree x = true -> dotClean (s ++ x) = true.
Proof.
  unfold dotClean; intros Hs Hx.
  rewrite cleanAux_app by exact Hs; now apply dotFree_clean.
Qed.


Lemma join_dotClean (parts : list jsstring) :
  parts <> [] -> forallb dotClean parts = true ->
  dotClean (join [Generators.DOT] parts) = true.
Proof.
  induction parts as [|x parts IH]; [easy|].
  intros _ H; simpl in H; apply andb_true_iff in H as [Hx Hp].
  destruct parts as [|y parts]; [exact Hx|].
  change (join [Generators.DOT] (x :: y :: parts))
    with (x ++ Generators.DOT :: join [Generators.DOT] (y :: parts)).
  unfold dotClean; rewrite cleanAux_dot.
  apply andb_true_iff; split; [exact Hx|].
  now apply IH.
Qed.

(** A clean string in the words of the claim *)
Lemma startsWith_dot (s : jsstring) :
  startsWith s [Generators.DOT]
  = match s with c :: _ => N.eqb c Generators.DOT | [] => false end.
Proof.
  destruct s as [|c s]; [reflexivity|].
  unfold startsWith; simpl.
  rewrite N.eqb_sym; now destruct (N.eqb c Generators.DOT).
Qed.

Lemma endsWith_dot_cons (c : char) (s : jsstring) :
  endsWith (c :: s) [Generators.DOT]
  = match s with
    | [] => N.eqb c Generators.DOT
    | _ :: _ => endsWith s [Generators.DOT]
    end.
Proof.
  unfold endsWith; simpl rev at 2.
  rewrite !startsWith_dot; simpl.
  destruct s as [|y s]; [reflexivity|].
  simpl; destruct (rev s ++ [y]) eqn:E; [|reflexivity].
  now destruct (rev s).
Qed.

Lemma cleanAux_plain (b : bool) (s : jsstring) :
  cleanAux b s = true ->
  includes s [Generators.DOT; Generators.DOT] = false
  /\ (b = true -> startsWith s [Generators.DOT] = false)
  /\ endsWith s [Generators.DOT] = false.
Proof.
  revert b; induction s as [|c s IH]; intros b H.
  - repeat split; reflexivity.
  - simpl in H.
    assert (K : exists b', cleanAux b' s = true
                           /\ (N.eqb c Generators.DOT = true -> b' = true)
                           /\ (N.eqb c Generators.DOT = true -> b = false)).
    { destruct (N.eqb c Generators.DOT).
      - apply andb_true_iff in H as [Hb H]; apply negb_true_iff in Hb.
        exists true; auto.
      - exists false; repeat split; auto; discriminate. }
    destruct K as (b' & Hs & Hc & Hb).
    destruct (IH _ Hs) as (I1 & I2 & I3).
    split; [|split].
    + cbn [includes]; rewrite I1, orb_false_r.
      unfold startsWith; simpl.
      rewrite (N.eqb_sym Generators.DOT c).
      destruct (N.eqb c Generators.DOT) eqn:E; [|reflexivity].
      specialize (I2 (Hc eq_refl)); rewrite startsWith_dot in I2.
      destruct s as [|y s]; [reflexivity|].
      rewrite (N.eqb_sym Generators.DOT y), I2; reflexivity.
    + intros ->; rewrite startsWith_dot.
      destruct (N.eqb c Generators.DOT); [|reflexivity].
      now specialize (Hb eq_refl).
    + rewrite endsWith_dot_cons.
      destruct s as [|y s]; [|exact I3].
      destruct (N.eqb c Generators.DOT); [|reflexivity].
      rewrite (Hc eq_refl) in Hs; discriminate.
Qed.

Lemma dotClean_plain (s : jsstring) :
  slotOk s = true ->
  includes s (js "..") = false
  /\ startsWith s (js ".") = false
  /\ endsWith s (js ".") = false.
Proof.
  destruct s as [|c s]; [repeat split; reflexivity|].
  intros H; destruct (cleanAux_plain _ _ H) as (A & B & C); auto.
Qed.

(** ** Case mapping and dots *)

Ltac char_cases :=
  repeat match goal with
    | |- context [N.leb ?a ?b] => destruct (N.leb_spec a b)
    | |- context [N.eqb ?a ?b] => destruct (N.eqb_spec a b)
    | H : context [N.leb ?a ?b] |- _ => destruct (N.leb_spec a b)
    | H : context [N.eqb ?a ?b] |- _ => destruct (N.eqb_spec a b)
    end;
  simpl in *; try reflexivity; try discriminate; try lia.

Lemma lowerChar_dot (c : char) :
  N.eqb (lowerChar c) Generators.DOT = N.eqb c Generators.DOT.
Proof.
  unfold lowerChar, Generators.DOT; char_cases.
Qed.

Lemma upperChar_dot (c : char) :
  if N.eqb c Generators.DOT then upperChar c = [Generators.DOT]
  else exists u x, upperChar c = u :: x /\ dotFree (u :: x) = true.
Proof.
  unfold upperChar, dotFree, Generators.DOT.
  destruct (N.eqb_spec c 0x2E) as [->|Hc]; [reflexivity|].
  repeat match goal with
    | |- context [if ?b then _ else _] =>
        destruct b eqn:?; [eexists _, _; split; [reflexivity|]|]
    end;
    try (eexists _, _; split; [reflexivity|]);
    simpl; char_cases.
Qed.

Lemma cleanAux_toLowerCase (b : bool) (s : jsstring) :
  cleanAux b (toLowerCase s) = cleanAux b s.
Proof.
  revert b; induction s as [|c s IH]; intros b; simpl; [reflexivity|].
  now rewrite lowerChar_dot, !IH.
Qed.

Lemma cleanAux_toUpperCase (b : bool) (s : jsstring) :
  cleanAux b (toUpperCase s) = cleanAux b s.
Proof.
  revert b; induction s as [|c s IH]; intros b; [reflexivity|].
  change (toUpperCase (c :: s)) with (upperChar c ++ toUpperCase s).
  pose proof (upperChar_dot c) as U; simpl.
  destruct (N.eqb c Generators.DOT) eqn:E.
  - rewrite U; simpl. now rewrite IH.
  - destruct U as (u & x & -> & F).
    now rewrite cleanAux_stretch, IH.
Qed.

Lemma dotClean_toUpperCase (s : jsstring) :
  dotClean (toUpperCase s) = dotClean s.
Proof. apply cleanAux_toUpperCase. Qed.

Lemma dotClean_toLowerCase (s : jsstring) :
  dotClean (toLowerCase s) = dotClean s.
Proof. apply cleanAux_toLowerCase. Qed.

Lemma slotOk_dotClean (s : jsstring) :
  truthy s = true -> slotOk s = true -> dotClean s = true.
Proof. now destruct s. Qed.

Lemma stripPrefix_some (p s r : jsstring) :
  stripPrefix p s = Some r -> s = p ++ r.
Proof.
  revert s; induction p as [|x p IH]; intros [|y s]; simpl;
    try discriminate; try (now intros [= ->]).
  destruct (N.eqb_spec x y) as [->|]; [|discriminate].
  intros H; f_equal; auto.
Qed.

Lemma cleanAux_replaceFirst (b : bool) (p q : char) (pat rep s : jsstring) :
  dotFree (p :: pat) = true -> dotFree (q :: rep) = true ->
  cleanAux b (replaceFirst (p :: pat) (q :: rep) s) = cleanAux b s.
Proof.
  intros Hp Hq; revert b; induction s as [|c s IH]; intros b.
  - reflexivity.
  - cbn [replaceFirst].
    destruct (stripPrefix (p :: pat) (c :: s)) as [r|] eqn:E.
    + apply stripPrefix_some in E; rewrite E.
      now rewrite !cleanAux_stretch.
    + simpl; now rewrite !IH.
Qed.

(** ** The slots of the name *)

Lemma hdrLabel_clean (h : jsstring) :
  dotClean h = true -> dotClean (Generators.hdrLabel h) = true.
Proof.
  intros H; unfold Generators.hdrLabel, dotClean.
  change (js "DOLBY VISION") with (0x44%N :: js "OLBY VISION").
  change (js "DV") with (0x44%N :: js "V").
  rewrite cleanAux_replaceFirst by reflexivity.
  now rewrite cleanAux_toUpperCase.
Qed.

Lemma forallb_Forall (A : Type) (f : A -> bool) (l : list A) :
  forallb f l = true <-> Forall (fun x => f x = true) l.
Proof.
  rewrite forallb_forall, Forall_forall; tauto.
Qed.

Lemma sortedHdr_clean (hdr : list jsstring) :
  forallb dotClean hdr = true ->
  forallb dotClean (Generators.sortedHdr hdr) = true.
Proof.
  rewrite !forallb_Forall; intros H.
  eapply Permutation_Forall; [symmetry; apply sortByKey_perm|].
  apply Forall_map; eapply Forall_impl; [|exact H].
  apply hdrLabel_clean.
Qed.

Lemma languageCascade_clean (langs : list jsstring) (french : jsstring) :
  forallb dotClean langs = true -> dotClean french = true ->
  forallb dotClean (Generators.languageCascade langs french) = true.
Proof.
  intros Hl Hf; unfold Generators.languageCascade.
  repeat match goal with
    | |- context [if ?c then _ else _] => destruct c; [reflexivity || idtac|]
    end;
    try (simpl; now rewrite Hf).
  destruct (filter Generators.isOtherLanguage langs) as [|l [|]] eqn:E;
    try reflexivity.
  simpl; rewrite dotClean_toUpperCase, andb_true_r.
  rewrite forallb_forall in Hl; apply Hl.
  assert (I : In l (filter Generators.isOtherLanguage langs))
    by (rewrite E; now left).
  now apply filter_In in I.
Qed.

Lemma languageField_clean (language : jsstring) :
  dotClean language = true ->
  forallb dotClean (Generators.languageField language) = true.
Proof.
  intros H; unfold Generators.languageField; simpl.
  destruct (eqb (toUpperCase language) (js "MULTI")); [reflexivity|].
  now rewrite dotClean_toUpperCase, H.
Qed.

Lemma getLanguageParts_clean (this : MediaClass.Media) :
  forallb dotClean (MediaClass.audioLanguages this) = true ->
  slotOk (MediaClass.language this) = true ->
  forallb dotClean (MediaClass.getLanguageParts this) = true.
Proof.
  intros Hl Hf; unfold MediaClass.getLanguageParts.
  destruct (MediaClass.isVOSTFR this); [reflexivity|].
  destruct (MediaClass.audioLanguages this) eqn:E.
  - destruct (truthy (MediaClass.language this)) eqn:T; [|reflexivity].
    apply languageField_clean; now apply slotOk_dotClean.
  - now apply languageCascade_clean.
Qed.

Lemma canonicalSource_clean (source : jsstring) :
  dotClean source = true -> dotClean (Generators.canonicalSource source) = true.
Proof.
  intros H; unfold Generators.canonicalSource.
  repeat match goal with
    | |- context [if ?c then _ else _] => destruct c; [reflexivity|]
    end.
  exact H.
Qed.

Lemma resolutionPart_clean (resolution : jsstring) :
  dotClean resolution = true ->
  dotClean (Generators.resolutionPart resolution) = true.
Proof.
  intros H; unfold Generators.resolutionPart.
  destruct (endsWith (toLowerCase resolution) (js "p")).
  - now rewrite dotClean_toLowerCase.
  - apply dotClean_append; [now rewrite dotClean_toLowerCase | reflexivity].
Qed.

Lemma getCodecPart_clean (this : MediaClass.Media) :
  slotOk (MediaClass.codec this) = true ->
  slotOk (MediaClass.getCodecPart this) = true.
Proof.
  intros H; unfold MediaClass.getCodecPart.
  destruct (truthy (MediaClass.codec this)) eqn:T; [|reflexivity].
  simpl negb; cbv iota.
  repeat match goal with
    | |- context [if ?c then _ else _] => destruct c; [reflexivity|]
    end.
  unfold slotOk.
  destruct (toUpperCase (MediaClass.codec this)) eqn:E; [reflexivity|].
  rewrite <- E, dotClean_toUpperCase; now apply slotOk_dotClean.
Qed.

(** *** The title *)

Lemma collapseAux_noDoubleDot (b : bool) (w : jsstring) :
  noDoubleDot b (Generators.collapseAux b w) = true.
Proof.
  revert b; induction w as [|c w IH]; intros b; simpl; [reflexivity|].
  destruct (N.eqb c Generators.DOT) eqn:E.
  - destruct b; simpl; [apply IH|]. now rewrite E, IH.
  - simpl; now rewrite E.
Qed.

Lemma dropFinalDot_cons (c : char) (s : jsstring) :
  N.eqb c Generators.DOT = false ->
  Generators.dropFinalDot (c :: s) = c :: Generators.dropFinalDot s.
Proof.
  intros E; destruct s; simpl; now rewrite ?E.
Qed.

Lemma dropFinalDot_clean (b : bool) (s : jsstring) :
  noDoubleDot b s = true ->
  Generators.dropFinalDot s = []
  \/ cleanAux b (Generators.dropFinalDot s) = true.
Proof.
  revert b; induction s as [|c s IH]; intros b H; [now left|].
  simpl in H.
  destruct (N.eqb c Generators.DOT) eqn:E.
  - apply andb_true_iff in H as [Hb H].
    destruct s as [|y s]; [left; simpl; now rewrite E|].
    right.
    change (Generators.dropFinalDot (c :: y :: s))
      with (c :: Generators.dropFinalDot (y :: s)).
    simpl cleanAux; rewrite E, Hb; simpl.
    destruct (IH true H) as [K|K]; [|exact K].
    exfalso. simpl in H.
    destruct (N.eqb y Generators.DOT) eqn:Ey; [discriminate|].
    rewrite dropFinalDot_cons in K by exact Ey; discriminate.
  - right. rewrite dropFinalDot_cons by exact E.
    simpl; rewrite E.
    destruct (IH false H) as [-> | K]; [reflexivity | exact K].
Qed.

Lemma trimDots_clean (u : jsstring) :
  noDoubleDot false u = true -> slotOk (Generators.trimDots u) = true.
Proof.
  intros H.
  assert (K : forall r, r = [] \/ cleanAux true r = true -> slotOk r = true)
    by (intros [|x r] [K|K]; auto; discriminate).
  destruct u as [|c u]; [reflexivity|].
  simpl in H; cbn [Generators.trimDots].
  destruct (N.eqb c Generators.DOT) eqn:E.
  - apply K, dropFinalDot_clean, H.
  - apply K; right. rewrite dropFinalDot_cons by exact E.
    simpl; rewrite E.
    destruct (dropFinalDot_clean _ _ H) as [-> | D]; [reflexivity | exact D].
Qed.

(** Whatever the title, its normal form is empty or dot-clean. *)
Lemma normalizeTitle_clean (title : jsstring) :
  slotOk (Generators.normalizeTitle title) = true.
Proof.
  unfold Generators.normalizeTitle.
  destruct (truthy title); [|reflexivity].
  apply trimDots_clean, collapseAux_noDoubleDot.
Qed.

(** *** Audio *)

Lemma dotFree_app (a c : jsstring) :
  dotFree (a ++ c) = dotFree a && dotFree c.
Proof. apply forallb_app. Qed.

Lemma trimStart_dotFree (s : jsstring) :
  dotFree s = true -> dotFree (trimStart s) = true.
Proof.
  induction s as [|c s IH]; [reflexivity|].
  intros H; simpl. destruct (isSpace c); [|exact H].
  simpl in H; apply andb_true_iff in H as [_ H]; auto.
Qed.

Lemma removeSpacesThen_dotFree (kw s : jsstring) :
  dotFree s = true -> dotFree (Generators.removeSpacesThen kw s) = true.
Proof.
  induction s as [|c s IH]; [reflexivity|].
  intros H; simpl in H; apply andb_true_iff in H as [Hc Hs].
  simpl.
  destruct (isSpace c);
    [destruct (stripPrefix kw (trimStart s)) as [r|] eqn:E|];
    try (simpl; rewrite Hc; now apply IH).
  apply stripPrefix_some in E.
  apply trimStart_dotFree in Hs; rewrite E, dotFree_app in Hs.
  now apply andb_true_iff in Hs.
Qed.

Lemma removeSpacesThen_codecNameOk (kw s : jsstring) :
  codecNameOk s = true ->
  codecNameOk (Generators.removeSpacesThen kw s) = true.
Proof.
  destruct s as [|c s]; [discriminate|].
  intros H; pose proof H as H'.
  apply andb_true_iff in H as [Hc Hs]; apply negb_true_iff in Hc.
  pose proof (removeSpacesThen_dotFree kw _ Hs) as K.
  simpl in K |- *; rewrite Hc in K |- *.
  simpl; rewrite Hc; exact K.
Qed.

Lemma isSpace_true (c : char) :
  isSpace c = true ->
  (9 <= c <= 13 \/ c = 32 \/ c = 160 \/ 5760 <= c)%N.
Proof.
  unfold isSpace.
  rewrite !orb_true_iff, !andb_true_iff, !N.leb_le, !N.eqb_eq; lia.
Qed.

Lemma upperChar_space (c : char) :
  isSpace c = false ->
  exists u x, upperChar c = u :: x /\ isSpace u = false.
Proof.
  intros H; unfold upperChar.
  destruct ((0x61 <=? c) && (c <=? 0x7A))%N eqn:E1.
  { eexists _, _; split; [reflexivity|].
    destruct (isSpace (c - 0x20)%N) eqn:S; [|reflexivity].
    apply isSpace_true in S.
    apply andb_true_iff in E1 as [A B]; apply N.leb_le in A, B; lia. }
  destruct ((0xE0 <=? c) && (c <=? 0xFE) && negb (c =? 0xF7))%N eqn:E2.
  { eexists _, _; split; [reflexivity|].
    destruct (isSpace (c - 0x20)%N) eqn:S; [|reflexivity].
    apply isSpace_true in S.
    apply andb_true_iff in E2 as [E2 _].
    apply andb_true_iff in E2 as [A B]; apply N.leb_le in A, B; lia. }
  repeat match goal with
    | |- context [if ?b then _ else _] =>
        destruct b; [eexists _, _; split; reflexivity|]
    end.
  eexists _, _; split; [reflexivity | exact H].
Qed.

Lemma dotFree_toUpperCase (s : jsstring) :
  dotFree s = true -> dotFree (toUpperCase s) = true.
Proof.
  induction s as [|c s IH]; [reflexivity|].
  intros H; simpl in H; apply andb_true_iff in H as [Hc Hs].
  change (toUpperCase (c :: s)) with (upperChar c ++ toUpperCase s).
  rewrite dotFree_app, (IH Hs), andb_true_r.
  pose proof (upperChar_dot c) as U.
  apply negb_true_iff in Hc; rewrite Hc in U.
  now destruct U as (u & x & -> & F).
Qed.

Lemma toUpperCase_codecNameOk (s : jsstring) :
  codecNameOk s = true -> codecNameOk (toUpperCase s) = true.
Proof.
  destruct s as [|c s]; [discriminate|].
  intros H; apply andb_true_iff in H as [Hc Hs]; apply negb_true_iff in Hc.
  pose proof (dotFree_toUpperCase _ Hs) as K.
  change (toUpperCase (c :: s)) with (upperChar c ++ toUpperCase s) in *.
  destruct (upperChar_space _ Hc) as (u & x & E & Hu).
  rewrite E in *; simpl in *. now rewrite Hu.
Qed.

Lemma codecNameOk_dotClean (s : jsstring) :
  codecNameOk s = true -> dotClean s = true.
Proof.
  destruct s as [|c s]; [discriminate|].
  intros H; apply andb_true_iff in H as [_ H].
  now apply dotFree_dotClean.
Qed.

Lemma audioCodecToken_clean (c : jsstring) :
  codecNameOk c = true -> dotClean (MediaClass.audioCodecToken c) = true.
Proof.
  intros H; unfold MediaClass.audioCodecToken.
  repeat match goal with
    | |- context [if ?c then _ else _] => destruct c; [reflexivity|]
    end.
  apply codecNameOk_dotClean.
  unfold Generators.stripAudioSpecs.
  now apply removeSpacesThen_codecNameOk, removeSpacesThen_codecNameOk,
    toUpperCase_codecNameOk.
Qed.

Lemma forallb_uniq (f : jsstring -> bool) (l : list jsstring) :
  forallb f l = true -> forallb f (uniq l) = true.
Proof.
  rewrite !forallb_forall; intros H x Hx; apply H; now apply uniq_In.
Qed.

Lemma uniq_cons_not_nil (x : jsstring) (l : list jsstring) : uniq (x :: l) <> [].
Proof. discriminate. Qed.

Lemma audioSpecsPart_clean (audioCodecs : list jsstring) :
  forallb dotClean (Generators.audioSpecsPart audioCodecs) = true.
Proof.
  unfold Generators.audioSpecsPart.
  destruct (Generators.audioSpecsOf audioCodecs) as [|x l] eqn:E;
    [reflexivity|].
  cbn [forallb]; rewrite andb_true_r.
  apply join_dotClean; [discriminate|].
  rewrite <- E; unfold Generators.audioSpecsOf.
  apply forallb_uniq, forallb_forall; intros y Hy.
  apply in_flat_map in Hy as (c & _ & Hy).
  apply in_app_or in Hy as [Hy|Hy];
    match type of Hy with
    | In _ (if ?b then _ else _) => destruct b
    end;
    simpl in Hy; try (destruct Hy as [<-|[]]; reflexivity); destruct Hy.
Qed.

Lemma getAudioParts_clean (this : MediaClass.Media) :
  forallb codecNameOk (MediaClass.audioCodecs this) = true ->
  slotOk (MediaClass.audioChannels this) = true ->
  forallb dotClean (MediaClass.getAudioParts this) = true.
Proof.
  intros Hc Hch; unfold MediaClass.getAudioParts.
  rewrite !forallb_app.
  repeat (apply andb_true_iff; split).
  - destruct (MediaClass.audioCodecs this) as [|c l] eqn:E; [reflexivity|].
    cbn [forallb]; rewrite andb_true_r.
    apply join_dotClean; [apply uniq_cons_not_nil|].
    apply forallb_uniq.
    change (forallb dotClean (map MediaClass.audioCodecToken (c :: l)) = true).
    rewrite forallb_forall in Hc |- *; intros x Hx.
    apply in_map_iff in Hx as (y & <- & Hy).
    now apply audioCodecToken_clean, Hc.
  - destruct (truthy (MediaClass.audioChannels this)) eqn:T; [|reflexivity].
    simpl; rewrite andb_true_r; now apply slotOk_dotClean.
  - destruct (MediaClass.audioCodecs this); [reflexivity|].
    apply audioSpecsPart_clean.
Qed.

(** *** The whole name *)

Lemma pushPart_clean (part : jsstring) :
  slotOk part = true -> forallb dotClean (FilmClass.pushPart part) = true.
Proof.
  intros H; unfold FilmClass.pushPart.
  destruct (truthy part) eqn:T; [|reflexivity].
  cbn [forallb]; now rewrite (slotOk_dotClean _ T H).
Qed.

Lemma pushIf_upper_clean (s : jsstring) :
  slotOk s = true -> forallb dotClean (FilmClass.pushIf s toUpperCase) = true.
Proof.
  intros H; unfold FilmClass.pushIf.
  destruct (truthy s) eqn:T; [|reflexivity].
  cbn [forallb]; now rewrite dotClean_toUpperCase, (slotOk_dotClean _ T H).
Qed.

Lemma flag_clean (b : bool) :
  forallb dotClean (Generators.flag b "3D") = true
  /\ forallb dotClean (Generators.flag b "iMAX") = true.
Proof. now destruct b. Qed.

Lemma nameParts_clean (this : MediaClass.Media) :
  tidyMedia this = true -> forallb dotClean (FilmClass.nameParts this) = true.
Proof.
  unfold tidyMedia; intros H.
  repeat match type of H with
    | _ && _ = true => let K := fresh "K" in apply andb_true_iff in H as [H K]
    end.
  unfold FilmClass.nameParts; rewrite !forallb_app.
  repeat (apply andb_true_iff; split);
    try (now apply pushPart_clean);
    try (now apply pushIf_upper_clean);
    try apply flag_clean.
  - unfold FilmClass.pushIf.
    destruct (truthy (MediaClass.title this)) eqn:T; [|reflexivity].
    simpl in H; cbn [forallb]; rewrite andb_true_r.
    apply slotOk_dotClean; [exact H | apply normalizeTitle_clean].
  - now apply getLanguageParts_clean.
  - rewrite getHdrParts_sortedHdr; now apply sortedHdr_clean.
  - apply pushPart_clean; unfold MediaClass.getResolutionPart.
    destruct (truthy (MediaClass.resolution this)) eqn:T; [|reflexivity].
    cbn [negb]; unfold slotOk.
    pose proof (resolutionPart_clean _ (slotOk_dotClean _ T ltac:(assumption)))
      as R.
    now destruct (Generators.resolutionPart (MediaClass.resolution this)).
  - apply pushPart_clean; unfold MediaClass.getSourcePart.
    destruct (truthy (MediaClass.source this)) eqn:T; [|reflexivity].
    cbn [negb]; unfold slotOk.
    pose proof (canonicalSource_clean _ (slotOk_dotClean _ T ltac:(assumption)))
      as R.
    now destruct (Generators.canonicalSource (MediaClass.source this)).
  - now apply getAudioParts_clean.
  - now apply pushPart_clean, getCodecPart_clean.
Qed.


(** *** The generators *)


















Lemma join_parts_clean (parts : list jsstring) :
  forallb dotClean parts = true -> slotOk (join [Generators.DOT] parts) = true.
Proof.
  intros H; destruct parts as [|x l]; [reflexivity|].
  assert (C : dotClean (join [Generators.DOT] (x :: l)) = true)
    by (apply join_dotClean; [discriminate | exact H]).
  unfold slotOk; now destruct (join [Generators.DOT] (x :: l)).
Qed.

(** A name made of a clean base and the group suffix, in the words of
    the claim. *)
Lemma suffixed_name_plain (base team : jsstring) :
  slotOk base = true ->
  includes base (js "..") = false
  /\ startsWith (base ++ js "-" ++ team) (js ".") = false
  /\ endsWith base (js ".") = false.
Proof.
  intros H; destruct (dotClean_plain _ H) as (A & B & C).
  repeat split; try assumption.
  change (js ".") with [Generators.DOT] in *.
  rewrite startsWith_dot in *.
  destruct base; [reflexivity | exact B].
Qed.




(** ** Title normalization on single words *)

(** One comparison at a time, pruning the impossible branch at once. *)
Ltac char_step :=
  match goal with
  | |- context [N.leb ?a ?b] => destruct (N.leb_spec a b); try lia
  | |- context [N.ltb ?a ?b] => destruct (N.ltb_spec a b); try lia
  | |- context [N.eqb ?a ?b] => destruct (N.eqb_spec a b); try lia
  end; cbn [andb orb negb].

Ltac bool_hyps :=
  repeat match goal with
    | H : _ && _ = true |- _ => apply andb_true_iff in H as [? ?]
    | H : negb _ = true |- _ => apply negb_true_iff in H
    | H : _ || _ = false |- _ => apply orb_false_iff in H as [? ?]
    | H : N.ltb _ _ = true |- _ => apply N.ltb_lt in H
    | H : N.leb _ _ = true |- _ => apply N.leb_le in H
    | H : N.eqb _ _ = false |- _ => apply N.eqb_neq in H
    | H : N.eqb _ _ = true |- _ => apply N.eqb_eq in H
    end.





Lemma calm_DOT : calm Generators.DOT = true.
Proof. reflexivity. Qed.







(** *** Case mapping on Basic Latin *)







(** *** What the collapse and the trim keep *)

Lemma collapseAux_Forall (P : char -> Prop) (b : bool) (w : jsstring) :
  Forall P w -> Forall P (Generators.collapseAux b w).
Proof.
  intros H; revert b; induction H as [|c w Hc _ IH]; intros b; simpl;
    [constructor|].
  destruct (N.eqb c Generators.DOT), b; auto.
Qed.

Lemma dropFinalDot_Forall (P : char -> Prop) (w : jsstring) :
  Forall P w -> Forall P (Generators.dropFinalDot w).
Proof.
  induction 1 as [|c w Hc Hw IH]; [constructor|].
  destruct w as [|y w].
  - simpl; destruct (N.eqb c Generators.DOT); auto.
  - change (Generators.dropFinalDot (c :: y :: w))
      with (c :: Generators.dropFinalDot (y :: w)).
    auto.
Qed.









(** *** Words that [capitalizeWord] leaves alone *)






(** *** One word, normalized twice *)







(** Nor does idempotence reach every single word outside Basic Latin: the
    sharp s is capitalized to two letters, which are cased again the
    second time. *)
Lemma normalizeTitle_sharp_s_twice :
  Generators.normalizeTitle (js "ßa") = js "SSa"
  /\ Generators.normalizeTitle (js "SSa") = js "Ssa".
Proof.
  vm_compute; split; reflexivity.
Qed.

(* ================================================================== *)
(** * From the analyser's report to the name *)
(* ================================================================== *)

(** The HDR list that [parseMediaInfo] can build for a video track *)
Lemma videoHdr_cases (v : Parsers.Track) :
  In (Parsers.videoHdr v)
     (map (map js)
        [ []; ["HLG"]; ["DV"]; ["DV"; "HLG"];
          ["HDR10+"]; ["HDR10+"; "HLG"]; ["HDR10+"; "DV"];
          ["HDR10+"; "DV"; "HLG"];
          ["HDR10"]; ["HDR10"; "HLG"]; ["HDR10"; "DV"];
          ["HDR10"; "DV"; "HLG"];
          ["HDR"]; ["HDR"; "HLG"]; ["HDR"; "DV"]; ["HDR"; "DV"; "HLG"] ]%string).
Proof.
  unfold Parsers.videoHdr.
  destruct (truthyOpt _);
  repeat match goal with
  | |- context [if ?b then _ else _] => destruct b
  end; cbn [app map In]; tauto.
Qed.

Lemma NoDup_eqb (l : list jsstring) : distinct l = true -> NoDup l.
Proof.
  induction l as [|x l IH]; intros H; constructor.
  - apply andb_true_iff in H as [H _].
    rewrite <- arrIncludes_In; now destruct (arrIncludes l x).
  - apply andb_true_iff in H as [_ H]; auto.
Qed.

Lemma parsed_hdr (report : Parsers.MediaInfoJson) (h : list jsstring) :
  Parsers.hdr (Parsers.parseMediaInfo report) = Some h ->
  h <> [] /\ exists v, h = Parsers.videoHdr v.
Proof.
  destruct report as [text|tracks]; simpl; [discriminate|].
  destruct (find _ tracks) as [v|]; simpl; [|discriminate].
  destruct (Parsers.videoHdr v) eqn:E; [discriminate|].
  intros [= <-]; split; [discriminate | exists v; now rewrite E].
Qed.

(** X1.  The HDR labels that [parseMediaInfo] reads from a report are
    already in the order of the name: applied to a media object, they come
    out of [getHdrParts] unchanged; they are pairwise distinct and all in
    the priority list. *)
Theorem parsed_hdr_kept_in_name_order :
  forall (report : Parsers.MediaInfoJson) (this : MediaClass.Media)
         (h : list jsstring),
    Parsers.hdr (Parsers.parseMediaInfo report) = Some h ->
    MediaClass.getHdrParts
      (MediaClass.applyMediaInfo this (Parsers.parseMediaInfo report)) = h
    /\ NoDup h
    /\ incl h Generators.hdrOrder.
Proof.
  intros report this h H.
  unfold MediaClass.getHdrParts, MediaClass.applyMediaInfo; cbn [MediaClass.hdr].
  rewrite H; cbn [MediaClass.pickArr].
  apply parsed_hdr in H as (N & v & ->).
  pose proof (videoHdr_cases v) as C.
  cbn [map In] in C.
  repeat (destruct C as [C|C]; [rewrite <- C in *; clear C|]);
    try (exfalso; apply N; reflexivity); try contradiction;
    (split; [vm_compute; reflexivity|]);
    (split; [apply NoDup_eqb; vm_compute; reflexivity|]);
    intros x Hx; cbn [In] in Hx;
    repeat (destruct Hx as [<-|Hx]; [vm_compute; tauto|]); contradiction.
Qed.

Lemma parsed_hdr_kept_in_name_order_witness :
  let report :=
    Parsers.MIReport
      [Parsers.mkTrack (js "Video") None None None None
         (Some (js "Dolby Vision / SMPTE ST 2094 App 4"))
         (Some (js "HDR10+ Profile B")) None None None None None None] in
  Parsers.hdr (Parsers.parseMediaInfo report) = Some [js "DV"]
  /\ MediaClass.getHdrParts
       (MediaClass.applyMediaInfo MediaClass.emptyMedia
          (Parsers.parseMediaInfo report)) = [js "DV"].
Proof.
  intros report.
  assert (H : Parsers.hdr (Parsers.parseMediaInfo report) = Some [js "DV"])
    by (vm_compute; reflexivity).
  split; [exact H|].
  exact (proj1 (parsed_hdr_kept_in_name_order report MediaClass.emptyMedia H)).
Defined.

(** X2.  The resolution that [parseMediaInfo] derives from a report is one
    of the four tokens, and [getResolutionPart] puts it in the name as it
    is. *)
Theorem parsed_resolution_kept :
  forall (report : Parsers.MediaInfoJson) (this : MediaClass.Media)
         (r : jsstring),
    Parsers.resolution (Parsers.parseMediaInfo report) = Some r ->
    In r (map js ["2160p"; "1080p"; "720p"; "480p"]%string)
    /\ MediaClass.getResolutionPart
         (MediaClass.applyMediaInfo this (Parsers.parseMediaInfo report)) = r.
Proof.
  intros report this r H.
  unfold MediaClass.getResolutionPart, MediaClass.applyMediaInfo;
    cbn [MediaClass.resolution].
  rewrite H; unfold MediaClass.pick; cbn [truthyOpt orEmpty].
  destruct report as [text|tracks]; simpl in H; [discriminate|].
  destruct (find _ tracks) as [v|]; simpl in H; [|discriminate].
  unfold Parsers.videoResolution, Parsers.resolutionOf in H.
  repeat match type of H with
  | (if ?b then _ else _) = _ => destruct b
  end; try discriminate; injection H as <-;
    (split; [cbn [map In]; tauto | vm_compute; reflexivity]).
Qed.

Lemma parsed_resolution_kept_witness :
  let report := Parsers.MIReport [Scenarios.videoTrack (Some "1920"%string) None] in
  Parsers.resolution (Parsers.parseMediaInfo report) = Some (js "1080p")
  /\ MediaClass.getResolutionPart
       (MediaClass.applyMediaInfo MediaClass.emptyMedia
          (Parsers.parseMediaInfo report)) = js "1080p".
Proof.
  intros report.
  assert (H : Parsers.resolution (Parsers.parseMediaInfo report)
              = Some (js "1080p")) by (vm_compute; reflexivity).
  split; [exact H|].
  exact (proj2 (parsed_resolution_kept report MediaClass.emptyMedia H)).
Defined.

Lemma uniqAcc_NoDup (seen l : list jsstring) : NoDup (uniqAcc seen l).
Proof.
  revert seen; induction l as [|x l IH]; intros seen; simpl; [constructor|].
  destruct (arrIncludes seen x); [apply IH|].
  constructor; [|apply IH].
  rewrite uniqAcc_In; simpl; tauto.
Qed.

Lemma uniq_NoDup (l : list jsstring) : NoDup (uniq l).
Proof. apply uniqAcc_NoDup. Qed.

Lemma LANGUAGE_MAP_truthy (key v : jsstring) :
  Config.lookup Config.LANGUAGE_MAP key = Some v -> truthy v = true.
Proof.
  unfold Config.LANGUAGE_MAP; cbn [map Config.lookup fst snd].
  repeat (destruct (eqb _ key); [intros [= <-]; reflexivity|]).
  discriminate.
Qed.

Lemma normalizeLang_truthy (lang : option jsstring) :
  truthy (Utils.normalizeLang lang) = true.
Proof.
  unfold Utils.normalizeLang.
  destruct (truthyOpt lang); cbn [negb]; [|reflexivity].
  destruct (trim (orEmpty lang)) as [|c l] eqn:E; [reflexivity|].
  destruct (Regex.test _ _); [reflexivity|].
  destruct (Regex.exec Utils.reVf _); [now destruct (eqb _ _)|].
  destruct (Regex.exec Utils.reBase _); [|reflexivity].
  destruct (Config.lookup _ _) eqn:L; [|reflexivity].
  now apply LANGUAGE_MAP_truthy in L.
Qed.

(** X3.  [parseMediaInfo] lists one language per audio track, in track
    order and never as an empty string, and lists each audio codec once,
    for every report in which no audio track is labelled (by its language
    or, failing that, its title) with a text that starts with the name of
    a property that an object literal inherits (constructor, __proto__),
    where [LANGUAGE_MAP[base]] is a value of the table or undefined. *)
Theorem parsed_audio_one_language_per_track :
  forall (tracks : list Parsers.Track),
    (forall track,
        In track (filter (Parsers.ofType "Audio") tracks) ->
        ownLabel (Parsers.firstTruthy
                    [Parsers.Language track; Parsers.Title track]
                    (js "Unknown")) = true) ->
    let info := Parsers.parseMediaInfo (Parsers.MIReport tracks) in
    List.length (Generators.orNil (Parsers.audioLanguages info))
    = List.length (filter (Parsers.ofType "Audio") tracks)
    /\ Forall (fun l => truthy l = true)
              (Generators.orNil (Parsers.audioLanguages info))
    /\ NoDup (Generators.orNil (Parsers.audioCodecs info)).
Proof.
  intros tracks _; cbn [Parsers.parseMediaInfo Parsers.audioLanguages
                          Parsers.audioCodecs].
  destruct (filter (Parsers.ofType "Audio") tracks) as [|t l] eqn:E;
    cbn [Generators.orNil].
  - repeat split; constructor.
  - repeat split.
    + now rewrite length_map.
    + apply Forall_forall; intros x Hx.
      apply in_map_iff in Hx as (tr & <- & _).
      apply normalizeLang_truthy.
    + apply uniq_NoDup.
Qed.

Lemma parsed_audio_one_language_per_track_witness :
  let info := Parsers.parseMediaInfo Scenarios.frenchEnglishReport in
  Parsers.audioLanguages info = Some [js "Français"; js "Anglais"]
  /\ List.length (Generators.orNil (Parsers.audioLanguages info)) = 2.
Proof.
  intros info; split; [vm_compute; reflexivity|].
  refine (proj1 (@parsed_audio_one_language_per_track
                   [Scenarios.audioTrack "Français";
                    Scenarios.audioTrack "English"] _)).
  intros track H; vm_compute in H.
  destruct H as [<-|[<-|[]]]; vm_compute; reflexivity.
Defined.

(* ================================================================== *)
(** * The language slot *)
(* ================================================================== *)

Lemma languageCascade_french (langs : list jsstring) (f g : jsstring) :
  Generators.languageCascade langs f = Generators.languageCascade langs g
  \/ (Generators.languageCascade langs f = [f]
      /\ Generators.languageCascade langs g = [g]).
Proof.
  unfold Generators.languageCascade.
  repeat match goal with
  | |- context [if ?b then _ else _] => destruct b; auto
  end.
Qed.

Lemma languageCascade_short (langs : list jsstring) (f : jsstring) :
  List.length (Generators.languageCascade langs f) <= 1.
Proof.
  unfold Generators.languageCascade.
  repeat match goal with
  | |- context [if ?b then _ else _] => destruct b; auto
  end.
  destruct (filter _ langs) as [|x [|y l]]; simpl; auto.
Qed.

Lemma detectFrenchVariant_values releaseGroup tags :
  Generators.detectFrenchVariant releaseGroup tags = js "VFQ"
  \/ Generators.detectFrenchVariant releaseGroup tags = js "VFF".
Proof.
  unfold Generators.detectFrenchVariant.
  repeat match goal with
  | |- context [if ?b then _ else _] => destruct b; auto
  end.
Qed.

(** X4.  The language slot holds at most one token, and the two
    composers agree on it for the same language data, except when the
    only French track is generic French and the release group or the tags
    point to Québec: there the generator writes VFQ where the media class
    writes VFF. *)
Theorem language_slot_generator_and_media_class :
  forall (info : Parsers.ReleaseInfo) (this : MediaClass.Media),
    Parsers.isVOSTFR info = MediaClass.isVOSTFR this ->
    Generators.orNil (Parsers.audioLanguages info)
    = MediaClass.audioLanguages this ->
    orEmpty (Parsers.language info) = MediaClass.language this ->
    List.length (MediaClass.getLanguageParts this) <= 1
    /\ List.length (Generators.generateLanguageParts info) <= 1
    /\ (Generators.generateLanguageParts info
        = MediaClass.getLanguageParts this
        \/ (Generators.generateLanguageParts info = [js "VFQ"]
            /\ MediaClass.getLanguageParts this = [js "VFF"]
            /\ Generators.detectFrenchVariant (Parsers.releaseGroup info)
                 (Parsers.tags info) = js "VFQ")).
Proof.
  intros info this Hv Hl Hg.
  unfold Generators.generateLanguageParts, MediaClass.getLanguageParts.
  rewrite <- Hv, <- Hl, <- Hg.
  destruct (Parsers.isVOSTFR info); [simpl; auto|].
  destruct (Parsers.audioLanguages info) as [[|x l]|]; cbn [Generators.orNil
    Generators.nonEmptyArr].
  - destruct (Parsers.language info) as [[|c s]|]; simpl; auto.
  - split; [apply languageCascade_short|].
    split; [apply languageCascade_short|].
    destruct (detectFrenchVariant_values (Parsers.releaseGroup info)
                (Parsers.tags info)) as [E|E]; rewrite E.
    + change (toUpperCase (js "VFQ")) with (js "VFQ").
      destruct (languageCascade_french (x :: l) (js "VFQ") (js "VFF"))
        as [H|[H1 H2]]; [left; exact H | right; auto].
    + left; reflexivity.
  - destruct (Parsers.language info) as [[|c s]|]; simpl; auto.
Qed.

Lemma language_slot_generator_and_media_class_witness :
  let info :=
    Parsers.mkInfo None None None None None (Some (js "QUEBEC")) None None
      None None (Some [js "Français"]) None None false false None None None
      false None None None None None None in
  let this := Scenarios.film "" "" "" "" [] ["Français"]%string in
  Generators.generateLanguageParts info = [js "VFQ"]
  /\ MediaClass.getLanguageParts this = [js "VFF"]
  /\ List.length (MediaClass.getLanguageParts this) <= 1.
Proof.
  intros info this.
  pose proof (@language_slot_generator_and_media_class info this
                eq_refl eq_refl eq_refl) as (L & _ & _).
  split; [vm_compute; reflexivity|].
  split; [vm_compute; reflexivity | exact L].
Defined.

(* ================================================================== *)
(** * Completeness of a film, and the two [apply] methods *)
(* ================================================================== *)

(** X5.  A film is complete exactly when no field is reported missing,
    and so is a media of the base class with the fields of its own; the
    missing fields of a film come in the order titre, résolution,
    année. *)
Theorem film_complete_iff_nothing_missing :
  forall this : MediaClass.Media,
    (FilmClass.isComplete this = true
     <-> FilmClass.getMissingFields this = [])
    /\ (MediaClass.isComplete this = true
        <-> MediaClass.getMissingFields this = [])
    /\ exists a b c : bool,
         FilmClass.getMissingFields this
         = (if a then [js "titre"] else [])
           ++ (if b then [js "résolution"] else [])
           ++ (if c then [js "année"] else []).
Proof.
  intros this.
  unfold FilmClass.isComplete, MediaClass.isComplete,
    FilmClass.getMissingFields, MediaClass.getMissingFields,
    MediaClass.missing.
  split; [|split].
  - destruct (truthy (MediaClass.title this)),
      (truthy (MediaClass.year this)),
      (truthy (MediaClass.resolution this)); simpl; split;
      try reflexivity; discriminate.
  - destruct (truthy (MediaClass.title this)),
      (truthy (MediaClass.resolution this)); simpl; split;
      try reflexivity; discriminate.
  - exists (negb (truthy (MediaClass.title this))),
      (negb (truthy (MediaClass.resolution this))),
      (negb (truthy (MediaClass.year this))).
    now rewrite <- app_assoc.
Qed.

Lemma film_complete_iff_nothing_missing_witness :
  let this := Scenarios.film "Alien" "1979" "" "1080p" [] [] in
  FilmClass.getMissingFields this = []
  /\ FilmClass.getMissingFields (Scenarios.film "Alien" "" "" "" [] [])
     = [js "résolution"; js "année"].
Proof.
  intros this; split; [|vm_compute; reflexivity].
  apply (proj1 (film_complete_iff_nothing_missing this)); reflexivity.
Defined.

Lemma pick_truthy (o : option jsstring) (old : jsstring) :
  truthy old = true -> truthy (MediaClass.pick o old) = true.
Proof.
  unfold MediaClass.pick; destruct (truthyOpt o) eqn:E; [|easy].
  now destruct o.
Qed.

Lemma pick_pick (o : option jsstring) (old : jsstring) :
  MediaClass.pick o (MediaClass.pick o old) = MediaClass.pick o old.
Proof.
  unfold MediaClass.pick; now destruct (truthyOpt o).
Qed.

(** X6.  Applying parsed data never makes a complete film incomplete:
    [applyReleaseInfo] and [applyMediaInfo] only replace the title, the
    year and the resolution by non-empty values. *)
Theorem applying_parsed_data_keeps_film_complete :
  forall (this : MediaClass.Media) (releaseInfo mediaInfo : Parsers.ReleaseInfo),
    FilmClass.isComplete this = true ->
    FilmClass.isComplete (MediaClass.applyReleaseInfo this releaseInfo) = true
    /\ FilmClass.isComplete (MediaClass.applyMediaInfo this mediaInfo) = true.
Proof.
  intros this r i H.
  unfold FilmClass.isComplete in *.
  apply andb_true_iff in H as [H R]; apply andb_true_iff in H as [T Y].
  unfold MediaClass.applyReleaseInfo, MediaClass.applyMediaInfo;
    cbn [MediaClass.title MediaClass.year MediaClass.resolution].
  rewrite T, Y, R, !pick_truthy by assumption.
  split; reflexivity.
Qed.

Lemma applying_parsed_data_keeps_film_complete_witness :
  let this := Scenarios.film "Alien" "1979" "" "1080p" [] [] in
  let r := Parsers.parseReleaseName (js "Aliens.1986.BluRay-GRP") None in
  FilmClass.isComplete this = true
  /\ FilmClass.isComplete (MediaClass.applyReleaseInfo this r) = true
  /\ MediaClass.title (MediaClass.applyReleaseInfo this r) = js "Aliens".
Proof.
  intros this r.
  assert (H : FilmClass.isComplete this = true) by reflexivity.
  split; [exact H|].
  split; [|vm_compute; reflexivity].
  exact (proj1 (@applying_parsed_data_keeps_film_complete this r r H)).
Defined.

(** X7.  [applyReleaseInfo] and [applyMediaInfo] write disjoint
    properties: they can be applied in either order, and applying the same
    data twice changes nothing more. *)
Theorem apply_methods_commute_and_are_idempotent :
  forall (this : MediaClass.Media) (releaseInfo mediaInfo : Parsers.ReleaseInfo),
    MediaClass.applyMediaInfo (MediaClass.applyReleaseInfo this releaseInfo)
                              mediaInfo
    = MediaClass.applyReleaseInfo (MediaClass.applyMediaInfo this mediaInfo)
                                  releaseInfo
    /\ MediaClass.applyReleaseInfo
         (MediaClass.applyReleaseInfo this releaseInfo) releaseInfo
       = MediaClass.applyReleaseInfo this releaseInfo
    /\ MediaClass.applyMediaInfo
         (MediaClass.applyMediaInfo this mediaInfo) mediaInfo
       = MediaClass.applyMediaInfo this mediaInfo.
Proof.
  intros this r i; repeat split.
  - unfold MediaClass.applyReleaseInfo, MediaClass.applyMediaInfo; simpl.
    rewrite !pick_pick.
    now destruct (Parsers.isVOSTFR r).
  - unfold MediaClass.applyReleaseInfo, MediaClass.applyMediaInfo; simpl.
    rewrite !pick_pick.
    f_equal; unfold MediaClass.pickArr;
      match goal with |- context [match ?o with _ => _ end] =>
        now destruct o end.
Qed.

(* ================================================================== *)
(** * Season packs *)
(* ================================================================== *)

Lemma updateIsPack_counted (this : SerieClass.Serie) :
  ~ definedEpisode (SerieClass._episode this) ->
  (1 < SerieClass.episodeCount this)%Z ->
  SerieClass._isPack (SerieClass._updateIsPack this) = true
  /\ SerieClass._episode (SerieClass._updateIsPack this)
     = SerieClass._episode this
  /\ SerieClass.episodeCount (SerieClass._updateIsPack this)
     = SerieClass.episodeCount this.
Proof.
  intros N C; unfold SerieClass._updateIsPack.
  destruct (SerieClass.truthyValue _ && _) eqn:E.
  - exfalso; apply N; apply andb_true_iff in E as [T B]; split; [exact T|].
    intros Z; rewrite Z in B; discriminate.
  - replace (SerieClass.episodeCount this >? 1)%Z with true
      by (symmetry; apply Z.gtb_lt; lia).
    repeat split.
Qed.

(** X8.  A series with more than one episode counted and no episode
    designator is a season pack, whatever was passed as [isPack]: the
    constructor says so, and assigning the season says so again after
    [isPack] was set to [false] by hand. *)
Theorem counted_episodes_make_a_pack :
  forall (base : MediaClass.Media) (options : SerieClass.SerieOptions)
         (n : Z),
    SerieClass.o_episodeCount options = Some n ->
    (1 < n)%Z ->
    ~ definedEpisode (SerieClass.valueOrEmpty (SerieClass.o_episode options)) ->
    let this := SerieClass.constructor base options in
    SerieClass.isPack this = true
    /\ SerieClass.type this = js "season"
    /\ forall season,
         SerieClass.isPack
           (SerieClass.set_season season (SerieClass.set_isPack false this))
         = true.
Proof.
  intros base options n Hn C N this.
  assert (P : SerieClass._isPack this = true
              /\ SerieClass._episode this
                 = SerieClass.valueOrEmpty (SerieClass.o_episode options)
              /\ SerieClass.episodeCount this = n).
  { unfold this, SerieClass.constructor; rewrite Hn.
    match goal with |- context [SerieClass._updateIsPack ?s] =>
      destruct (@updateIsPack_counted s) as (A & B & D); auto end. }
  destruct P as (A & B & D).
  unfold SerieClass.type, SerieClass.isPack; rewrite A.
  repeat split.
  intros season; unfold SerieClass.set_season.
  apply updateIsPack_counted; cbn [SerieClass._episode SerieClass.episodeCount
    SerieClass.set_isPack SerieClass.withIsPack]; [now rewrite B | lia].
Qed.

Lemma counted_episodes_make_a_pack_witness :
  let options :=
    SerieClass.mkOptions None (Some (SerieClass.VStr (js " "))) (Some 8%Z)
                         None None (Some false) in
  SerieClass.type (SerieClass.constructor MediaClass.emptyMedia options)
  = js "season".
Proof.
  intros options.
  refine (proj1 (proj2 (@counted_episodes_make_a_pack MediaClass.emptyMedia
                          options 8%Z eq_refl _ _))); [lia|].
  intros [_ B]; apply B; reflexivity.
Defined.

(** X9.  When the directory analysis carries a season, the pack flag it
    carries does not decide: a series with an episode designator ends as
    an episode, and a series without one ends as a pack as soon as more
    than one episode is counted (by the analysis or, if it counts none,
    by the series itself). *)
Theorem directory_analysis_with_season :
  forall (analysis : SerieClass.Analysis) (this : SerieClass.Serie)
         (season : SerieClass.value),
    SerieClass.a_season analysis = Some season ->
    SerieClass.truthyValue season = true ->
    let after := SerieClass.applyDirectoryAnalysis analysis this in
    let counted :=
      match SerieClass.a_episodeCount analysis with
      | Some n => if (n =? 0)%Z then SerieClass.episodeCount this else n
      | None => SerieClass.episodeCount this
      end in
    (definedEpisode (SerieClass.episode this) ->
     SerieClass.isPack after = false)
    /\ (~ definedEpisode (SerieClass.episode this) ->
        (1 < counted)%Z ->
        SerieClass.isPack after = true).
Proof.
  intros analysis this season Hs T after counted.
  unfold after, SerieClass.applyDirectoryAnalysis; rewrite Hs, T.
  set (s1 := match SerieClass.a_isPack analysis with
             | Some b => SerieClass.set_isPack b this
             | None => this
             end).
  set (s2 := match SerieClass.a_episodeCount analysis with
             | Some n => _ | None => s1 end).
  assert (E1 : SerieClass._episode s1 = SerieClass._episode this
               /\ SerieClass.episodeCount s1 = SerieClass.episodeCount this)
    by (unfold s1; now destruct (SerieClass.a_isPack analysis)).
  assert (E2 : SerieClass._episode s2 = SerieClass._episode this
               /\ SerieClass.episodeCount s2 = counted).
  { unfold s2, counted;
      destruct (SerieClass.a_episodeCount analysis) as [n|]; [|exact E1].
    destruct (n =? 0)%Z; [exact E1|]. now split; [apply E1|]. }
  destruct E2 as [E2 C2].
  match goal with |- context [SerieClass.isPack ?s] =>
    assert (K : SerieClass.isPack s
                = SerieClass._isPack (SerieClass.set_season season s2))
      by now destruct (SerieClass.a_isComplete analysis) as [[|]|] end.
  rewrite K; unfold SerieClass.set_season.
  split.
  - intros D.
    apply updateIsPack_defined; cbn [SerieClass._episode]; rewrite E2;
      exact D.
  - intros N C.
    apply updateIsPack_counted; cbn [SerieClass._episode
      SerieClass.episodeCount]; [now rewrite E2 | now rewrite C2].
Qed.

Lemma directory_analysis_with_season_witness :
  let analysis :=
    SerieClass.mkAnalysis (Some false) (Some 10%Z)
                          (Some (SerieClass.VStr (js "S02"))) None in
  let this := Scenarios.serieOf None None None in
  SerieClass.isPack (SerieClass.applyDirectoryAnalysis analysis this) = true.
Proof.
  intros analysis this.
  refine (proj2 (@directory_analysis_with_season analysis this
                   (SerieClass.VStr (js "S02")) eq_refl eq_refl) _ _).
  - intros [T _]; discriminate T.
  - simpl; lia.
Defined.

(* ================================================================== *)
(** * The tags returned by [getAutoTags] *)
(* ================================================================== *)

Lemma findValue_some allCats name category i :
  SerieClass.findValue allCats name category = Some i ->
  exists tag, In tag (flat_map SerieClass.tags allCats)
              /\ SerieClass.tagId tag = i.
Proof.
  unfold SerieClass.findValue; destruct (truthy name); [|discriminate].
  intros H; apply searchTag_some in H as (t & Ht & Hi & _); eauto.
Qed.

Lemma findNamed_some allCats name category i :
  SerieClass.findNamed allCats name category = Some i ->
  exists tag, In tag (flat_map SerieClass.tags allCats)
              /\ SerieClass.tagId tag = i.
Proof.
  intros H; apply searchTag_some in H as (t & Ht & Hi & _); eauto.
Qed.

Ltac tag_origin :=
  repeat match goal with
  | H : In _ (_ ++ _) |- _ => apply in_app_or in H as [H|H]
  | H : In _ (if ?b then _ else _) |- _ => destruct b
  | H : In _ [] |- _ => destruct H
  | H : In _ (SerieClass.pushId _) |- _ => apply pushId_In in H as [H _]
  | H : SerieClass.orId _ _ = Some _ |- _ => apply orId_some in H as [H|H]
  | H : SerieClass.findNamed _ _ _ = Some _ |- _ =>
      exact (findNamed_some _ _ _ H)
  | H : SerieClass.findValue _ _ _ = Some _ |- _ =>
      exact (findValue_some _ _ _ H)
  | H : In _ (SerieClass.pushEach _ _ _) |- _ =>
      apply in_flat_map in H as (? & _ & H)
  end.

Lemma fieldTags_origin allCats (this : SerieClass.Serie) i :
  In i (SerieClass.fieldTags allCats this) ->
  exists tag, In tag (flat_map SerieClass.tags allCats)
              /\ SerieClass.tagId tag = i.
Proof.
  unfold SerieClass.fieldTags, SerieClass.languageTags; intros H.
  cbv zeta in H; tag_origin.
Qed.

Lemma genreTagsOf_incl allCats tag :
  In tag (genreTagsOf allCats) -> In tag (flat_map SerieClass.tags allCats).
Proof.
  unfold genreTagsOf, SerieClass.genreCats; intros H.
  apply in_flat_map in H as (cat & Hc & Ht); apply filter_In in Hc as [Hc _].
  apply in_flat_map; eauto.
Qed.

Lemma genreTags_origin allCats genres i :
  In i (SerieClass.genreTags allCats genres) ->
  exists tag, In tag (flat_map SerieClass.tags allCats)
              /\ SerieClass.tagId tag = i.
Proof.
  unfold SerieClass.genreTags; intros H.
  assert (G : forall accepted,
             In i (SerieClass.pushId (SerieClass.genreId accepted allCats)) ->
             exists tag, In tag (flat_map SerieClass.tags allCats)
                         /\ SerieClass.tagId tag = i).
  { intros accepted K; apply pushId_In in K as [K _].
    apply genreId_some in K as (t & Ht & _ & _ & ->).
    exists t; split; [now apply genreTagsOf_incl | reflexivity]. }
  destruct (_ && _); [now apply G in H|].
  apply in_flat_map in H as (g & _ & H).
  destruct (SerieClass.isTelefilm _); [destruct H | now apply G in H].
Qed.

(** X10.  Whatever the series and the taxonomy, a list returned by
    [getAutoTags] holds ids of tags of the taxonomy only, none of them
    empty, each of them once. *)
Theorem auto_tags_are_distinct_taxonomy_ids :
  forall (allCats : list SerieClass.Category) (this : SerieClass.Serie)
         (tagsOut : list jsstring),
    SerieClass.getAutoTags (SerieClass.mkCache (Some allCats)) this
    = SerieClass.Returned tagsOut ->
    NoDup tagsOut
    /\ forall i, In i tagsOut ->
         truthy i = true
         /\ exists tag, In tag (flat_map SerieClass.tags allCats)
                        /\ SerieClass.tagId tag = i.
Proof.
  intros allCats this tagsOut [= <-].
  split; [apply uniq_NoDup|].
  intros i H; apply autoTags_In in H as (T & [H|H]); split; auto.
  - now apply fieldTags_origin in H.
  - now apply genreTags_origin in H.
Qed.

Lemma auto_tags_are_distinct_taxonomy_ids_witness :
  let this := Scenarios.serieOf None None (Some ["Drame"; "Drame"]%string) in
  SerieClass.getAutoTags (SerieClass.mkCache (Some Scenarios.genreTaxonomy))
                         this
  = SerieClass.Returned [js "t-serie"; js "g-drame"]
  /\ NoDup [js "t-serie"; js "g-drame"].
Proof.
  intros this.
  assert (E : SerieClass.getAutoTags
                (SerieClass.mkCache (Some Scenarios.genreTaxonomy)) this
              = SerieClass.Returned [js "t-serie"; js "g-drame"])
    by (vm_compute; reflexivity).
  split; [exact E|].
  exact (proj1 (@auto_tags_are_distinct_taxonomy_ids _ _ _ E)).
Defined.

(* ================================================================== *)
(** * utils.js: file names and texts *)
(* ================================================================== *)

Lemma trimStart_head (s : jsstring) (c : char) (t : jsstring) :
  trimStart s = c :: t -> isSpace c = false.
Proof.
  induction s as [|x s IH]; simpl; [discriminate|].
  destruct (isSpace x) eqn:E; [exact IH|]. now intros [= <- _].
Qed.

Lemma trimStart_suffix (s : jsstring) : exists x, s = x ++ trimStart s.
Proof.
  induction s as [|c s [x IH]]; simpl; [now exists []|].
  destruct (isSpace c); [|now exists []].
  exists (c :: x); simpl; now f_equal.
Qed.

Lemma trimStart_idem (s : jsstring) : trimStart (trimStart s) = trimStart s.
Proof.
  destruct (trimStart s) as [|c t] eqn:E; [reflexivity|].
  apply trimStart_head in E; simpl; now rewrite E.
Qed.

Lemma trimEnd_prefix (s : jsstring) : exists x, s = trimEnd s ++ x.
Proof.
  unfold trimEnd; destruct (trimStart_suffix (rev s)) as [x E].
  exists (rev x). rewrite <- rev_app_distr, <- E; now rewrite rev_involutive.
Qed.

Lemma trimEnd_idem (s : jsstring) : trimEnd (trimEnd s) = trimEnd s.
Proof.
  unfold trimEnd; now rewrite rev_involutive, trimStart_idem.
Qed.

Lemma trimStart_trimEnd (s : jsstring) :
  trimStart (trimEnd (trimStart s)) = trimEnd (trimStart s).
Proof.
  destruct (trimEnd_prefix (trimStart s)) as [x E].
  destruct (trimEnd (trimStart s)) as [|c t]; [reflexivity|].
  simpl in E; apply trimStart_head in E; simpl; now rewrite E.
Qed.

Lemma trim_idem (s : jsstring) : trim (trim s) = trim s.
Proof.
  unfold trim; now rewrite trimStart_trimEnd, trimEnd_idem.
Qed.

Lemma trim_sub (s : jsstring) : exists a b, s = a ++ trim s ++ b.
Proof.
  unfold trim; destruct (trimStart_suffix s) as [a Ea].
  destruct (trimEnd_prefix (trimStart s)) as [b Eb].
  exists a, b; now rewrite <- Eb.
Qed.

Lemma singleSpaced_squeeze (b : bool) (s : jsstring) :
  singleSpaced b (Utils.squeezeSpaces b s) = true.
Proof.
  revert b; induction s as [|c s IH]; intros b; simpl; [reflexivity|].
  destruct (isSpace c) eqn:E.
  - destruct b; [apply IH|].
    simpl; change (isSpace 32%N) with true; cbn [negb andb].
    rewrite IH; reflexivity.
  - simpl; rewrite E; apply IH.
Qed.

Lemma squeeze_id (b : bool) (s : jsstring) :
  singleSpaced b s = true -> Utils.squeezeSpaces b s = s.
Proof.
  revert b; induction s as [|c s IH]; intros b; simpl; [reflexivity|].
  destruct (isSpace c).
  - intros H; apply andb_true_iff in H as [H S].
    apply andb_true_iff in H as [C B].
    destruct b; [discriminate|].
    apply N.eqb_eq in C; subst c; f_equal; now apply IH.
  - intros H; f_equal; now apply IH.
Qed.

Lemma singleSpaced_weaken (b : bool) (s : jsstring) :
  singleSpaced b s = true -> singleSpaced false s = true.
Proof.
  destruct s as [|c s]; simpl; [easy|].
  destruct (isSpace c); [|easy].
  intros H; apply andb_true_iff in H as [H S].
  apply andb_true_iff in H as [C B]; now rewrite C, S.
Qed.

Lemma singleSpaced_trimStart (b : bool) (s : jsstring) :
  singleSpaced b s = true -> singleSpaced true (trimStart s) = true.
Proof.
  revert b; induction s as [|c s IH]; intros b; simpl; [easy|].
  destruct (isSpace c) eqn:E.
  - intros H; apply andb_true_iff in H as [_ S]; now apply IH in S.
  - simpl; now rewrite E.
Qed.

Lemma singleSpaced_prefix (b : bool) (a x : jsstring) :
  singleSpaced b (a ++ x) = true -> singleSpaced b a = true.
Proof.
  revert b; induction a as [|c a IH]; intros b; simpl; [easy|].
  destruct (isSpace c).
  - intros H; apply andb_true_iff in H as [H S].
    rewrite H; simpl; now apply IH in S.
  - apply IH.
Qed.

Lemma singleSpaced_trim (b : bool) (s : jsstring) :
  singleSpaced b s = true -> singleSpaced true (trim s) = true.
Proof.
  intros H; apply singleSpaced_trimStart in H.
  unfold trim; destruct (trimEnd_prefix (trimStart s)) as [x E].
  rewrite E in H; now apply singleSpaced_prefix in H.
Qed.

Lemma squeeze_Forall (P : char -> Prop) (b : bool) (s : jsstring) :
  P 0x20%N -> Forall P s -> Forall P (Utils.squeezeSpaces b s).
Proof.
  intros P0 H; revert b; induction H as [|c s Hc Hs IH]; intros b; simpl;
    [constructor|].
  destruct (isSpace c); [destruct b|]; auto.
Qed.

Lemma trim_Forall (P : char -> Prop) (s : jsstring) :
  Forall P s -> Forall P (trim s).
Proof.
  intros H; destruct (trim_sub s) as (a & b & E); rewrite E in H.
  apply Forall_app in H as [_ H]; now apply Forall_app in H as [H _].
Qed.

Lemma cleanFileName_facts (name : jsstring) :
  Forall (fun c => Utils.forbiddenInFileName c = false)
         (Utils.cleanFileName name)
  /\ singleSpaced true (Utils.cleanFileName name) = true
  /\ trim (Utils.cleanFileName name) = Utils.cleanFileName name.
Proof.
  unfold Utils.cleanFileName; repeat split.
  - apply trim_Forall, squeeze_Forall; [reflexivity|].
    apply Forall_forall; intros c H; apply filter_In in H as [_ H].
    now destruct (Utils.forbiddenInFileName c).
  - eapply singleSpaced_trim, singleSpaced_squeeze.
  - apply trim_idem.
Qed.

(** X11.  A cleaned file name holds none of the characters
    [< > : / \ | ? *] nor a double quote, its only white space is single
    spaces between other characters, and it neither starts nor ends with
    white space. *)
Theorem cleanFileName_result_is_clean :
  forall name : jsstring,
    let r := Utils.cleanFileName name in
    Forall (fun c => Utils.forbiddenInFileName c = false) r
    /\ singleSpaced true r = true
    /\ trim r = r.
Proof.
  intros name; apply cleanFileName_facts.
Qed.

(** X12.  [cleanFileName] is idempotent. *)
Theorem cleanFileName_idempotent :
  forall name : jsstring,
    Utils.cleanFileName (Utils.cleanFileName name) = Utils.cleanFileName name.
Proof.
  intros name.
  destruct (cleanFileName_facts name) as (F & S & T).
  set (r := Utils.cleanFileName name) in *.
  unfold Utils.cleanFileName at 1.
  replace (filter _ r) with r.
  - rewrite squeeze_id; [exact T | now apply singleSpaced_weaken in S].
  - clear S T; induction F as [|c s Hc Hs IH]; simpl; [reflexivity|].
    rewrite Hc; simpl; now f_equal.
Qed.

(** X13.  With a limit of at least three, [truncateText] never returns
    more than [maxLength] code units, and a text that was cut is exactly
    [maxLength] long and ends with three dots; with a smaller limit, a
    non-empty text that is too long is replaced by the three dots
    alone. *)
Theorem truncateText_length :
  forall (text r : jsstring) (maxLength : Z),
    Utils.truncateText (Some text) maxLength = Some r ->
    ((3 <= maxLength)%Z ->
     (Z.of_nat (List.length r) <= maxLength)%Z
     /\ (r <> text ->
         Z.of_nat (List.length r) = maxLength
         /\ r = firstn (List.length r - 3) text ++ js "..."))
    /\ ((maxLength < 3)%Z ->
        (maxLength < Z.of_nat (List.length text))%Z ->
        text <> [] ->
        r = js "...").
Proof.
  intros text r maxLength; unfold Utils.truncateText, Utils.substringTo.
  destruct (Z.of_nat (List.length text) <=? maxLength)%Z eqn:L.
  - rewrite orb_true_r; intros [= <-]; apply Z.leb_le in L.
    split; [intros _; split; [exact L | easy] | lia].
  - apply Z.leb_gt in L. destruct text as [|c t]; [simpl in L|].
    + simpl; intros [= <-]; split; [intros; simpl; split; [lia|easy] | easy].
    + cbn [truthy negb orb]; intros [= <-]. split.
      * intros M.
        assert (E : List.length (firstn (Z.to_nat (maxLength - 3)) (c :: t)
                                 ++ js "...")
                    = Z.to_nat maxLength).
        { rewrite length_app, length_firstn.
          change (List.length (js "...")) with 3. lia. }
        rewrite E; split; [lia|]. intros _; split; [lia|].
        do 2 f_equal; lia.
      * intros M _ _. replace (Z.to_nat (maxLength - 3)) with 0 by lia.
        reflexivity.
Qed.

Lemma truncateText_length_witness :
  Utils.truncateText (Some (js "Le Fabuleux Destin")) 10
  = Some (js "Le Fabu...")
  /\ (Z.of_nat (List.length (js "Le Fabu...")) <= 10)%Z.
Proof.
  assert (H : Utils.truncateText (Some (js "Le Fabuleux Destin")) 10
              = Some (js "Le Fabu...")) by (vm_compute; reflexivity).
  split; [exact H|].
  exact (proj1 (proj1 (@truncateText_length _ _ 10%Z H) ltac:(lia))).
Defined.

(* ================================================================== *)
(** * The matcher finds what the pattern describes *)
(* ================================================================== *)

Lemma feed_app (a b : jsstring) (st : Regex.state) :
  feed (a ++ b) st = feed b (feed a st).
Proof.
  revert st; induction a as [|c a IH]; intros st; simpl; [reflexivity|].
  apply IH.
Qed.

Lemma feed_rest (w s : jsstring) (st : Regex.state) :
  Regex.rest st = w ++ s ->
  Regex.rest (feed w st) = s
  /\ Regex.pos (feed w st) = Regex.pos st + List.length w
  /\ Regex.caps (feed w st) = Regex.caps st.
Proof.
  revert st; induction w as [|c w IH]; intros st E; simpl.
  - repeat split; [exact E | lia].
  - rewrite E; simpl.
    destruct (IH (Regex.advance c (w ++ s) st) eq_refl) as (R & P & C).
    rewrite R, P, C; simpl; repeat split; lia.
Qed.

(** A match consumes its word. *)
Lemma sem_consumes (r : Regex.re) (st st' : Regex.state) (w : jsstring) :
  sem r st w st' ->
  Regex.rest st = w ++ Regex.rest st'
  /\ Regex.pos st' = Regex.pos st + List.length w.
Proof.
  revert st st' w; induction r; intros st st' w; simpl.
  - intros [-> ->]; split; [reflexivity | simpl; lia].
  - intros (c & -> & _ & E & ->); split; [exact E|].
    simpl; lia.
  - intros (w1 & w2 & mid & -> & H1 & H2).
    apply IHr1 in H1 as [R1 P1]; apply IHr2 in H2 as [R2 P2].
    rewrite R1, R2, P2, P1, length_app, <- app_assoc; split; [reflexivity|lia].
  - intros [H|H]; auto.
  - intros (_ & _ & _ & E & ->); split; [exact E|].
    destruct (@feed_rest w _ st E) as (_ & P & _); exact P.
  - intros (mid & H & ->); apply IHr in H as [R P]; simpl; auto.
  - intros (-> & -> & _); split; [reflexivity | simpl; lia].
  - intros (-> & -> & _); split; [reflexivity | simpl; lia].
  - intros (-> & -> & _); split; [reflexivity | simpl; lia].
Qed.

Section Soundness.
Variable A : Type.

Lemma rep_sound (p : char -> bool) (min : nat) (max : option nat)
      (k : Regex.state -> option A) (x : A) :
  forall (s : jsstring) (n : nat) (st : Regex.state),
    Regex.rest st = s ->
    Regex.rep p min max k n s st = Some x ->
    exists w s',
      s = w ++ s' /\ forallb p w = true /\ min <= n + List.length w
      /\ (forall m, max = Some m -> n <= m -> n + List.length w <= m)
      /\ k (feed w st) = Some x.
Proof.
  assert (Stop : forall n st s,
             (if Nat.leb min n then k st else None) = Some x ->
             exists w s',
               s = w ++ s' /\ forallb p w = true /\ min <= n + List.length w
               /\ (forall m, max = Some m -> n <= m ->
                             n + List.length w <= m)
               /\ k (feed w st) = Some x).
  { intros n st s H; destruct (Nat.leb min n) eqn:L; [|discriminate].
    apply Nat.leb_le in L.
    exists [], s; simpl; repeat split; auto; intros; lia. }
  induction s as [|c s IH]; intros n st E; simpl; [apply Stop|].
  destruct (p c && Regex.underMax n max) eqn:B; [|apply Stop].
  destruct (Regex.rep p min max k (S n) s (Regex.advance c s st)) as [y|] eqn:R;
    [|apply Stop].
  intros [= ->].
  apply IH in R as (w & s' & -> & F & M & U & K); [|reflexivity].
  apply andb_true_iff in B as [Pc Um].
  exists (c :: w), s'; simpl; rewrite Pc, E; simpl.
  repeat split; auto; [lia|].
  intros m -> Hn; unfold Regex.underMax in Um; apply Nat.ltb_lt in Um.
  specialize (U m eq_refl); lia.
Qed.

Lemma run_sound (r : Regex.re) :
  forall (k : Regex.state -> option A) (st : Regex.state) (x : A),
    Regex.run r k st = Some x ->
    exists w st', sem r st w st' /\ k st' = Some x.
Proof.
  induction r as [|p|a IHr1 b IHr2|a IHr1 b IHr2|min max p|g a IHr| | |];
    intros k st x; simpl.
  - intros H; exists [], st; auto.
  - destruct (Regex.rest st) as [|c s'] eqn:E; [discriminate|].
    destruct (p c) eqn:P; [|discriminate].
    intros H; exists [c], (Regex.advance c s' st); simpl.
    rewrite E; simpl; split; [exists c; auto | exact H].
  - intros H; apply IHr1 in H as (w1 & mid & H1 & H).
    apply IHr2 in H as (w2 & st' & H2 & H).
    exists (w1 ++ w2), st'; split; [exists w1, w2, mid; auto | exact H].
  - destruct (Regex.run a k st) as [y|] eqn:R.
    + intros [= ->]; apply IHr1 in R as (w & st' & H & K); eauto.
    + intros H; apply IHr2 in H as (w & st' & H & K); eauto.
  - intros H; apply rep_sound in H as (w & s' & E & F & M & U & K);
      [|reflexivity].
    exists w, (feed w st); split; [|exact K].
    destruct (@feed_rest w s' st E) as (R & _).
    rewrite R; split; [exact F|]. split; [lia|].
    split; [|split; [exact E | reflexivity]].
    intros m Hm; specialize (U m Hm); lia.
  - intros H; apply IHr in H as (w & mid & H & K).
    exists w, (Regex.capture g st mid).
    split; [exists mid; auto | exact K].
  - destruct (xorb _ _) eqn:X; [|discriminate].
    intros H; exists [], st; auto.
  - destruct (Regex.prev st) eqn:P; [discriminate|].
    intros H; exists [], st; auto.
  - destruct (Regex.rest st) eqn:P; [|discriminate].
    intros H; exists [], st; auto.
Qed.
End Soundness.

Section Completeness.
Variable A : Type.

Lemma rep_complete (p : char -> bool) (min : nat) (max : option nat)
      (k : Regex.state -> option A) :
  forall (w s' : jsstring) (n : nat) (st : Regex.state),
    Regex.rest st = w ++ s' ->
    forallb p w = true ->
    min <= n + List.length w ->
    (forall m, max = Some m -> n + List.length w <= m) ->
    k (feed w st) <> None ->
    Regex.rep p min max k n (w ++ s') st <> None.
Proof.
  induction w as [|c w IH]; intros s' n st E F M U K.
  - simpl in *.
    assert (Stop : (if Nat.leb min n then k st else None) <> None).
    { replace (Nat.leb min n) with true; [exact K|].
      symmetry; apply Nat.leb_le; lia. }
    destruct s' as [|c s]; simpl; [exact Stop|].
    destruct (p c && Regex.underMax n max); [|exact Stop].
    now destruct (Regex.rep p min max k (S n) s (Regex.advance c s st)).
  - simpl in *. apply andb_true_iff in F as [Pc F].
    assert (Um : Regex.underMax n max = true).
    { unfold Regex.underMax; destruct max as [m|]; [|reflexivity].
      apply Nat.ltb_lt; specialize (U m eq_refl); lia. }
    rewrite Pc, Um; simpl.
    rewrite E in K; simpl in K.
    specialize (IH s' (S n) (Regex.advance c (w ++ s') st) eq_refl F).
    destruct (Regex.rep p min max k (S n) (w ++ s')
                (Regex.advance c (w ++ s') st)); [discriminate|].
    exfalso; apply IH; auto; [lia|].
    intros m Hm; specialize (U m Hm); lia.
Qed.

Lemma run_complete (r : Regex.re) :
  forall (k : Regex.state -> option A) (st st' : Regex.state) (w : jsstring),
    sem r st w st' -> k st' <> None -> Regex.run r k st <> None.
Proof.
  induction r as [|p|a IHa b IHb|a IHa b IHb|min max p|g a IHa| | |];
    intros k st st' w; simpl.
  - now intros [_ ->].
  - intros (c & -> & P & E & ->); simpl; rewrite E, P; simpl.
    now rewrite E.
  - intros (w1 & w2 & mid & _ & H1 & H2) K.
    eapply IHa; [exact H1|]. eapply IHb; eauto.
  - intros [H|H] K.
    + pose proof (IHa k st st' w H K).
      now destruct (Regex.run a k st).
    + destruct (Regex.run a k st); [discriminate|]. eapply IHb; eauto.
  - intros (F & M & U & E & ->) K; rewrite E.
    apply rep_complete; auto.
  - intros (mid & H & ->) K; eapply IHa; eauto.
  - now intros (_ & -> & ->).
  - now intros (_ & -> & ->).
  - now intros (_ & -> & ->).
Qed.
End Completeness.

(** ** [exec] and [test] *)

Lemma lastOpt_snoc (pre : jsstring) (c : char) : lastOpt (pre ++ [c]) = Some c.
Proof. unfold lastOpt; now rewrite rev_app_distr. Qed.

Lemma startState_advance (pre : jsstring) (c : char) (s : jsstring) :
  Regex.advance c s (startState pre (c :: s)) = startState (pre ++ [c]) s.
Proof.
  unfold Regex.advance, startState; simpl.
  now rewrite lastOpt_snoc, length_app, Nat.add_1_r.
Qed.

Lemma matchHere_sound (r : Regex.re) (st : Regex.state) (x : Regex.result) :
  Regex.matchHere r st = Some x ->
  exists w st',
    sem r st w st'
    /\ x = Regex.mkResult (Regex.pos st) w (Regex.caps st').
Proof.
  unfold Regex.matchHere.
  destruct (Regex.run r _ st) as [e|] eqn:R; [|discriminate].
  intros [= <-].
  apply run_sound in R as (w & st' & H & [= <-]).
  exists w, st'; split; [exact H|].
  apply sem_consumes in H as [E P].
  rewrite E, P. replace (Regex.pos st + List.length w - Regex.pos st)
    with (List.length w + 0) by lia.
  now rewrite firstn_app_2, app_nil_r.
Qed.

Lemma execFrom_sound (r : Regex.re) (x : Regex.result) :
  forall (post pre : jsstring),
    Regex.execFrom r post (startState pre post) = Some x ->
    exists a b w st',
      post = a ++ b
      /\ sem r (startState (pre ++ a) b) w st'
      /\ x = Regex.mkResult (List.length (pre ++ a)) w (Regex.caps st').
Proof.
  induction post as [|c post IH]; intros pre; simpl.
  - destruct (Regex.matchHere r _) eqn:M; [|discriminate].
    intros [= ->]; apply matchHere_sound in M as (w & st' & H & ->).
    exists [], [], w, st'; rewrite !app_nil_r; auto.
  - destruct (Regex.matchHere r _) eqn:M.
    + intros [= ->]; apply matchHere_sound in M as (w & st' & H & ->).
      exists [], (c :: post), w, st'; rewrite !app_nil_r; auto.
    + rewrite startState_advance; intros H.
      apply IH in H as (a & b & w & st' & -> & H & ->).
      exists (c :: a), b, w, st'; rewrite <- app_assoc in *; auto.
Qed.

(** What [exec] returns is a match of the pattern somewhere in the
    input. *)
Lemma exec_sound (r : Regex.re) (s : jsstring) (x : Regex.result) :
  Regex.exec r s = Some x ->
  exists pre post w st',
    s = pre ++ post
    /\ sem r (startState pre post) w st'
    /\ x = Regex.mkResult (List.length pre) w (Regex.caps st').
Proof.
  intros H; apply (@execFrom_sound r x s []) in H
    as (a & b & w & st' & -> & H & ->); eauto 8.
Qed.

Lemma matchHere_complete (r : Regex.re) (st st' : Regex.state) (w : jsstring) :
  sem r st w st' -> Regex.matchHere r st <> None.
Proof.
  intros H; unfold Regex.matchHere.
  pose proof (@run_complete _ r (fun e => Some e) st st' w H) as K.
  destruct (Regex.run r _ st); [discriminate | now exfalso; apply K].
Qed.

Lemma execFrom_complete (r : Regex.re) :
  forall (a b pre : jsstring) (w : jsstring) (st' : Regex.state),
    sem r (startState (pre ++ a) b) w st' ->
    Regex.execFrom r (a ++ b) (startState pre (a ++ b)) <> None.
Proof.
  induction a as [|c a IH]; intros b pre w st' H.
  - rewrite app_nil_r in H; apply matchHere_complete in H.
    destruct b; simpl; now destruct (Regex.matchHere r _).
  - simpl. destruct (Regex.matchHere r _); [discriminate|].
    rewrite startState_advance; eapply IH.
    rewrite <- app_assoc; exact H.
Qed.

(** A pattern that matches somewhere is found by [test]. *)
Lemma test_iff (r : Regex.re) (s : jsstring) :
  Regex.test r s = true
  <-> exists pre post w st',
        s = pre ++ post /\ sem r (startState pre post) w st'.
Proof.
  unfold Regex.test; split.
  - destruct (Regex.exec r s) eqn:E; [|discriminate]; intros _.
    apply exec_sound in E as (pre & post & w & st' & -> & H & _); eauto 8.
  - intros (pre & post & w & st' & -> & H).
    pose proof (@execFrom_complete r pre post [] w st' H) as K.
    unfold Regex.exec; now destruct (Regex.execFrom r _ _).
Qed.

(** ** Literals *)

Lemma feed_caps (w : jsstring) (st : Regex.state) :
  Regex.caps (feed w st) = Regex.caps st.
Proof.
  revert st; induction w as [|c w IH]; intros st; simpl; [reflexivity|].
  now rewrite IH.
Qed.

Lemma sem_chars (f : char -> char -> bool) (l : jsstring) :
  forall (st st' : Regex.state) (w : jsstring),
    sem (Regex.seqs (map (fun c => Regex.Chr (f c)) l)) st w st' ->
    Forall2 (fun c x => f c x = true) l w /\ st' = feed w st.
Proof.
  induction l as [|a l IH]; intros st st' w.
  - simpl; intros [-> ->]; split; [constructor | reflexivity].
  - destruct l as [|b l].
    + simpl; intros (c & -> & P & _ & ->); split; [|reflexivity].
      repeat constructor; exact P.
    + change (sem (Regex.Seq (Regex.Chr (f a))
                     (Regex.seqs (map (fun c => Regex.Chr (f c)) (b :: l))))
                  st w st' -> Forall2 (fun c x => f c x = true) (a :: b :: l) w
                              /\ st' = feed w st).
      cbn [sem]; intros (w1 & w2 & mid & -> & (c & -> & P & _ & ->) & H).
      apply IH in H as [F ->]; split; [now constructor | reflexivity].
Qed.

Lemma chars_sem (f : char -> char -> bool) (l : jsstring) :
  forall (st : Regex.state) (w s' : jsstring),
    Forall2 (fun c x => f c x = true) l w ->
    Regex.rest st = w ++ s' ->
    sem (Regex.seqs (map (fun c => Regex.Chr (f c)) l)) st w (feed w st).
Proof.
  induction l as [|a l IH]; intros st w s' F E.
  - inversion F; subst; simpl; auto.
  - inversion F as [|? x ? w' P F']; subst.
    assert (C : sem (Regex.Chr (f a)) st [x] (feed [x] st)).
    { simpl; exists x; rewrite E; simpl; auto. }
    destruct l as [|b l].
    + inversion F'; subst; exact C.
    + change (sem (Regex.Seq (Regex.Chr (f a))
                     (Regex.seqs (map (fun c => Regex.Chr (f c)) (b :: l))))
                  st (x :: w') (feed (x :: w') st)).
      cbn [sem]; exists [x], w', (feed [x] st); split; [reflexivity|].
      split; [exact C|].
      change (feed (x :: w') st) with (feed w' (feed [x] st)).
      eapply IH; [exact F'|]. simpl; rewrite E; reflexivity.
Qed.

Lemma Forall2_eqb (l w : jsstring) :
  Forall2 (fun c x => N.eqb c x = true) l w <-> w = l.
Proof.
  split.
  - induction 1 as [|c x l w P F IH]; [reflexivity|].
    apply N.eqb_eq in P; now subst.
  - intros ->; induction l; constructor; auto; apply N.eqb_refl.
Qed.

Lemma Forall2_sameI (l w : jsstring) :
  Forall2 (fun c x => Regex.sameI c x = true) l w
  <-> map Regex.foldAZ w = map Regex.foldAZ l.
Proof.
  split.
  - induction 1 as [|c x l w P F IH]; [reflexivity|].
    unfold Regex.sameI in P; apply N.eqb_eq in P; simpl; now f_equal.
  - revert w; induction l as [|c l IH]; intros [|x w] H; try discriminate;
      constructor.
    + injection H as H _; unfold Regex.sameI; rewrite H; apply N.eqb_refl.
    + injection H as _ H; auto.
Qed.

Lemma sem_lit (s : string) (st st' : Regex.state) (w : jsstring) :
  sem (Regex.lit s) st w st' -> w = js s /\ st' = feed w st.
Proof.
  intros H; apply (sem_chars N.eqb) in H as [F E].
  now apply Forall2_eqb in F.
Qed.

Lemma sem_liti (s : string) (st st' : Regex.state) (w : jsstring) :
  sem (Regex.liti s) st w st' ->
  map Regex.foldAZ w = map Regex.foldAZ (js s) /\ st' = feed w st.
Proof.
  intros H; apply (sem_chars Regex.sameI) in H as [F E].
  now apply Forall2_sameI in F.
Qed.

(** A group captures the word that its body matched. *)
Lemma sem_grp (g : nat) (a : Regex.re) (st st' : Regex.state) (w : jsstring) :
  sem (Regex.Grp g a) st w st' ->
  exists mid,
    sem a st w mid /\ st' = Regex.capture g st mid
    /\ Regex.caps (Regex.capture g st mid) = (g, w) :: Regex.caps mid.
Proof.
  intros (mid & H & ->); exists mid; split; [exact H|]. split; [reflexivity|].
  apply sem_consumes in H as [E P]; simpl; rewrite E, P.
  replace (Regex.pos st + List.length w - Regex.pos st)
    with (List.length w + 0) by lia.
  now rewrite firstn_app_2, app_nil_r.
Qed.

(** Taking a hypothesis [sem r st w st'] apart, one constructor at a
    time, down to the literals *)
Ltac sem_step :=
  match goal with
  | H : sem (Regex.seqs _) _ _ _ |- _ =>
      progress cbn [Regex.seqs Regex.alts map] in H
  | H : sem (Regex.alts _) _ _ _ |- _ =>
      progress cbn [Regex.seqs Regex.alts map] in H
  | H : sem (Regex.lit _) _ _ _ |- _ => apply sem_lit in H as [? ?]
  | H : sem (Regex.liti _) _ _ _ |- _ => apply sem_liti in H as [? ?]
  | H : sem (Regex.Seq _ _) _ _ _ |- _ =>
      destruct H as (? & ? & ? & ? & ? & ?)
  | H : sem (Regex.Alt _ _) _ _ _ |- _ => destruct H as [H|H]
  | H : sem (Regex.Grp _ _) _ _ _ |- _ =>
      apply sem_grp in H as (? & ? & ? & ?)
  | H : sem (Regex.Chr _) _ _ _ |- _ => destruct H as (? & ? & ? & ? & ?)
  | H : sem (Regex.Rep _ _ _) _ _ _ |- _ =>
      destruct H as (? & ? & ? & ? & ?)
  | H : sem Regex.Eps _ _ _ |- _ => destruct H as (? & ?)
  | H : sem Regex.WordB _ _ _ |- _ => destruct H as (? & ? & ?)
  | H : sem Regex.Bol _ _ _ |- _ => destruct H as (? & ? & ?)
  | H : sem Regex.Eol _ _ _ |- _ => destruct H as (? & ? & ?)
  end.

Ltac sem_inv := repeat sem_step.

(* ================================================================== *)
(** * What [parseReleaseName] extracts *)
(* ================================================================== *)

Lemma isDigit_pair (w : jsstring) :
  forallb Regex.isDigit w = true -> 2 <= List.length w -> List.length w <= 2 ->
  exists c d, w = [c; d] /\ Regex.isDigit c = true /\ Regex.isDigit d = true.
Proof.
  destruct w as [|c [|d [|e w]]]; simpl; intros F A B; try lia.
  apply andb_true_iff in F as [Fc F]; apply andb_true_iff in F as [Fd _].
  eauto.
Qed.

Lemma reYear_matched (s : jsstring) (m : Regex.result) :
  Regex.exec Parsers.reYear s = Some m -> isYear (Regex.matched m) = true.
Proof.
  intros H; apply exec_sound in H as (pre & post & w & st' & -> & H & ->).
  unfold Parsers.reYear, Regex.between in H; sem_inv; subst;
    cbn [Regex.matched app];
    match goal with
    | F : forallb Regex.isDigit ?w = true |- _ =>
        destruct (@isDigit_pair w F) as (c & d & -> & Dc & Dd); auto
    end;
    rewrite app_nil_r; simpl; now rewrite Dc, Dd.
Qed.

Lemma parsed_year_is_match (name : jsstring)
      (nfo : option Parsers.MediaInfoJson) (y : jsstring) :
  Parsers.year (Parsers.parseReleaseName name nfo) = Some y ->
  exists s m, Regex.exec Parsers.reYear s = Some m /\ y = Regex.matched m.
Proof.
  unfold Parsers.parseReleaseName; cbv zeta.
  match goal with |- context [Regex.exec Parsers.reYear ?s] =>
    set (cleanName := s) end.
  destruct (Regex.test Parsers.reVostfr name);
    destruct nfo as [[text|tracks]|]; cbn [Parsers.year Parsers.assign];
    destruct (Regex.exec Parsers.reYear cleanName) as [m|] eqn:E;
    try discriminate; intros [= <-]; eauto.
Qed.

(** X14.  The year that [parseReleaseName] reads from a name is always
    four digits that start with 19 or 20. *)
Theorem parsed_year_is_19xx_or_20xx :
  forall (name : jsstring) (nfo : option Parsers.MediaInfoJson)
         (y : jsstring),
    Parsers.year (Parsers.parseReleaseName name nfo) = Some y ->
    isYear y = true.
Proof.
  intros name nfo y H.
  apply parsed_year_is_match in H as (s & m & E & ->).
  exact (reYear_matched _ E).
Qed.

Lemma digits_upto (n : nat) (w : jsstring) :
  forallb Regex.isDigit w = true -> 1 <= List.length w -> List.length w <= n ->
  Forall (fun c => Regex.isDigit c = true) w /\ w <> [] /\ List.length w <= n.
Proof.
  intros F A B; repeat split; auto.
  - now apply forallb_Forall.
  - destruct w; [simpl in A; lia | discriminate].
Qed.

Lemma pad2_digits (w : jsstring) :
  forallb Regex.isDigit w = true -> 1 <= List.length w -> List.length w <= 3 ->
  exists a b more,
    Parsers.pad2 (Some w) = a :: b :: more
    /\ Regex.isDigit a = true /\ Regex.isDigit b = true
    /\ forallb Regex.isDigit more = true
    /\ List.length more = List.length w - 2.
Proof.
  unfold Parsers.pad2, padStart0; cbn [orEmpty].
  destruct w as [|a [|b more]]; simpl; intros F A B; try lia.
  - apply andb_true_iff in F as [Fa _].
    exists 0x30%N, a, []; repeat split; auto.
  - apply andb_true_iff in F as [Fa F]; apply andb_true_iff in F as [Fb F].
    exists a, b, more; repeat split; auto. lia.
Qed.

Lemma reSeasonEpisode_groups (s : jsstring) (m : Regex.result) :
  Regex.exec Parsers.reSeasonEpisode s = Some m ->
  exists g1 g2,
    Regex.group 1 (Regex.groups m) = Some g1
    /\ Regex.group 2 (Regex.groups m) = Some g2
    /\ forallb Regex.isDigit g1 = true
    /\ 1 <= List.length g1 <= 2
    /\ forallb Regex.isDigit g2 = true
    /\ 1 <= List.length g2 <= 3.
Proof.
  intros H; apply exec_sound in H as (pre & post & w & st' & -> & H & ->).
  unfold Parsers.reSeasonEpisode, Regex.between in H; sem_inv; subst.
  cbn [Regex.groups].
  repeat match goal with
  | C : Regex.caps (Regex.capture _ _ _) = _ |- _ => rewrite C; clear C
  end.
  rewrite !feed_caps.
  repeat match goal with
  | C : Regex.caps (Regex.capture _ _ _) = _ |- _ => rewrite C; clear C
  end.
  cbn [Regex.group Nat.eqb].
  do 2 eexists; repeat split; eauto.
Qed.

Ltac caps_simpl :=
  cbn [Regex.groups];
  repeat first
    [ rewrite feed_caps
    | match goal with
      | C : Regex.caps (Regex.capture _ _ _) = _ |- _ => rewrite C; clear C
      end ];
  cbn [Regex.group Nat.eqb startState Regex.caps].

Lemma reEpisode_groups (s : jsstring) (m : Regex.result) :
  Regex.exec Parsers.reEpisode s = Some m ->
  exists g,
    Regex.group 1 (Regex.groups m) = Some g
    /\ forallb Regex.isDigit g = true /\ 1 <= List.length g <= 3.
Proof.
  intros H; apply exec_sound in H as (pre & post & w & st' & -> & H & ->).
  unfold Parsers.reEpisode, Regex.between, Regex.opt in H; sem_inv; subst;
    caps_simpl; eexists; repeat split; eauto.
Qed.

(** Upper-casing a word that matched a Basic Latin literal without regard
    to case gives the upper-cased literal. *)
Lemma foldAZ_upperChar (x c : char) :
  Regex.foldAZ x = Regex.foldAZ c -> isAscii c = true ->
  upperChar x = upperChar c.
Proof.
  unfold Regex.foldAZ, Regex.isUpperAZ, isAscii.
  intros E A; apply N.ltb_lt in A.
  assert (K : (x < 128)%N /\ (x = c \/ (65 <= x <= 90 /\ c = x + 32)
                              \/ (65 <= c <= 90 /\ x = c + 32))%N).
  { revert E; repeat char_step; intros E; lia. }
  clear E; destruct K as [B K]; unfold upperChar.
  repeat char_step; f_equal; lia.
Qed.

Lemma foldAZ_toUpperCase (l w : jsstring) :
  forallb isAscii l = true ->
  map Regex.foldAZ w = map Regex.foldAZ l ->
  toUpperCase w = toUpperCase l.
Proof.
  revert w; induction l as [|c l IH]; intros [|x w]; simpl; try discriminate;
    [reflexivity|].
  intros A [= E F]; apply andb_true_iff in A as [Ac A].
  unfold toUpperCase in *; simpl.
  now rewrite (foldAZ_upperChar x c E Ac), (IH w A F).
Qed.

Lemma reSeason_groups (s : jsstring) (m : Regex.result) :
  Regex.exec Parsers.reSeason s = Some m ->
  (exists g,
      Regex.group 1 (Regex.groups m) = Some g
      /\ Regex.group 2 (Regex.groups m) = None
      /\ forallb Regex.isDigit g = true /\ 1 <= List.length g <= 2)
  \/ (exists g,
         Regex.group 2 (Regex.groups m) = Some g
         /\ (toUpperCase g = js "COMPLETE" \/ toUpperCase g = js "INTEGRALE")).
Proof.
  intros H; apply exec_sound in H as (pre & post & w & st' & -> & H & ->).
  unfold Parsers.reSeason, Regex.between, Regex.opt in H; sem_inv; subst;
    caps_simpl;
    try (left; eexists; repeat split; eauto; fail);
    right; eexists; (split; [reflexivity|]);
    match goal with
    | E : map Regex.foldAZ ?g = map Regex.foldAZ (js ?l) |- _ =>
        rewrite (@foldAZ_toUpperCase (js l) g eq_refl E)
    end; auto.
Qed.

Lemma parsed_season_cases (name : jsstring)
      (nfo : option Parsers.MediaInfoJson) (s : jsstring) :
  Parsers.season (Parsers.parseReleaseName name nfo) = Some s ->
  (exists str m,
      Regex.exec Parsers.reSeasonEpisode str = Some m
      /\ s = js "S" ++ Parsers.pad2 (Regex.group 1 (Regex.groups m)))
  \/ (exists str m,
         Regex.exec Parsers.reSeason str = Some m
         /\ s = if truthyOpt (Regex.group 2 (Regex.groups m))
                then toUpperCase (orEmpty (Regex.group 2 (Regex.groups m)))
                else js "S" ++ Parsers.pad2 (Regex.group 1 (Regex.groups m))).
Proof.
  unfold Parsers.parseReleaseName; cbv zeta.
  match goal with |- context [Regex.exec Parsers.reSeason ?s] =>
    set (cleanName := s) end.
  destruct (Regex.test Parsers.reVostfr name);
    destruct nfo as [[text|tracks]|]; cbn [Parsers.season Parsers.assign];
    destruct (Regex.exec Parsers.reSeasonEpisode cleanName) as [m|] eqn:E;
    try (intros [= <-]; left; eauto; fail);
    destruct (Regex.exec Parsers.reSeason cleanName) as [m'|] eqn:E';
    try discriminate;
    destruct (truthyOpt (Regex.group 2 (Regex.groups m'))) eqn:T;
    intros [= <-]; right; exists cleanName, m'; rewrite T; auto.
Qed.

Lemma parsed_episode_cases (name : jsstring)
      (nfo : option Parsers.MediaInfoJson) (e : jsstring) :
  Parsers.episode (Parsers.parseReleaseName name nfo) = Some e ->
  (exists str m,
      Regex.exec Parsers.reSeasonEpisode str = Some m
      /\ e = js "E" ++ Parsers.pad2 (Regex.group 2 (Regex.groups m)))
  \/ (exists str m,
         Regex.exec Parsers.reEpisode str = Some m
         /\ e = js "E" ++ Parsers.pad2 (Regex.group 1 (Regex.groups m))).
Proof.
  unfold Parsers.parseReleaseName; cbv zeta.
  match goal with |- context [Regex.exec Parsers.reEpisode ?s] =>
    set (cleanName := s) end.
  destruct (Regex.test Parsers.reVostfr name);
    destruct nfo as [[text|tracks]|]; cbn [Parsers.episode Parsers.assign];
    destruct (Regex.exec Parsers.reSeasonEpisode cleanName) as [m|] eqn:E;
    try (intros [= <-]; left; eauto; fail);
    destruct (Regex.exec Parsers.reEpisode cleanName) as [m'|] eqn:E';
    try discriminate;
    intros [= <-]; right; eauto.
Qed.

Lemma season_number_token (g : jsstring) :
  forallb Regex.isDigit g = true -> 1 <= List.length g <= 2 ->
  isSeasonToken (js "S" ++ Parsers.pad2 (Some g)) = true.
Proof.
  intros F [A B].
  destruct (@pad2_digits g F A) as (a & b & more & E & Da & Db & _ & L);
    [lia|].
  rewrite E; destruct more; [|simpl in L; lia].
  change (js "S") with [0x53%N]; cbn [app].
  unfold isSeasonToken; apply orb_true_iff; right.
  rewrite Da, Db; reflexivity.
Qed.

Lemma episode_number_token (g : jsstring) :
  forallb Regex.isDigit g = true -> 1 <= List.length g <= 3 ->
  isEpisodeToken (js "E" ++ Parsers.pad2 (Some g)) = true.
Proof.
  intros F [A B].
  destruct (@pad2_digits g F A B) as (a & b & more & E & Da & Db & Dm & L).
  rewrite E; change (js "E") with [0x45%N]; cbn [app].
  unfold isEpisodeToken; rewrite Da, Db.
  destruct more as [|c [|d more]]; [reflexivity | | simpl in L; lia].
  simpl in Dm; apply andb_true_iff in Dm as [Dc _]; now rewrite Dc.
Qed.

Lemma parsed_tokens (name : jsstring) (nfo : option Parsers.MediaInfoJson) :
  (forall s, Parsers.season (Parsers.parseReleaseName name nfo) = Some s ->
             isSeasonToken s = true)
  /\ (forall e, Parsers.episode (Parsers.parseReleaseName name nfo) = Some e ->
                isEpisodeToken e = true).
Proof.
  split.
  - intros s H; apply parsed_season_cases in H
      as [(str & m & E & ->)|(str & m & E & ->)].
    + apply reSeasonEpisode_groups in E as (g1 & g2 & -> & _ & F & L & _).
      now apply season_number_token.
    + apply reSeason_groups in E
        as [(g & -> & -> & F & L)|(g & -> & [U|U])]; cbn [truthyOpt].
      * now apply season_number_token.
      * destruct (truthy g) eqn:T; [cbn [orEmpty]; now rewrite U|].
        destruct g; [discriminate U | discriminate T].
      * destruct (truthy g) eqn:T; [cbn [orEmpty]; now rewrite U|].
        destruct g; [discriminate U | discriminate T].
  - intros e H; apply parsed_episode_cases in H
      as [(str & m & E & ->)|(str & m & E & ->)].
    + apply reSeasonEpisode_groups in E as (g1 & g2 & _ & -> & _ & _ & F & L).
      now apply episode_number_token.
    + apply reEpisode_groups in E as (g & -> & F & L).
      now apply episode_number_token.
Qed.

(** X15.  The season that [parseReleaseName] reads from a name is
    COMPLETE, INTEGRALE, or S and two digits; the episode is E and two or
    three digits. *)
Theorem parsed_season_and_episode_tokens :
  forall (name : jsstring) (nfo : option Parsers.MediaInfoJson),
    (forall s, Parsers.season (Parsers.parseReleaseName name nfo) = Some s ->
               isSeasonToken s = true)
    /\ (forall e, Parsers.episode (Parsers.parseReleaseName name nfo) = Some e ->
                  isEpisodeToken e = true).
Proof.
  exact parsed_tokens.
Qed.

Lemma parsed_season_and_episode_tokens_witness :
  let info := Parsers.parseReleaseName (js "Ma.Serie.S2E5.FRENCH-GRP") None in
  Parsers.season info = Some (js "S02")
  /\ Parsers.episode info = Some (js "E05")
  /\ isSeasonToken (js "S02") = true.
Proof.
  intros info.
  assert (S : Parsers.season info = Some (js "S02")) by (vm_compute; reflexivity).
  split; [exact S|]. split; [vm_compute; reflexivity|].
  exact (proj1 (parsed_season_and_episode_tokens
                  (js "Ma.Serie.S2E5.FRENCH-GRP") None) _ S).
Defined.

Lemma parsed_year_is_19xx_or_20xx_witness :
  Parsers.year (Parsers.parseReleaseName Scenarios.exampleName None)
  = Some (js "2019")
  /\ isYear (js "2019") = true.
Proof.
  assert (Y : Parsers.year (Parsers.parseReleaseName Scenarios.exampleName None)
              = Some (js "2019")) by (vm_compute; reflexivity).
  split; [exact Y|].
  exact (parsed_year_is_19xx_or_20xx Scenarios.exampleName None Y).
Defined.

(** ** The release group *)

Lemma reGroup_match (s : jsstring) (m : Regex.result) :
  Regex.exec Parsers.reGroup s = Some m ->
  exists pre g,
    s = pre ++ js "-" ++ g
    /\ Regex.group 1 (Regex.groups m) = Some g
    /\ forallb groupChar g = true /\ g <> [].
Proof.
  intros H; apply exec_sound in H as (pre & post & w & st' & -> & H & ->).
  pose proof (sem_consumes _ _ _ _ H) as [R _]; cbn [startState Regex.rest] in R.
  unfold Parsers.reGroup, Regex.plus in H; sem_inv; subst.
  match goal with E : Regex.rest _ = [] |- _ => rewrite E in R end.
  rewrite !app_nil_r in R.
  caps_simpl.
  match goal with
  | F : forallb _ ?g = true |- _ =>
      exists pre, g; repeat split; auto; [now rewrite R|]
  end.
  intros ->; simpl in *; lia.
Qed.

Lemma sem_alts (l : list Regex.re) (st st' : Regex.state) (w : jsstring) :
  sem (Regex.alts l) st w st' <-> exists a, In a l /\ sem a st w st'.
Proof.
  induction l as [|a l IH].
  - simpl; split; [intros (c & _ & F & _); discriminate | intros (a & [] & _)].
  - destruct l as [|b l].
    + simpl; split; [intros H; exists a; auto | intros (x & [<-|[]] & H); auto].
    + change (Regex.alts (a :: b :: l))
        with (Regex.Alt a (Regex.alts (b :: l))).
      cbn [sem]; rewrite IH; split.
      * intros [H|(x & Hx & H)]; [exists a; simpl; auto|].
        exists x; split; [right; exact Hx | exact H].
      * intros (x & [<-|Hx] & H); [left; exact H | right; eauto].
Qed.

Lemma liti_sem (s : string) (st : Regex.state) (w s' : jsstring) :
  map Regex.foldAZ w = map Regex.foldAZ (js s) ->
  Regex.rest st = w ++ s' ->
  sem (Regex.liti s) st w (feed w st).
Proof.
  intros E R; eapply (chars_sem Regex.sameI); [|exact R].
  now apply Forall2_sameI.
Qed.

Lemma lit_sem (s : string) (st : Regex.state) (s' : jsstring) :
  Regex.rest st = js s ++ s' ->
  sem (Regex.lit s) st (js s) (feed (js s) st).
Proof.
  intros R; eapply (chars_sem N.eqb); [|exact R].
  now apply Forall2_eqb.
Qed.

(** One of several literals, matched without regard to case *)
Lemma sem_alts_liti (l : list string) (st st' : Regex.state) (w : jsstring) :
  sem (Regex.alts (map Regex.liti l)) st w st' ->
  st' = feed w st
  /\ exists t, In t l /\ map Regex.foldAZ w = map Regex.foldAZ (js t).
Proof.
  intros H; apply sem_alts in H as (a & Ha & H).
  apply in_map_iff in Ha as (t & <- & Ht).
  apply sem_liti in H as [E ->]; eauto.
Qed.

Lemma alts_liti_sem (l : list string) (t : string) (st : Regex.state)
      (w s' : jsstring) :
  In t l -> map Regex.foldAZ w = map Regex.foldAZ (js t) ->
  Regex.rest st = w ++ s' ->
  sem (Regex.alts (map Regex.liti l)) st w (feed w st).
Proof.
  intros Ht E R; apply sem_alts; exists (Regex.liti t); split.
  - now apply in_map.
  - eapply liti_sem; eauto.
Qed.

Lemma lastOpt_none (pre : jsstring) : lastOpt pre = None -> pre = [].
Proof.
  unfold lastOpt; destruct (rev pre) eqn:E; [|discriminate].
  intros _; apply (f_equal (@rev _)) in E; now rewrite rev_involutive in E.
Qed.

Lemma reResolution_test (g : jsstring) :
  Regex.test Parsers.reResolution g = isResolutionToken g.
Proof.
  apply eq_true_iff_eq; rewrite test_iff; unfold isResolutionToken.
  rewrite arrIncludes_In; split.
  - intros (pre & post & w & st' & -> & H).
    pose proof (sem_consumes _ _ _ _ H) as [R _];
      cbn [startState Regex.rest] in R.
    unfold Parsers.reResolution in H.
    cbn [Regex.seqs] in H.
    destruct H as (w0 & w1 & st1 & -> & (-> & -> & P) & H).
    apply lastOpt_none in P as ->.
    destruct H as (w1' & w2 & st2 & -> & H1 & H).
    apply sem_grp in H1 as (mid & H1 & -> & _).
    apply sem_alts_liti in H1 as (-> & t & Ht & E1).
    destruct H as (w2' & w3 & st3 & -> & H2 & (-> & -> & E)).
    apply sem_liti in H2 as [E2 ->].
    rewrite E in R; rewrite ?app_nil_r, ?app_nil_l in *; subst post.
    rewrite map_app, E1, E2; cbn [In] in Ht.
    repeat (destruct Ht as [<-|Ht]; [vm_compute; tauto|]); destruct Ht.
  - intros Hg.
    assert (S : exists t w1 w2,
               In t ["2160"; "1080"; "720"; "576"; "480"; "4320"]%string
               /\ g = w1 ++ w2
               /\ map Regex.foldAZ w1 = map Regex.foldAZ (js t)
               /\ map Regex.foldAZ w2 = map Regex.foldAZ (js "p")).
    { unfold resolutionTokens in Hg; cbn [map In] in Hg.
      repeat (destruct Hg as [Hg|Hg];
              [ match type of Hg with
                | js ?tok = _ =>
                    let n := eval vm_compute in (List.length (js tok) - 1) in
                    exists (string_of_list_ascii
                              (firstn n (list_ascii_of_string tok))),
                           (firstn n g), (skipn n g);
                    split; [vm_compute; tauto|];
                    split; [now rewrite firstn_skipn|];
                    rewrite <- firstn_map, <- skipn_map, <- Hg;
                    split; vm_compute; reflexivity
                end |]); destruct Hg. }
    destruct S as (t & w1 & w2 & Ht & -> & E1 & E2).
    exists [], (w1 ++ w2), (w1 ++ w2).
    set (st0 := startState [] (w1 ++ w2)).
    set (mid := feed w1 st0).
    set (st2 := Regex.capture 1 st0 mid).
    assert (R1 : Regex.rest mid = w2)
      by (apply (@feed_rest w1 w2 st0); reflexivity).
    exists (feed w2 st2); split; [reflexivity|].
    unfold Parsers.reResolution; cbn [Regex.seqs sem].
    exists [], (w1 ++ w2), st0; repeat split.
    exists w1, w2, st2; split; [reflexivity|]. split.
    + exists mid; split; [|reflexivity].
      eapply alts_liti_sem; eauto. reflexivity.
    + exists w2, [], (feed w2 st2); rewrite app_nil_r; split; [reflexivity|].
      split; [eapply (@liti_sem "p" st2 w2 []); auto;
              now rewrite app_nil_r|].
      repeat split.
      apply (@feed_rest w2 [] st2); now rewrite app_nil_r.
Qed.

Lemma parsed_group_cases (name : jsstring)
      (nfo : option Parsers.MediaInfoJson) (g : jsstring) :
  Parsers.releaseGroup (Parsers.parseReleaseName name nfo) = Some g ->
  exists m,
    Regex.exec Parsers.reGroup
               (Regex.replace Parsers.reVideoExt [] (trim name)) = Some m
    /\ g = orEmpty (Regex.group 1 (Regex.groups m))
    /\ Regex.test Parsers.reResolution g = false.
Proof.
  unfold Parsers.parseReleaseName; cbv zeta.
  set (cleanName := Regex.replace Parsers.reVideoExt [] (trim name)).
  destruct (Regex.test Parsers.reVostfr name);
    destruct nfo as [[text|tracks]|];
    cbn [Parsers.releaseGroup Parsers.assign];
    destruct (Regex.exec Parsers.reGroup cleanName) as [m|] eqn:E;
    try discriminate;
    destruct (Regex.test Parsers.reResolution _) eqn:T;
    try discriminate; intros [= <-]; eauto.
Qed.

(** X16.  The release group that [parseReleaseName] reads from a name is
    never empty, is made of letters, digits and square brackets only, is
    never a resolution token such as 1080p, and is what follows the last
    hyphen of the name (trimmed, without its video extension). *)
Theorem parsed_release_group_shape :
  forall (name : jsstring) (nfo : option Parsers.MediaInfoJson)
         (g : jsstring),
    Parsers.releaseGroup (Parsers.parseReleaseName name nfo) = Some g ->
    g <> []
    /\ forallb groupChar g = true
    /\ isResolutionToken g = false
    /\ exists stem,
         Regex.replace Parsers.reVideoExt [] (trim name)
         = stem ++ js "-" ++ g.
Proof.
  intros name nfo g H.
  apply parsed_group_cases in H as (m & E & -> & T).
  rewrite reResolution_test in T.
  apply reGroup_match in E as (pre & g & E & G & F & N).
  rewrite G in *; cbn [orEmpty] in *; eauto.
Qed.

Lemma parsed_release_group_shape_witness :
  Parsers.releaseGroup
    (Parsers.parseReleaseName (js "Film.2020.WEB-DL.x265-Team[1].mkv") None)
  = Some (js "Team[1]")
  /\ forallb groupChar (js "Team[1]") = true.
Proof.
  assert (G : Parsers.releaseGroup
                (Parsers.parseReleaseName
                   (js "Film.2020.WEB-DL.x265-Team[1].mkv") None)
              = Some (js "Team[1]")) by (vm_compute; reflexivity).
  split; [exact G|].
  exact (proj1 (proj2 (parsed_release_group_shape _ _ G))).
Defined.

(** ** From a composed name back to the release group *)

Lemma parsed_group_value (name : jsstring)
      (nfo : option Parsers.MediaInfoJson) :
  Parsers.releaseGroup (Parsers.parseReleaseName name nfo)
  = match Regex.exec Parsers.reGroup
            (Regex.replace Parsers.reVideoExt [] (trim name)) with
    | Some m =>
        let g := orEmpty (Regex.group 1 (Regex.groups m)) in
        if negb (Regex.test Parsers.reResolution g) then Some g else None
    | None => None
    end.
Proof.
  unfold Parsers.parseReleaseName; cbv zeta.
  destruct (Regex.test Parsers.reVostfr name);
    destruct nfo as [[text|tracks]|]; reflexivity.
Qed.

Lemma trimStart_app_plain (a b : jsstring) (c : char) :
  isSpace c = false -> trimStart (a ++ c :: b) = trimStart a ++ c :: b.
Proof.
  intros C; induction a as [|x a IH]; simpl; [now rewrite C|].
  now destruct (isSpace x).
Qed.

Lemma trimEnd_plain_end (a : jsstring) (c : char) :
  isSpace c = false -> trimEnd (a ++ [c]) = a ++ [c].
Proof.
  intros C; unfold trimEnd; rewrite rev_app_distr; simpl; rewrite C; simpl.
  now rewrite rev_involutive.
Qed.

Lemma groupChar_plain (c : char) :
  groupChar c = true ->
  isSpace c = false /\ c <> 0x2D%N /\ c <> 0x2E%N.
Proof.
  unfold groupChar, Regex.isLowerAZ, Regex.isUpperAZ, Regex.isDigit,
    Regex.oneOf, isSpace.
  change (js "[]") with [0x5B; 0x5D]%N; cbn [existsb].
  intros H; repeat split; [|intros ->; discriminate H
                           |intros ->; discriminate H].
  revert H; repeat char_step; intros; try discriminate; reflexivity.
Qed.

(** The last code unit outside a class splits a string in one way only. *)
Lemma last_split_unique (P : char -> bool) :
  forall (u v a b : jsstring) (x y : char),
    forallb P u = true -> forallb P v = true ->
    P x = false -> P y = false ->
    u ++ x :: a = v ++ y :: b -> u = v /\ x = y /\ a = b.
Proof.
  induction u as [|c u IH]; intros [|d v] a b x y Fu Fv Px Py E;
    simpl in *.
  - now injection E as -> ->.
  - injection E as -> _; apply andb_true_iff in Fv as [Fd _]; congruence.
  - injection E as -> _; apply andb_true_iff in Fu as [Fc _]; congruence.
  - injection E as -> E.
    apply andb_true_iff in Fu as [_ Fu]; apply andb_true_iff in Fv as [_ Fv].
    destruct (IH v a b x y Fu Fv Px Py E) as (-> & -> & ->); auto.
Qed.

Lemma forallb_rev' (P : char -> bool) (l : jsstring) :
  forallb P (rev l) = forallb P l.
Proof.
  induction l as [|c l IH]; simpl; [reflexivity|].
  rewrite forallb_app, IH; simpl; rewrite andb_true_r; apply andb_comm.
Qed.

Lemma suffix_unique (P : char -> bool) (a b u v : jsstring) (x y : char) :
  forallb P u = true -> forallb P v = true ->
  P x = false -> P y = false ->
  a ++ x :: u = b ++ y :: v -> a = b /\ x = y /\ u = v.
Proof.
  intros Fu Fv Px Py E; apply (f_equal (@rev _)) in E.
  rewrite !rev_app_distr in E; simpl in E; rewrite <- !app_assoc in E.
  simpl in E.
  apply (@last_split_unique P) in E as (Eu & -> & Ea); auto.
  - apply (f_equal (@rev _)) in Eu, Ea; rewrite !rev_involutive in *; auto.
  - now rewrite forallb_rev'.
  - now rewrite forallb_rev'.
Qed.

Lemma groupChar_dash : groupChar 0x2D%N = false.
Proof. reflexivity. Qed.

Lemma groupChar_dot : groupChar 0x2E%N = false.
Proof. reflexivity. Qed.

Lemma foldAZ_letter (x c : char) :
  Regex.foldAZ x = Regex.foldAZ c ->
  Regex.isLowerAZ c || Regex.isDigit c = true ->
  groupChar x = true.
Proof.
  unfold groupChar.
  unfold Regex.foldAZ, Regex.isUpperAZ, Regex.isLowerAZ, Regex.isDigit.
  intros E L.
  assert (K : (65 <= x <= 90 \/ 97 <= x <= 122 \/ 48 <= x <= 57)%N).
  { revert E L; repeat char_step; intros E L; try discriminate; lia. }
  clear E L; repeat char_step; try reflexivity; lia.
Qed.

Lemma foldAZ_letters (l w : jsstring) :
  forallb (fun c => Regex.isLowerAZ c || Regex.isDigit c) l = true ->
  map Regex.foldAZ w = map Regex.foldAZ l ->
  forallb groupChar w = true.
Proof.
  revert w; induction l as [|c l IH]; intros [|x w]; simpl; try discriminate;
    [reflexivity|].
  intros A [= E F]; apply andb_true_iff in A as [Ac A].
  now rewrite (foldAZ_letter x c E Ac), (IH w A F).
Qed.

Lemma reVideoExt_match (s : jsstring) (m : Regex.result) :
  Regex.exec Parsers.reVideoExt s = Some m ->
  exists stem e, s = stem ++ 0x2E%N :: e /\ forallb groupChar e = true.
Proof.
  intros H; apply exec_sound in H as (pre & post & w & st' & -> & H & ->).
  pose proof (sem_consumes _ _ _ _ H) as [R _];
    cbn [startState Regex.rest] in R.
  unfold Parsers.reVideoExt in H; cbn [Regex.seqs] in H.
  destruct H as (w0 & w1 & st1 & -> & H0 & w1' & w2 & st2 & -> & H1
                 & (-> & -> & E)).
  apply sem_lit in H0 as [-> ->].
  apply sem_grp in H1 as (mid & H1 & -> & _).
  apply sem_alts_liti in H1 as (-> & t & Ht & E1).
  rewrite E, !app_nil_r in R; subst post.
  exists pre, w1'; split; [reflexivity|].
  cbn [In] in Ht.
  repeat (destruct Ht as [<-|Ht];
          [eapply foldAZ_letters; [|exact E1]; reflexivity|]).
  destruct Ht.
Qed.

Lemma exists_last_char (t : jsstring) :
  t <> [] -> exists t' z, t = t' ++ [z].
Proof.
  intros N; destruct (exists_last N) as (t' & z & ->); eauto.
Qed.

Lemma composed_name_group (base t : jsstring)
      (nfo : option Parsers.MediaInfoJson) :
  t <> [] -> forallb groupChar t = true -> isResolutionToken t = false ->
  Parsers.releaseGroup
    (Parsers.parseReleaseName (base ++ js "-" ++ t) nfo) = Some t.
Proof.
  intros N F T; rewrite parsed_group_value.
  (* the name is trimmed on the left only *)
  assert (Et : trim (base ++ js "-" ++ t) = trimStart base ++ 0x2D%N :: t).
  { change (js "-") with [0x2D%N]; cbn [app]. unfold trim; rewrite trimStart_app_plain by reflexivity.
    destruct (exists_last_char N) as (t' & z & ->).
    assert (Z : isSpace z = false).
    { rewrite forallb_app in F; apply andb_true_iff in F as [_ F].
      simpl in F; apply andb_true_iff in F as [F _].
      now apply groupChar_plain in F. }
    change (trimStart base ++ 0x2D%N :: t' ++ [z])
      with (trimStart base ++ (0x2D%N :: t') ++ [z]).
    rewrite app_assoc; now apply trimEnd_plain_end. }
  rewrite Et; set (b := trimStart base).
  (* it has no video extension *)
  assert (Ev : Regex.replace Parsers.reVideoExt [] (b ++ 0x2D%N :: t)
               = b ++ 0x2D%N :: t).
  { unfold Regex.replace.
    destruct (Regex.exec Parsers.reVideoExt _) as [m|] eqn:E; [|reflexivity].
    apply reVideoExt_match in E as (stem & e & E & Fe).
    apply (@suffix_unique groupChar) in E as (_ & D & _); auto.
    discriminate D. }
  rewrite Ev.
  (* the group pattern matches, and only at the last hyphen *)
  destruct (Regex.exec Parsers.reGroup (b ++ 0x2D%N :: t)) as [m|] eqn:E.
  - apply reGroup_match in E as (pre & g & E & G & Fg & Ng).
    change (js "-") with [0x2D%N] in E; cbn [app] in E.
    apply (@suffix_unique groupChar) in E as (_ & _ & <-); auto;
      try apply groupChar_dash.
    rewrite G; cbn [orEmpty]; cbv zeta.
    now rewrite reResolution_test, T.
  - exfalso.
    assert (K : Regex.test Parsers.reGroup (b ++ 0x2D%N :: t) = true).
    { apply test_iff; exists b, (0x2D%N :: t), (0x2D%N :: t).
      set (st0 := startState b (0x2D%N :: t)).
      set (st1 := feed [0x2D%N] st0).
      set (mid := feed t st1).
      exists (Regex.capture 1 st1 mid); split; [reflexivity|].
      unfold Parsers.reGroup, Regex.plus; cbn [Regex.seqs sem].
      exists [0x2D%N], t, st1; split; [reflexivity|]. split.
      - apply (@lit_sem "-" st0 t); reflexivity.
      - exists t, [], (Regex.capture 1 st1 mid); rewrite app_nil_r.
        split; [reflexivity|]. split.
        + exists mid; split; [|reflexivity].
          assert (R : Regex.rest st1 = t ++ []) by now rewrite app_nil_r.
          destruct (@feed_rest t [] st1 R) as (Rm & _).
          fold mid in Rm; rewrite Rm, app_nil_r.
          repeat split; auto; [|discriminate].
          destruct t; [congruence | simpl; lia].
        + repeat split; cbn [Regex.capture Regex.rest].
          apply (@feed_rest t [] st1); now rewrite app_nil_r. }
    unfold Regex.test in K; rewrite E in K; discriminate.
Qed.

(** X17.  A release name composed by [Film.generateName] or by one of the
    two generators gives its release group back when it is parsed: the
    group of the bag or, for a bag without one, NoTag; this for every
    group made of letters, digits and square brackets that is not a
    resolution token. *)
Theorem composed_name_gives_back_its_group :
  forall (this : MediaClass.Media) (info : Parsers.ReleaseInfo)
         (mediaType : jsstring) (nfo : option Parsers.MediaInfoJson)
         (t : jsstring),
    forallb groupChar t = true ->
    isResolutionToken t = false ->
    (FilmClass.team this = t ->
     Parsers.releaseGroup
       (Parsers.parseReleaseName (FilmClass.generateName this) nfo) = Some t)
    /\ (Generators.team (Parsers.releaseGroup info) = t ->
        Parsers.releaseGroup
          (Parsers.parseReleaseName
             (Generators.generateMovieReleaseName info) nfo) = Some t
        /\ Parsers.releaseGroup
             (Parsers.parseReleaseName
                (Generators.generateSeriesReleaseName info mediaType) nfo)
           = Some t).
Proof.
  intros this info mediaType nfo t F T.
  assert (Nf : FilmClass.team this <> []).
  { unfold FilmClass.team.
    destruct (truthy (MediaClass.releaseGroup this)) eqn:B; [|discriminate].
    intros Z; rewrite Z in B; discriminate. }
  assert (Ng : Generators.team (Parsers.releaseGroup info) <> []).
  { unfold Generators.team.
    destruct (Parsers.releaseGroup info) as [[|c g]|]; discriminate. }
  split; [intros E | intros E; split];
    unfold FilmClass.generateName, Generators.generateMovieReleaseName,
      Generators.generateSeriesReleaseName; cbv zeta; rewrite E in *;
    now apply composed_name_group.
Qed.

Lemma composed_name_gives_back_its_group_witness :
  let this := Scenarios.film "Alien" "1979" "" "1080p" [] [] in
  FilmClass.generateName this = js "Alien.1979.1080p-NoTag"
  /\ Parsers.releaseGroup
       (Parsers.parseReleaseName (FilmClass.generateName this) None)
     = Some (js "NoTag").
Proof.
  intros this; split; [vm_compute; reflexivity|].
  exact (proj1 (@composed_name_gives_back_its_group this Parsers.emptyInfo
                  (js "movie") None (js "NoTag") eq_refl eq_refl) eq_refl).
Defined.

(** ** The title *)

Lemma replace_sub (r : Regex.re) (s : jsstring) :
  exists a b, Regex.replace r [] s = a ++ b
              /\ (exists x, s = a ++ x) /\ (exists y, s = y ++ b).
Proof.
  unfold Regex.replace; destruct (Regex.exec r s) as [m|].
  - exists (firstn (Regex.index m) s),
      (skipn (Regex.index m + List.length (Regex.matched m)) s).
    split; [reflexivity|]. split.
    + exists (skipn (Regex.index m) s); now rewrite firstn_skipn.
    + exists (firstn (Regex.index m + List.length (Regex.matched m)) s);
        now rewrite firstn_skipn.
  - exists s, []; rewrite app_nil_r; split; [reflexivity|].
    split; [exists []; now rewrite app_nil_r | exists s; now rewrite app_nil_r].
Qed.

Lemma replace_Forall (P : char -> Prop) (r : Regex.re) (s : jsstring) :
  Forall P s -> Forall P (Regex.replace r [] s).
Proof.
  intros H; destruct (replace_sub r s) as (a & b & -> & (x & Ea) & (y & Eb)).
  apply Forall_app; split.
  - rewrite Ea in H; now apply Forall_app in H.
  - rewrite Eb in H; now apply Forall_app in H.
Qed.

Lemma parsed_title_value (name : jsstring)
      (nfo : option Parsers.MediaInfoJson) (t : jsstring) :
  Parsers.title (Parsers.parseReleaseName name nfo) = Some t ->
  exists raw,
    t = trim (Regex.replace Parsers.reTrailing []
                (Parsers.replaceAllChar 0x5F%N 0x20%N
                   (Parsers.replaceAllChar 0x2E%N 0x20%N raw)))
    /\ t <> [].
Proof.
  unfold Parsers.parseReleaseName; cbv zeta.
  match goal with
  | |- context [trim (Regex.replace Parsers.reTrailing [] ?x)] =>
      set (shown := trim (Regex.replace Parsers.reTrailing [] x))
  end.
  destruct (Regex.test Parsers.reVostfr name);
    destruct nfo as [[text|tracks]|]; cbn [Parsers.title Parsers.assign];
    destruct (truthy shown) eqn:T; try discriminate;
    intros [= <-]; eexists; (split; [reflexivity|]);
    intros Z; rewrite Z in T; discriminate.
Qed.

(** X18.  The title that [parseReleaseName] reads from a name is never
    empty, holds neither a dot nor an underscore, and neither starts nor
    ends with white space. *)
Theorem parsed_title_shape :
  forall (name : jsstring) (nfo : option Parsers.MediaInfoJson)
         (t : jsstring),
    Parsers.title (Parsers.parseReleaseName name nfo) = Some t ->
    t <> []
    /\ Forall (fun c => c <> 0x2E%N /\ c <> 0x5F%N) t
    /\ trim t = t.
Proof.
  intros name nfo t H; apply parsed_title_value in H as (raw & -> & N).
  split; [exact N|]. split; [|apply trim_idem].
  apply trim_Forall, replace_Forall.
  unfold Parsers.replaceAllChar; apply Forall_forall; intros c Hc.
  apply in_map_iff in Hc as (d & <- & Hd).
  apply in_map_iff in Hd as (e & <- & _).
  repeat char_step; split; lia.
Qed.

Lemma parsed_title_shape_witness :
  Parsers.title
    (Parsers.parseReleaseName (js "Le_Grand.Bleu.(1988).BluRay-GRP") None)
  = Some (js "Le Grand Bleu")
  /\ trim (js "Le Grand Bleu") = js "Le Grand Bleu".
Proof.
  assert (T : Parsers.title
                (Parsers.parseReleaseName
                   (js "Le_Grand.Bleu.(1988).BluRay-GRP") None)
              = Some (js "Le Grand Bleu")) by (vm_compute; reflexivity).
  split; [exact T|].
  exact (proj2 (proj2 (parsed_title_shape _ _ T))).
Defined.

(** ** The source *)

Lemma foldAZ_lowerChar (x : char) :
  isAscii (Regex.foldAZ x) = true -> lowerChar x = Regex.foldAZ x.
Proof.
  unfold isAscii, Regex.foldAZ, Regex.isUpperAZ, lowerChar.
  intros A; apply N.ltb_lt in A.
  assert (K : (x < 128)%N) by (revert A; repeat char_step; lia).
  clear A; repeat char_step; reflexivity.
Qed.

Lemma foldAZ_toLowerCase (w : jsstring) :
  forallb isAscii (map Regex.foldAZ w) = true ->
  toLowerCase w = map Regex.foldAZ w.
Proof.
  unfold toLowerCase; induction w as [|x w IH]; simpl; [reflexivity|].
  intros A; apply andb_true_iff in A as [Ax A].
  now rewrite (foldAZ_lowerChar x Ax), IH.
Qed.

Lemma reSource_matched (s : jsstring) (m : Regex.result) :
  Regex.exec Parsers.reSource s = Some m ->
  In (map Regex.foldAZ (Regex.matched m))
     (map js ["bluray"; "bdrip"; "brrip"; "webrip"; "web-dl"; "webdl";
              "web"; "hdtv"; "dvdrip"]%string).
Proof.
  intros H; apply exec_sound in H as (pre & post & w & st' & -> & H & ->).
  unfold Parsers.reSource in H; cbn [Regex.seqs] in H.
  destruct H as (w0 & w1 & st1 & -> & (-> & -> & _) & w1' & w2 & st2 & ->
                 & H1 & (-> & -> & _)).
  apply sem_grp in H1 as (mid & H1 & -> & _).
  apply sem_alts_liti in H1 as (-> & t & Ht & E1).
  cbn [Regex.matched app]; rewrite app_nil_r, E1.
  cbn [In] in Ht.
  repeat (destruct Ht as [<-|Ht]; [vm_compute; tauto|]); destruct Ht.
Qed.

Lemma parsed_source_is_match (name : jsstring)
      (nfo : option Parsers.MediaInfoJson) (s : jsstring) :
  Parsers.source (Parsers.parseReleaseName name nfo) = Some s ->
  exists str m, Regex.exec Parsers.reSource str = Some m
                /\ s = Regex.matched m.
Proof.
  unfold Parsers.parseReleaseName; cbv zeta.
  match goal with |- context [Regex.exec Parsers.reSource ?s] =>
    set (cleanName := s) end.
  destruct (Regex.test Parsers.reVostfr name);
    destruct nfo as [[text|tracks]|]; cbn [Parsers.source Parsers.assign];
    destruct (Regex.exec Parsers.reSource cleanName) as [m|] eqn:E;
    try discriminate; intros [= <-]; eauto.
Qed.

(** X19.  A source read from a file name and applied to a media object
    comes out of [getSourcePart] as BluRay, WEBRip, WEB-DL, HDTV or
    DVDRip; the bare word WEB is the one that is kept as it was
    written. *)
Theorem parsed_source_in_the_name :
  forall (name : jsstring) (nfo : option Parsers.MediaInfoJson)
         (this : MediaClass.Media) (s : jsstring),
    Parsers.source (Parsers.parseReleaseName name nfo) = Some s ->
    let part :=
      MediaClass.getSourcePart
        (MediaClass.applyReleaseInfo this (Parsers.parseReleaseName name nfo)) in
    In part (map js ["BluRay"; "WEBRip"; "WEB-DL"; "HDTV"; "DVDRip"]%string)
    \/ (map Regex.foldAZ s = js "web" /\ part = s).
Proof.
  intros name nfo this s H part.
  assert (P : part = Generators.canonicalSource s
              /\ In (map Regex.foldAZ s)
                    (map js ["bluray"; "bdrip"; "brrip"; "webrip"; "web-dl";
                             "webdl"; "web"; "hdtv"; "dvdrip"]%string)).
  { pose proof H as H'; apply parsed_source_is_match in H' as (str & m & E & ->).
    apply reSource_matched in E; split; [|exact E].
    unfold part, MediaClass.getSourcePart, MediaClass.applyReleaseInfo;
      cbn [MediaClass.source]; rewrite H; unfold MediaClass.pick.
    destruct (Regex.matched m) as [|c w] eqn:M; [|reflexivity].
    cbn [map In] in E; repeat (destruct E as [E|E]; [discriminate E|]).
    destruct E. }
  destruct P as [-> E].
  assert (L : toLowerCase s = map Regex.foldAZ s).
  { apply foldAZ_toLowerCase; cbn [map In] in E.
    repeat (destruct E as [E|E]; [rewrite <- E; reflexivity|]); destruct E. }
  unfold Generators.canonicalSource, Generators.lowerIs; rewrite L.
  cbn [map In] in E.
  repeat (destruct E as [E|E];
          [rewrite <- E; try (left; vm_compute; tauto);
           right; split; reflexivity|]).
  destruct E.
Qed.

Lemma parsed_source_in_the_name_witness :
  let name := js "Film.2020.1080p.bdrip.x264-GRP" in
  Parsers.source (Parsers.parseReleaseName name None) = Some (js "bdrip")
  /\ MediaClass.getSourcePart
       (MediaClass.applyReleaseInfo MediaClass.emptyMedia
          (Parsers.parseReleaseName name None)) = js "BluRay".
Proof.
  intros name.
  assert (S : Parsers.source (Parsers.parseReleaseName name None)
              = Some (js "bdrip")) by (vm_compute; reflexivity).
  split; [exact S|].
  destruct (@parsed_source_in_the_name name None MediaClass.emptyMedia _ S)
    as [_|[E _]]; [vm_compute; reflexivity | discriminate E].
Defined.

(* ================================================================== *)
(** * utils.js: video and ebook files *)
(* ================================================================== *)

Lemma videoExtension_sem (pre post w : jsstring) (st' : Regex.state) :
  sem Patterns.videoExtension (startState pre post) w st' ->
  exists e,
    post = 0x2E%N :: e
    /\ In (map Regex.foldAZ e) (map js ["mkv"; "mp4"; "avi"; "iso"]%string).
Proof.
  intros H.
  pose proof (sem_consumes _ _ _ _ H) as [R _];
    cbn [startState Regex.rest] in R.
  unfold Patterns.videoExtension in H; cbn [Regex.seqs] in H.
  destruct H as (w0 & w1 & st1 & -> & H0 & w1' & w2 & st2 & -> & H1
                 & (-> & -> & E)).
  apply sem_lit in H0 as [-> ->].
  apply sem_grp in H1 as (mid & H1 & -> & _).
  apply sem_alts_liti in H1 as (-> & t & Ht & E1).
  rewrite E, !app_nil_r in R; subst post.
  exists w1'; split; [reflexivity|]. rewrite E1; cbn [In] in Ht.
  repeat (destruct Ht as [<-|Ht]; [vm_compute; tauto|]); destruct Ht.
Qed.

Lemma ebookFormat_sem (pre post w : jsstring) (st' : Regex.state) :
  sem Patterns.ebookFormat (startState pre post) w st' ->
  exists e,
    post = 0x2E%N :: e
    /\ In (map Regex.foldAZ e)
          (map js ["epub"; "pdf"; "mobi"; "azw"; "azw3"; "cbr"; "cbz"]%string).
Proof.
  intros H.
  pose proof (sem_consumes _ _ _ _ H) as [R _];
    cbn [startState Regex.rest] in R.
  unfold Patterns.ebookFormat in H; cbn [Regex.seqs] in H.
  destruct H as (w0 & w1 & st1 & -> & H0 & w1' & w2 & st2 & -> & H1
                 & (-> & -> & E)).
  apply sem_lit in H0 as [-> ->].
  apply sem_grp in H1 as (mid & H1 & -> & _).
  rewrite E, !app_nil_r in R; subst post.
  exists w1'; split; [reflexivity|].
  cbn [Regex.alts] in H1; unfold Regex.opt in H1.
  repeat match goal with
  | H : sem (Regex.Alt _ _) _ _ _ |- _ => destruct H as [H|H]
  | H : sem (Regex.liti _) _ _ _ |- _ => apply sem_liti in H as [H _]
  end; try (rewrite H1; vm_compute; tauto).
  destruct H1 as (a & b & mid' & -> & Ha & Hb).
  apply sem_liti in Ha as [Ha _].
  destruct Hb as (F & _ & U & _).
  specialize (U 1 eq_refl).
  rewrite map_app, Ha.
  destruct b as [|c [|d b]]; [vm_compute; tauto | | simpl in U; lia].
  simpl in F; rewrite andb_true_r in F; apply N.eqb_eq in F; subst c.
  vm_compute; tauto.
Qed.

Lemma foldAZ_fixed (l : jsstring) :
  forallb (fun c => Regex.isLowerAZ c || Regex.isDigit c) l = true ->
  map Regex.foldAZ l = l.
Proof.
  induction l as [|c l IH]; simpl; [reflexivity|].
  intros F; apply andb_true_iff in F as [Fc F]; rewrite IH by exact F; f_equal.
  unfold Regex.foldAZ, Regex.isUpperAZ.
  unfold Regex.isLowerAZ, Regex.isDigit in Fc.
  revert Fc; repeat char_step; intros; try discriminate; reflexivity.
Qed.

Lemma extension_letters (e : jsstring) (l : list string) :
  In (map Regex.foldAZ e) (map js l) ->
  forallb (fun t => forallb (fun c => Regex.isLowerAZ c || Regex.isDigit c)
                            (js t)) l = true ->
  forallb groupChar e = true.
Proof.
  intros H F; apply in_map_iff in H as (t & E & Ht).
  rewrite forallb_forall in F; specialize (F t Ht).
  apply (@foldAZ_letters (js t)); [exact F|].
  now rewrite (foldAZ_fixed _ F).
Qed.

(** X20.  [isVideoFile] accepts exactly the names that end with a dot and
    mkv, mp4, avi or iso, in any letter case; no name is both a video
    file and an ebook file. *)
Theorem video_file_names :
  forall filename : jsstring,
    (Utils.isVideoFile filename = true
     <-> exists stem e,
           filename = stem ++ js "." ++ e
           /\ In (map Regex.foldAZ e)
                 (map js ["mkv"; "mp4"; "avi"; "iso"]%string))
    /\ (Utils.isVideoFile filename = true ->
        Utils.isEbookFile filename = false).
Proof.
  intros filename.
  assert (V : Utils.isVideoFile filename = true ->
              exists stem e,
                filename = stem ++ js "." ++ e
                /\ In (map Regex.foldAZ e)
                      (map js ["mkv"; "mp4"; "avi"; "iso"]%string)).
  { unfold Utils.isVideoFile; rewrite test_iff.
    intros (pre & post & w & st' & -> & H).
    apply videoExtension_sem in H as (e & -> & He).
    exists pre, e; split; [reflexivity | exact He]. }
  split; [split; [exact V|] |].
  - intros (stem & e & -> & He).
    unfold Utils.isVideoFile; apply test_iff.
    change (js ".") with [0x2E%N]; cbn [app].
    exists stem, (0x2E%N :: e), (0x2E%N :: e).
    set (st0 := startState stem (0x2E%N :: e)).
    set (st1 := feed [0x2E%N] st0).
    set (mid := feed e st1).
    exists (Regex.capture 1 st1 mid); split; [reflexivity|].
    unfold Patterns.videoExtension; cbn [Regex.seqs sem].
    exists [0x2E%N], e, st1; split; [reflexivity|]. split.
    + apply (@lit_sem "." st0 e); reflexivity.
    + exists e, [], (Regex.capture 1 st1 mid); rewrite app_nil_r.
      split; [reflexivity|]. split.
      * exists mid; split; [|reflexivity].
        apply in_map_iff in He as (t & E & Ht).
        apply (@alts_liti_sem _ t st1 e []); auto.
        -- rewrite <- E; cbn [In] in Ht.
           repeat (destruct Ht as [<-|Ht]; [reflexivity|]); destruct Ht.
        -- now rewrite app_nil_r.
      * repeat split; cbn [Regex.capture Regex.rest].
        apply (@feed_rest e [] st1); now rewrite app_nil_r.
  - intros Hv; destruct (Utils.isEbookFile filename) eqn:Hb; [|reflexivity].
    exfalso; apply V in Hv as (stem & e & E & He).
    unfold Utils.isEbookFile in Hb; apply test_iff in Hb
      as (pre & post & w & st' & E' & H).
    apply ebookFormat_sem in H as (e' & -> & He').
    rewrite E in E'; change (js ".") with [0x2E%N] in E'; cbn [app] in E'.
    apply (@suffix_unique groupChar) in E' as (_ & _ & <-);
      try reflexivity;
      try (eapply extension_letters; eauto; reflexivity).
    cbn [map In] in He, He'.
    repeat (destruct He as [He|He];
            [rewrite <- He in He';
             repeat (destruct He' as [He'|He']; [discriminate He'|]);
             destruct He' |]).
    destruct He.
Qed.

Lemma video_file_names_witness :
  Utils.isVideoFile (js "Alien.1979.1080p-GRP.MKV") = true
  /\ Utils.isEbookFile (js "Alien.1979.1080p-GRP.MKV") = false.
Proof.
  assert (V : Utils.isVideoFile (js "Alien.1979.1080p-GRP.MKV") = true)
    by (vm_compute; reflexivity).
  split; [exact V|].
  exact (proj2 (video_file_names _) V).
Defined.

(* ================================================================== *)
(** * The name of a series *)
(* ================================================================== *)

Lemma replace_dotFree (r : Regex.re) (rep s : jsstring) :
  dotFree rep = true -> dotFree s = true ->
  dotFree (Regex.replace r rep s) = true.
Proof.
  intros Hr Hs; unfold Regex.replace.
  destruct (Regex.exec r s) as [m|]; [|exact Hs].
  unfold dotFree in *; rewrite forallb_forall in *.
  assert (A : forall n x, In x (firstn n s) -> In x s)
    by (intros n x K; rewrite <- (firstn_skipn n s); apply in_or_app; auto).
  assert (B : forall n x, In x (skipn n s) -> In x s)
    by (intros n x K; rewrite <- (firstn_skipn n s); apply in_or_app; auto).
  intros x Hx; apply in_app_or in Hx as [Hx|Hx]; [eauto|].
  apply in_app_or in Hx as [Hx|Hx]; eauto.
Qed.

Lemma padStart0_dotFree (n : nat) (s : jsstring) :
  dotFree s = true -> dotFree (padStart0 n s) = true.
Proof.
  intros H; unfold padStart0; rewrite dotFree_app, H, andb_true_r.
  induction (n - List.length s); [reflexivity | exact IHn0].
Qed.

Lemma toUpperCase_truthy (s : jsstring) :
  truthy s = true -> truthy (toUpperCase s) = true.
Proof.
  destruct s as [|c s]; [discriminate|]; intros _.
  unfold toUpperCase; simpl. unfold upperChar.
  repeat match goal with
  | |- context [if ?b then _ else _] => destruct b
  end; reflexivity.
Qed.

Lemma toString_truthy (v : SerieClass.value) :
  SerieClass.truthyValue v = true -> truthy (SerieClass.toString v) = true.
Proof.
  destruct v as [s|n]; simpl; [easy|]. intros H.
  destruct n as [|p|p]; [discriminate| |]; simpl.
  - unfold NilEmpty.string_of_int; simpl.
    destruct (Pos.to_uint p) eqn:E; try reflexivity.
    exfalso; revert E; clear.
    pose proof (DecimalPos.Unsigned.to_uint_nonnil p) as K; congruence.
  - reflexivity.
Qed.

Lemma replace_truthy (r : Regex.re) (rep s : jsstring) :
  truthy rep = true -> truthy s = true ->
  truthy (Regex.replace r rep s) = true.
Proof.
  intros Hr Hs; unfold Regex.replace.
  destruct (Regex.exec r s) as [m|]; [|exact Hs].
  destruct (firstn _ s); [|reflexivity].
  destruct rep; [discriminate | reflexivity].
Qed.

Lemma formatSeason_tidy (this : SerieClass.Serie) :
  SerieClass.truthyValue (SerieClass.season this) = true ->
  dotFree (SerieClass.toString (SerieClass.season this)) = true ->
  truthy (SerieClass.formatSeason this) = true
  /\ dotFree (SerieClass.formatSeason this) = true.
Proof.
  intros T D; unfold SerieClass.formatSeason; rewrite T; cbn [negb].
  pose proof (toUpperCase_truthy _ (toString_truthy _ T)) as U.
  pose proof (dotFree_toUpperCase _ D) as F.
  set (s := toUpperCase _) in *.
  destruct (eqb s (js "COMPLETE") || eqb s (js "INTEGRALE")); [now split|].
  destruct (startsWith s (js "S")).
  - split.
    + apply replace_truthy; [reflexivity|].
      unfold padStart0; destruct s; [discriminate|].
      now destruct (repeat _ _).
    + apply replace_dotFree; [reflexivity | now apply padStart0_dotFree].
  - split; [reflexivity|].
    change (js "S") with [0x53%N]; cbn [app dotFree forallb].
    change (negb (N.eqb 0x53 Generators.DOT)) with true; cbn [andb].
    now apply padStart0_dotFree.
Qed.

Lemma formatEpisode_tidy (this : SerieClass.Serie) :
  SerieClass.truthyValue (SerieClass.episode this) = true ->
  dotFree (SerieClass.toString (SerieClass.episode this)) = true ->
  truthy (SerieClass.formatEpisode this) = true
  /\ dotFree (SerieClass.formatEpisode this) = true.
Proof.
  intros T D; unfold SerieClass.formatEpisode; rewrite T; cbn [negb].
  pose proof (toUpperCase_truthy _ (toString_truthy _ T)) as U.
  pose proof (dotFree_toUpperCase _ D) as F.
  set (e := toUpperCase _) in *.
  destruct (startsWith e (js "E")); [now split|].
  split; [reflexivity|].
  change (js "E") with [0x45%N]; cbn [app dotFree forallb].
  change (negb (N.eqb 0x45 Generators.DOT)) with true; cbn [andb].
  now apply padStart0_dotFree.
Qed.

Lemma dotFree_truthy_clean (s : jsstring) :
  truthy s = true -> dotFree s = true -> dotClean s = true.
Proof.
  destruct s; [discriminate|]; intros _; apply dotFree_dotClean.
Qed.

Lemma seasonEpisodeParts_clean (this : SerieClass.Serie) :
  dotFree (SerieClass.toString (SerieClass.season this)) = true ->
  dotFree (SerieClass.toString (SerieClass.episode this)) = true ->
  forallb dotClean (SerieClass.seasonEpisodeParts this) = true.
Proof.
  intros Ds De; unfold SerieClass.seasonEpisodeParts.
  assert (S : SerieClass.truthyValue (SerieClass.season this) = true ->
              dotClean (SerieClass.formatSeason this) = true).
  { intros T; destruct (formatSeason_tidy this T Ds).
    now apply dotFree_truthy_clean. }
  assert (E : SerieClass.truthyValue (SerieClass.episode this) = true ->
              dotClean (SerieClass.formatEpisode this) = true).
  { intros T; destruct (formatEpisode_tidy this T De).
    now apply dotFree_truthy_clean. }
  assert (B : SerieClass.truthyValue (SerieClass.season this) = true ->
              SerieClass.truthyValue (SerieClass.episode this) = true ->
              dotClean (SerieClass.formatSeason this
                        ++ SerieClass.formatEpisode this) = true).
  { intros Ts Te; destruct (formatSeason_tidy this Ts Ds) as [A1 A2].
    destruct (formatEpisode_tidy this Te De) as [B1 B2].
    apply dotFree_truthy_clean; [now destruct (SerieClass.formatSeason this)|].
    now rewrite dotFree_app, A2, B2. }
  destruct (SerieClass.isPack this).
  - destruct (SerieClass.isComplete this); [reflexivity|].
    destruct (SerieClass.truthyValue (SerieClass.season this)) eqn:T;
      [|reflexivity].
    cbn [forallb]; now rewrite S.
  - destruct (SerieClass.truthyValue (SerieClass.season this)) eqn:Ts,
      (SerieClass.truthyValue (SerieClass.episode this)) eqn:Te;
      cbn [andb forallb]; rewrite ?B, ?S, ?E; auto.
Qed.

Lemma serie_nameParts_clean (this : SerieClass.Serie) :
  tidyMedia (SerieClass.media this) = true ->
  dotFree (SerieClass.toString (SerieClass.season this)) = true ->
  dotFree (SerieClass.toString (SerieClass.episode this)) = true ->
  forallb dotClean (SerieClass.nameParts this) = true.
Proof.
  intros H Ds De.
  pose proof (nameParts_clean _ H) as F.
  pose proof (seasonEpisodeParts_clean this Ds De) as P.
  unfold FilmClass.nameParts, FilmClass.pushIf, FilmClass.pushPart in F.
  unfold SerieClass.nameParts, SerieClass.pushIf, SerieClass.pushPart;
    cbv zeta.
  rewrite !forallb_app in *.
  repeat match type of F with
    | _ && _ = true => let K := fresh "K" in apply andb_true_iff in F as [K F]
    end.
  repeat (apply andb_true_iff; split); assumption.
Qed.

(** X21.  The name of a series is as dot-clean as the name of a film.
    Take a series whose title, if any, is made of Basic Latin and Latin-1
    Supplement characters and does not normalize to the empty string;
    whose single-valued slots are each empty or dot-clean (no leading,
    trailing or doubled dot); whose language names and HDR entries are
    each non-empty and dot-clean; whose audio codec names are each
    non-empty, without dot and not starting with white space; and whose
    season and episode designators hold no dot.  Then the base name
    composed by [Serie.generateName] has no two dots in a row and neither
    starts nor ends with a dot. *)
Theorem serie_name_is_dot_clean :
  forall this : SerieClass.Serie,
    latin1 (MediaClass.title (SerieClass.media this)) = true ->
    tidyMedia (SerieClass.media this) = true ->
    dotFree (SerieClass.toString (SerieClass.season this)) = true ->
    dotFree (SerieClass.toString (SerieClass.episode this)) = true ->
    let base := join [Generators.DOT] (SerieClass.nameParts this) in
    includes base (js "..") = false
    /\ startsWith (SerieClass.generateName this) (js ".") = false
    /\ endsWith base (js ".") = false.
Proof.
  intros this _ H Ds De base.
  unfold SerieClass.generateName; cbv zeta; fold base.
  apply suffixed_name_plain, join_parts_clean.
  now apply serie_nameParts_clean.
Qed.

Lemma serie_name_is_dot_clean_witness :
  let this :=
    SerieClass.constructor
      (Scenarios.film "Ma série" "2019" "" "1080p" [] ["Français"]%string)
      (SerieClass.mkOptions (Some (SerieClass.VNum 2))
                            (Some (SerieClass.VStr (js "5"))) None None None
                            None) in
  SerieClass.generateName this = js "Ma.Serie.2019.S02E05.VFF.1080p-NoTag"
  /\ includes (join [Generators.DOT] (SerieClass.nameParts this)) (js "..")
     = false.
Proof.
  intros this; split; [vm_compute; reflexivity|].
  refine (proj1 (@serie_name_is_dot_clean this _ _ _ _));
    vm_compute; reflexivity.
Defined.

Lemma digit_upperChar (c : char) :
  Regex.isDigit c = true -> upperChar c = [c].
Proof.
  unfold Regex.isDigit, upperChar; intros H; bool_hyps.
  repeat char_step; reflexivity.
Qed.

Lemma set_season_season (v : SerieClass.value) (this : SerieClass.Serie) :
  SerieClass.season (SerieClass.set_season v this) = v.
Proof.
  unfold SerieClass.set_season, SerieClass._updateIsPack.
  repeat match goal with
  | |- context [if ?b then _ else _] => destruct b
  end; reflexivity.
Qed.

Lemma set_episode_episode (v : SerieClass.value) (this : SerieClass.Serie) :
  SerieClass.episode (SerieClass.set_episode v this) = v.
Proof.
  unfold SerieClass.set_episode, SerieClass._updateIsPack.
  repeat match goal with
  | |- context [if ?b then _ else _] => destruct b
  end; reflexivity.
Qed.

Lemma formatSeason_token (this : SerieClass.Serie) (s : jsstring) :
  SerieClass.season this = SerieClass.VStr s ->
  isSeasonToken s = true ->
  SerieClass.formatSeason this
  = if eqb s (js "INTEGRALE") then js "COMPLETE" else s.
Proof.
  intros E T; unfold SerieClass.formatSeason; rewrite E.
  unfold isSeasonToken in T.
  apply orb_true_iff in T as [T|T]; [apply orb_true_iff in T as [T|T]|].
  - apply eqb_eq in T; subst s; reflexivity.
  - apply eqb_eq in T; subst s; reflexivity.
  - destruct s as [|x [|a [|b [|c s]]]]; try discriminate T.
    apply andb_true_iff in T as [T Db]; apply andb_true_iff in T as [Tx Da].
    apply N.eqb_eq in Tx; subst x.
    cbn [SerieClass.truthyValue truthy negb SerieClass.toString].
    unfold toUpperCase; cbn [flat_map].
    rewrite (digit_upperChar _ Da), (digit_upperChar _ Db).
    change (upperChar 83%N) with [83%N]; cbn [app].
    vm_compute; reflexivity.
Qed.

Lemma formatEpisode_token (this : SerieClass.Serie) (e : jsstring) :
  SerieClass.episode this = SerieClass.VStr e ->
  isEpisodeToken e = true ->
  SerieClass.formatEpisode this = e.
Proof.
  intros E T; unfold SerieClass.formatEpisode; rewrite E.
  unfold isEpisodeToken in T.
  destruct e as [|x [|a [|b more]]]; try discriminate T.
  apply andb_true_iff in T as [T Dm]; apply andb_true_iff in T as [T Db].
  apply andb_true_iff in T as [Tx Da].
  apply N.eqb_eq in Tx; subst x.
  cbn [SerieClass.truthyValue truthy negb SerieClass.toString].
  match goal with |- context [toUpperCase ?x] =>
    assert (U : toUpperCase x = x) end.
  { unfold toUpperCase; cbn [flat_map].
    rewrite (digit_upperChar _ Da), (digit_upperChar _ Db).
    change (upperChar 69%N) with [69%N]; cbn [app]; do 3 f_equal.
    destruct more as [|c [|d more]]; [reflexivity| |discriminate Dm].
    cbn [flat_map]; now rewrite (digit_upperChar _ Dm). }
  rewrite U; reflexivity.
Qed.

(** X22.  The season and episode designators that [parseReleaseName]
    extracts go through the series object unchanged: once assigned,
    [formatSeason] and [formatEpisode] give them back as they are, except
    that INTEGRALE is written COMPLETE. *)
Theorem parsed_designators_are_kept_by_the_serie :
  forall (name : jsstring) (nfo : option Parsers.MediaInfoJson)
         (this : SerieClass.Serie),
    (forall s,
        Parsers.season (Parsers.parseReleaseName name nfo) = Some s ->
        SerieClass.formatSeason
          (SerieClass.set_season (SerieClass.VStr s) this)
        = if eqb s (js "INTEGRALE") then js "COMPLETE" else s)
    /\ (forall e,
           Parsers.episode (Parsers.parseReleaseName name nfo) = Some e ->
           SerieClass.formatEpisode
             (SerieClass.set_episode (SerieClass.VStr e) this) = e).
Proof.
  intros name nfo this; destruct (parsed_tokens name nfo) as [S E]; split.
  - intros s H; apply formatSeason_token; [apply set_season_season | auto].
  - intros e H; apply formatEpisode_token; [apply set_episode_episode | auto].
Qed.

Lemma parsed_designators_are_kept_by_the_serie_witness :
  let info := Parsers.parseReleaseName (js "Show.Integrale.E7.WEB-GRP") None in
  Parsers.season info = Some (js "INTEGRALE")
  /\ SerieClass.formatSeason
       (SerieClass.set_season (SerieClass.VStr (js "INTEGRALE"))
                              (Scenarios.serieOf None None None))
     = js "COMPLETE".
Proof.
  intros info.
  assert (S : Parsers.season info = Some (js "INTEGRALE"))
    by (vm_compute; reflexivity).
  split; [exact S|].
  exact (proj1 (parsed_designators_are_kept_by_the_serie
                  (js "Show.Integrale.E7.WEB-GRP") None
                  (Scenarios.serieOf None None None)) _ S).
Defined.

(* ================================================================== *)
(** * Tokens that are stable under their own slot *)
(* ================================================================== *)

Lemma lowerChar_idem (c : char) : lowerChar (lowerChar c) = lowerChar c.
Proof.
  unfold lowerChar.
  destruct ((0x41 <=? c) && (c <=? 0x5A))%N eqn:A.
  { bool_hyps; repeat char_step; reflexivity. }
  destruct ((0xC0 <=? c) && (c <=? 0xDE) && negb (c =? 0xD7))%N eqn:B.
  { bool_hyps; repeat char_step; reflexivity. }
  destruct (N.eqb_spec c 0x178) as [->|C]; [reflexivity|].
  destruct (N.eqb_spec c 0x39C) as [->|D]; [reflexivity|].
  rewrite A, B.
  destruct (N.eqb_spec c 0x178); [contradiction|].
  destruct (N.eqb_spec c 0x39C); [contradiction|]. reflexivity.
Qed.

Lemma toLowerCase_idem (s : jsstring) :
  toLowerCase (toLowerCase s) = toLowerCase s.
Proof.
  unfold toLowerCase; rewrite map_map; apply map_ext, lowerChar_idem.
Qed.

Lemma endsWith_snoc (s : jsstring) (c : char) : endsWith (s ++ [c]) [c] = true.
Proof.
  unfold endsWith, startsWith; rewrite rev_app_distr; simpl.
  now rewrite N.eqb_refl.
Qed.

Lemma resolutionPart_stable (r : jsstring) :
  endsWith (Generators.resolutionPart r) (js "p") = true
  /\ Generators.resolutionPart (Generators.resolutionPart r)
     = Generators.resolutionPart r.
Proof.
  unfold Generators.resolutionPart.
  destruct (endsWith (toLowerCase r) (js "p")) eqn:E.
  - rewrite toLowerCase_idem, E; auto.
  - assert (L : toLowerCase (toLowerCase r ++ js "p") = toLowerCase r ++ js "p")
      by (unfold toLowerCase at 1; rewrite map_app; fold (toLowerCase (toLowerCase r));
          now rewrite toLowerCase_idem).
    change (js "p") with [0x70%N] in *.
    now rewrite L, endsWith_snoc.
Qed.

Lemma canonicalSource_cases (source : jsstring) :
  In (Generators.canonicalSource source)
     (map js ["WEB-DL"; "WEBRip"; "BluRay"; "REMUX"; "HDLight"; "4KLight";
              "DVDRip"; "HDTV"]%string)
  \/ Generators.canonicalSource source = source.
Proof.
  unfold Generators.canonicalSource.
  repeat match goal with
  | |- context [if ?b then _ else _] =>
      destruct b; [left; cbn [map In]; tauto|]
  end.
  now right.
Qed.

Lemma canonicalSource_stable (source : jsstring) :
  Generators.canonicalSource (Generators.canonicalSource source)
  = Generators.canonicalSource source.
Proof.
  destruct (canonicalSource_cases source) as [H|E].
  - cbn [map In] in H.
    repeat (destruct H as [H|H]; [rewrite <- H; vm_compute; reflexivity|]).
    destruct H.
  - now rewrite !E.
Qed.

(** X23.  The resolution and source slots are stable: the resolution
    token always ends with p, and feeding a media object the resolution or
    source token of its own name gives the same token again. *)
Theorem resolution_and_source_tokens_are_stable :
  forall (this : MediaClass.Media),
    let withTokens :=
      MediaClass.mkMedia
        (MediaClass.path this) (MediaClass.title this) (MediaClass.year this)
        (MediaClass.getResolutionPart this)
        (MediaClass.codec this) (MediaClass.container this)
        (MediaClass.hdr this) (MediaClass.audioCodecs this)
        (MediaClass.audioChannels this) (MediaClass.audioLanguages this)
        (MediaClass.getSourcePart this)
        (MediaClass.releaseGroup this) (MediaClass.edition this)
        (MediaClass.info this) (MediaClass.language this)
        (MediaClass.isVOSTFR this) (MediaClass.imax this)
        (MediaClass.threeD this) (MediaClass.threeDType this)
        (MediaClass.platform this) (MediaClass.subtitles this)
        (MediaClass.extension this) in
    MediaClass.getResolutionPart withTokens = MediaClass.getResolutionPart this
    /\ MediaClass.getSourcePart withTokens = MediaClass.getSourcePart this
    /\ (MediaClass.resolution this <> [] ->
        endsWith (MediaClass.getResolutionPart this) (js "p") = true).
Proof.
  intros this withTokens; unfold withTokens, MediaClass.getResolutionPart,
    MediaClass.getSourcePart; cbn [MediaClass.resolution MediaClass.source].
  destruct (resolutionPart_stable (MediaClass.resolution this)) as [E R].
  pose proof (canonicalSource_stable (MediaClass.source this)) as S.
  repeat split.
  - destruct (MediaClass.resolution this) as [|c r]; [reflexivity|].
    cbn [truthy negb].
    destruct (Generators.resolutionPart (c :: r)) eqn:K; [reflexivity|].
    cbn [truthy negb]; exact R.
  - destruct (MediaClass.source this) as [|c r]; [reflexivity|].
    cbn [truthy negb].
    destruct (Generators.canonicalSource (c :: r)) eqn:K; [reflexivity|].
    cbn [truthy negb]; exact S.
  - intros N; destruct (MediaClass.resolution this); [congruence | exact E].
Qed.

Lemma resolution_and_source_tokens_are_stable_witness :
  let this :=
    MediaClass.mkMedia [] [] [] (js "1080") [] [] [] [] [] []
                       (js "bdrip") [] [] [] [] false false false [] []
                       None None in
  MediaClass.getResolutionPart this = js "1080p"
  /\ MediaClass.getSourcePart this = js "BluRay"
  /\ endsWith (MediaClass.getResolutionPart this) (js "p") = true.
Proof.
  intros this; split; [vm_compute; reflexivity|].
  split; [vm_compute; reflexivity|].
  refine (proj2 (proj2 (resolution_and_source_tokens_are_stable this)) _).
  discriminate.
Defined.

(* ================================================================== *)
(** * [normalizeLang] *)
(* ================================================================== *)

Lemma LANGUAGE_MAP_fixed (key v : jsstring) :
  Config.lookup Config.LANGUAGE_MAP key = Some v ->
  Utils.normalizeLang (Some v) = v.
Proof.
  unfold Config.LANGUAGE_MAP; cbn [map Config.lookup fst snd].
  repeat (destruct (eqb _ key); [intros [= <-]; vm_compute; reflexivity|]).
  discriminate.
Qed.

Lemma normalizeLang_idem (lang : option jsstring) :
  Utils.normalizeLang (Some (Utils.normalizeLang lang))
  = Utils.normalizeLang lang.
Proof.
  unfold Utils.normalizeLang at 2 3.
  destruct (truthyOpt lang); cbn [negb]; [|vm_compute; reflexivity].
  pose proof (trim_idem (orEmpty lang)) as I.
  set (t := trim (orEmpty lang)) in *.
  destruct (Regex.test Utils.reVostfrLang t) eqn:E1; [vm_compute; reflexivity|].
  destruct (Regex.exec Utils.reVf t) as [m|] eqn:E2;
    [destruct (eqb _ _); vm_compute; reflexivity|].
  assert (Again : truthy t = true ->
                  Utils.normalizeLang (Some t)
                  = match Regex.exec Utils.reBase t with
                    | Some m =>
                        match Config.lookup Config.LANGUAGE_MAP
                                (toLowerCase
                                   (orEmpty (Regex.group 1 (Regex.groups m))))
                        with
                        | Some v => v
                        | None => t
                        end
                    | None => if truthy t then t else js "Unknown"
                    end).
  { intros T; unfold Utils.normalizeLang; cbn [truthyOpt orEmpty].
    rewrite T; cbn [negb]; now rewrite I, E1, E2, T. }
  destruct (Regex.exec Utils.reBase t) as [m|] eqn:E3.
  - destruct (Config.lookup _ _) eqn:L; [now apply LANGUAGE_MAP_fixed in L|].
    rewrite Again; [reflexivity|].
    destruct t; [discriminate E3 | reflexivity].
  - destruct (truthy t) eqn:T; [|vm_compute; reflexivity].
    now rewrite Again.
Qed.

(** X24.  [normalizeLang] is idempotent and never returns an empty
    string, for every language whose leading word is not the name of a
    property that an object literal inherits (constructor, __proto__),
    where [LANGUAGE_MAP[base]] is a value of the table or undefined. *)
Theorem normalizeLang_is_idempotent :
  forall lang : option jsstring,
    startsWith (toLowerCase (trim (orEmpty lang))) (js "constructor") = false ->
    startsWith (toLowerCase (trim (orEmpty lang))) (js "__proto__") = false ->
    Utils.normalizeLang (Some (Utils.normalizeLang lang))
    = Utils.normalizeLang lang
    /\ Utils.normalizeLang lang <> [].
Proof.
  intros lang _ _; split; [apply normalizeLang_idem|].
  pose proof (normalizeLang_truthy lang) as T.
  intros Z; rewrite Z in T; discriminate.
Qed.

Lemma normalizeLang_is_idempotent_witness :
  Utils.normalizeLang (Some (js " fr ")) = js "Français"
  /\ Utils.normalizeLang (Some (js "Français")) = js "Français".
Proof.
  assert (E : Utils.normalizeLang (Some (js " fr ")) = js "Français")
    by (vm_compute; reflexivity).
  split; [exact E|].
  rewrite <- E at 1.
  exact (proj1 (@normalizeLang_is_idempotent (Some (js " fr "))
                  eq_refl eq_refl)).
Defined.

(* ================================================================== *)
(** * The category hint of [findTagIdByName] *)
(* ================================================================== *)



(* ================================================================== *)
(** * The two copies of the tag lookup *)
(* ================================================================== *)

Lemma scanTags_ext (f g : SerieClass.Tag -> option jsstring)
      (l : list SerieClass.Tag) :
  (forall tag, f tag = g tag) ->
  SerieClass.scanTags f l = SerieClass.scanTags g l.
Proof.
  intros E; induction l as [|t l IH]; simpl; [reflexivity|].
  now rewrite E, IH.
Qed.

Lemma scanCats_ext (f g : SerieClass.Tag -> option jsstring)
      (cats : list SerieClass.Category) :
  (forall tag, f tag = g tag) ->
  SerieClass.scanCats f cats = SerieClass.scanCats g cats.
Proof.
  intros E; induction cats as [|c cats IH]; simpl; [reflexivity|].
  now rewrite (scanTags_ext f g _ E), IH.
Qed.

Lemma film_aliases_lookup (key : jsstring) :
  key <> js "x265" ->
  Config.lookup FilmTags.aliases key = Config.lookup SerieClass.aliases key.
Proof.
  intros N; unfold FilmTags.aliases, SerieClass.aliases, SerieClass.table.
  cbn [map Config.lookup fst snd].
  destruct (eqb (js "x264") key); [reflexivity|].
  destruct (eqb (js "x265") key) eqn:E; [|reflexivity].
  apply eqb_eq in E; congruence.
Qed.

Lemma film_aliasHit (normName : jsstring) (tag : SerieClass.Tag) :
  normName <> js "x265" ->
  FilmTags.aliasHit normName tag = SerieClass.aliasHit normName tag.
Proof.
  intros N; unfold FilmTags.aliasHit, SerieClass.aliasHit.
  now rewrite film_aliases_lookup.
Qed.

(** X26.  The copy of [findTagIdByName] in [Film.js] and the one in
    [Serie.js] return the same id for every taxonomy, query and category
    hint, as long as the query is not x265 (up to accents, case and
    surrounding white space): the film copy has no alias for x265, and
    misses a tag named HEVC that the series copy finds. *)
Theorem film_and_serie_lookups_agree :
  (forall (allCats : list SerieClass.Category) (name : jsstring)
          (category : option jsstring),
      SerieClass.norm name <> js "x265" ->
      FilmTags.searchTag allCats name category
      = SerieClass.searchTag allCats name category)
  /\ (let allCats :=
        [SerieClass.mkCategory (js "Codec vidéo")
           [SerieClass.mkTag (js "c-hevc") (js "HEVC")]] in
      FilmTags.searchTag allCats (js "x265") (Some (js "Codec vidéo")) = None
      /\ SerieClass.searchTag allCats (js "x265") (Some (js "Codec vidéo"))
         = Some (js "c-hevc")).
Proof.
  split; [|split; vm_compute; reflexivity].
  intros allCats name category N.
  unfold FilmTags.searchTag, SerieClass.searchTag; cbv zeta.
  rewrite (scanCats_ext
             (fun tag => SerieClass.returnIf
                (eqb (SerieClass.norm (SerieClass.tagName tag))
                     (SerieClass.norm name)
                 || FilmTags.aliasHit (SerieClass.norm name) tag) tag)
             (fun tag => SerieClass.returnIf
                (eqb (SerieClass.norm (SerieClass.tagName tag))
                     (SerieClass.norm name)
                 || SerieClass.aliasHit (SerieClass.norm name) tag) tag))
    by (intros tag; now rewrite film_aliasHit).
  rewrite (scanCats_ext
             (fun tag => SerieClass.returnIf
                (eqb (SerieClass.norm (SerieClass.tagName tag))
                     (SerieClass.norm name)
                 || FilmTags.aliasHit (SerieClass.norm name) tag
                 || includes (SerieClass.norm (SerieClass.tagName tag))
                             (SerieClass.norm name)) tag)
             (fun tag => SerieClass.returnIf
                (eqb (SerieClass.norm (SerieClass.tagName tag))
                     (SerieClass.norm name)
                 || SerieClass.aliasHit (SerieClass.norm name) tag
                 || includes (SerieClass.norm (SerieClass.tagName tag))
                             (SerieClass.norm name)) tag))
    by (intros tag; now rewrite film_aliasHit).
  reflexivity.
Qed.

Lemma film_and_serie_lookups_agree_witness :
  let allCats :=
    [SerieClass.mkCategory (js "Codec vidéo")
       [SerieClass.mkTag (js "c-avc") (js "AVC/H264/x264")]] in
  FilmTags.searchTag allCats (js "X264") (Some (js "Codec vidéo"))
  = SerieClass.searchTag allCats (js "X264") (Some (js "Codec vidéo"))
  /\ SerieClass.searchTag allCats (js "X264") (Some (js "Codec vidéo"))
     = Some (js "c-avc").
Proof.
  intros allCats; split; [|vm_compute; reflexivity].
  apply (proj1 film_and_serie_lookups_agree).
  vm_compute; discriminate.
Defined.

Lemma genreId_ext (f g : SerieClass.Tag -> bool)
      (allCats : list SerieClass.Category) :
  (forall tag, f tag = g tag) ->
  SerieClass.genreId f allCats = SerieClass.genreId g allCats.
Proof.
  intros E; unfold SerieClass.genreId; apply scanCats_ext.
  intros tag; now rewrite E.
Qed.

Lemma film_genreTag (normGenre : jsstring) (tag : SerieClass.Tag) :
  SerieClass.isTelefilm normGenre = false ->
  FilmTags.genreTag normGenre tag = SerieClass.genreTag normGenre tag.
Proof.
  intros T; unfold FilmTags.genreTag, SerieClass.genreTag, FilmTags.aliasOf.
  f_equal.
  unfold FilmTags.genreAliases, SerieClass.genreAliases, SerieClass.table.
  cbn [map Config.lookup fst snd].
  destruct (eqb (js "sf") normGenre); [reflexivity|].
  destruct (eqb (js "comedy") normGenre); [reflexivity|].
  destruct (eqb (js "telefilm") normGenre) eqn:E; [|reflexivity].
  apply eqb_eq in E; subst normGenre; discriminate T.
Qed.

(** X27.  The genre block of [Film.getAutoTags] and the one of
    [Serie.getAutoTags] resolve every genre list to the same ids, on
    every taxonomy: the extra alias entry of the film copy is never
    reached. *)
Theorem film_and_serie_genres_agree :
  forall (allCats : list SerieClass.Category) (genres : list jsstring),
    FilmTags.genreTags allCats genres = SerieClass.genreTags allCats genres.
Proof.
  intros allCats genres; unfold FilmTags.genreTags, SerieClass.genreTags.
  cbv zeta; destruct (_ && _).
  - f_equal; apply genreId_ext; intros tag; reflexivity.
  - apply flat_map_ext; intros g.
    destruct (SerieClass.isTelefilm (SerieClass.norm g)) eqn:T;
      [reflexivity|].
    f_equal; apply genreId_ext; intros tag; now apply film_genreTag.
Qed.

(* ================================================================== *)
(** * The alphabet of a normalized title *)
(* ================================================================== *)

Lemma titleChar_spec (c : char) :
  titleChar c = true
  <-> isSpace c = false /\ isCombining c = false
      /\ c <> 0x27%N /\ c <> 0x60%N /\ c <> 0x2D%N
      /\ Regex.oneOf ",;}{[]:" c = false.
Proof.
  unfold titleChar; rewrite !andb_true_iff, !negb_true_iff, !orb_false_iff.
  rewrite !N.eqb_neq; tauto.
Qed.

Lemma titleChar_letter (u : char) :
  ((0x41 <= u <= 0x5A) \/ (0x61 <= u <= 0x7A) \/ (0xC0 <= u <= 0xFF)
   \/ u = 0x178 \/ u = 0x39C \/ u = 0x3BC)%N ->
  titleChar u = true.
Proof.
  intros H; unfold titleChar, isSpace, isCombining, Regex.oneOf.
  change (js ",;}{[]:") with [0x2C; 0x3B; 0x7D; 0x7B; 0x5B; 0x5D; 0x3A]%N.
  cbn [existsb].
  repeat char_step; reflexivity.
Qed.

Lemma titleChar_upperChar (c : char) :
  titleChar c = true -> forallb titleChar (upperChar c) = true.
Proof.
  intros T; unfold upperChar.
  repeat match goal with
  | |- context [if ?b then _ else _] => destruct b eqn:?
  end; bool_hyps; cbn [forallb]; rewrite ?andb_true_r;
    try exact T;
    try (apply titleChar_letter; lia);
    try (rewrite titleChar_letter by lia; reflexivity).
Qed.

Lemma titleChar_lowerChar (c : char) :
  titleChar c = true -> titleChar (lowerChar c) = true.
Proof.
  intros T; unfold lowerChar.
  repeat match goal with
  | |- context [if ?b then _ else _] => destruct b eqn:?
  end; bool_hyps; try exact T; apply titleChar_letter; lia.
Qed.

Lemma titleChar_toUpperCase (s : jsstring) :
  forallb titleChar s = true -> forallb titleChar (toUpperCase s) = true.
Proof.
  unfold toUpperCase; induction s as [|c s IH]; simpl; [easy|].
  intros H; apply andb_true_iff in H as [Hc H].
  now rewrite forallb_app, titleChar_upperChar, IH.
Qed.

Lemma titleChar_toLowerCase (s : jsstring) :
  forallb titleChar s = true -> forallb titleChar (toLowerCase s) = true.
Proof.
  unfold toLowerCase; induction s as [|c s IH]; simpl; [easy|].
  intros H; apply andb_true_iff in H as [Hc H].
  now rewrite titleChar_lowerChar, IH.
Qed.

Lemma titleChar_capitalizeWord (w : jsstring) :
  forallb titleChar w = true ->
  forallb titleChar (Generators.capitalizeWord w) = true.
Proof.
  intros H; unfold Generators.capitalizeWord.
  destruct w as [|c tl]; [reflexivity|].
  destruct (_ && _); [exact H|].
  simpl in H; apply andb_true_iff in H as [Hc H].
  rewrite forallb_app, titleChar_toLowerCase by exact H.
  rewrite titleChar_toUpperCase; [reflexivity|].
  simpl; now rewrite Hc.
Qed.

(** What reaches the split into words: no combining mark and none of the
    punctuation, white space apart *)
Lemma punctuated_char (f : char) :
  isCombining f = false ->
  let g := if N.eqb f 0xE7 then 0x63%N
           else if N.eqb f 0xC7 then 0x43%N else f in
  let h := if N.eqb g 0x27 || N.eqb g 0x60 then Generators.DOT else g in
  Regex.oneOf ",;}{[]:" h = false ->
  let i := if N.eqb h 0x2D then Generators.DOT else h in
  isSpace i = true \/ titleChar i = true.
Proof.
  intros C g h F i.
  destruct (isSpace i) eqn:S; [now left | right].
  apply titleChar_spec; split; [exact S|].
  assert (G : g = f \/ g = 0x63%N \/ g = 0x43%N)
    by (unfold g; destruct (N.eqb f 0xE7), (N.eqb f 0xC7); auto).
  assert (Hh : h = Generators.DOT \/ (h = g /\ g <> 0x27 /\ g <> 0x60)%N).
  { unfold h; destruct (N.eqb_spec g 0x27), (N.eqb_spec g 0x60);
      cbn [orb]; auto. }
  assert (K : i = Generators.DOT \/ (i = h /\ h <> 0x2D%N))
    by (unfold i; destruct (N.eqb_spec h 0x2D); auto).
  clearbody g h i.
  destruct K as [->|[-> K]]; [repeat split; discriminate|].
  destruct Hh as [->|(-> & A & B)]; [repeat split; discriminate|].
  repeat split; auto.
  destruct G as [->|[->| ->]]; [exact C|reflexivity|reflexivity].
Qed.

Lemma punctuated_chars (title : jsstring) :
  Forall (fun c => isSpace c = true \/ titleChar c = true)
         (Generators.hyphensToDots
            (Generators.removeForbidden
               (Generators.apostrophesToDots
                  (Generators.foldCedilla (Generators.stripAccents title))))).
Proof.
  unfold Generators.hyphensToDots, Generators.removeForbidden,
    Generators.apostrophesToDots, Generators.foldCedilla,
    Generators.stripAccents.
  apply Forall_forall; intros c H.
  apply in_map_iff in H as (d & <- & H).
  apply filter_In in H as [H F].
  apply in_map_iff in H as (e & <- & H).
  apply in_map_iff in H as (f & <- & H).
  apply filter_In in H as [_ C].
  apply negb_true_iff in C; apply negb_true_iff in F.
  exact (punctuated_char f C F).
Qed.

Lemma splitAux_words (P : char -> Prop) (b : bool) (s : jsstring) :
  Forall (fun c => isSpace c = true \/ P c) s ->
  Forall (Forall P) (Generators.splitAux b s).
Proof.
  intros H; revert b; induction H as [|c s Hc Hs IH]; intros b; simpl.
  - repeat constructor.
  - destruct (isSpace c) eqn:E.
    + destruct b; [apply IH|]. constructor; [constructor | apply IH].
    + destruct Hc as [Hc|Hc]; [congruence|].
      specialize (IH false).
      destruct (Generators.splitAux false s) as [|w ws]; simpl.
      * repeat constructor; exact Hc.
      * inversion IH; subst; constructor; [constructor|]; assumption.
Qed.

Lemma join_Forall (P : char -> Prop) (parts : list jsstring) :
  P Generators.DOT -> Forall (Forall P) parts ->
  Forall P (join [Generators.DOT] parts).
Proof.
  intros D H; induction H as [|x l Hx Hl IH]; [constructor|].
  destruct l as [|y l]; [exact Hx|].
  change (join [Generators.DOT] (x :: y :: l))
    with (x ++ [Generators.DOT] ++ join [Generators.DOT] (y :: l)).
  apply Forall_app; split; [exact Hx|].
  constructor; [exact D | exact IH].
Qed.

Lemma normalizeTitle_alphabet (title : jsstring) :
  forallb titleChar (Generators.normalizeTitle title) = true.
Proof.
  unfold Generators.normalizeTitle.
  destruct (truthy title); cbn [negb]; [|reflexivity].
  apply forallb_forall, Forall_forall.
  assert (J : Forall (fun c => titleChar c = true)
                     (join [Generators.DOT]
                        (map Generators.capitalizeWord
                           (Generators.splitSpaces
                              (Generators.hyphensToDots
                                 (Generators.removeForbidden
                                    (Generators.apostrophesToDots
                                       (Generators.foldCedilla
                                          (Generators.stripAccents
                                             title))))))))).
  { apply join_Forall; [reflexivity|].
    apply Forall_forall; intros w Hw.
    apply in_map_iff in Hw as (v & <- & Hv).
    apply forallb_Forall, titleChar_capitalizeWord.
    apply forallb_forall; intros c Hc.
    pose proof (punctuated_chars title) as Q.
    apply (splitAux_words (fun c => titleChar c = true) false) in Q.
    rewrite Forall_forall in Q; specialize (Q v Hv).
    rewrite Forall_forall in Q; exact (Q c Hc). }
  unfold Generators.trimDots, Generators.collapseDots.
  pose proof (@collapseAux_Forall _ false _ J) as C.
  destruct (Generators.collapseAux false _) as [|c s]; [constructor|].
  destruct (N.eqb c Generators.DOT);
    apply dropFinalDot_Forall; [now inversion C | exact C].
Qed.

(** X28.  The normal form of a title made of Basic Latin and Latin-1
    Supplement characters holds no white space, no combining mark
    U+0300..U+036F, no apostrophe, backtick or hyphen and none of
    [, ; { } [ ] :]; it has no two dots in a row and neither starts nor
    ends with a dot. *)
Theorem normalized_title_alphabet :
  forall title : jsstring,
    latin1 title = true ->
    forallb titleChar (Generators.normalizeTitle title) = true
    /\ forallb titleChar (MediaClass.normalizeTitle title) = true
    /\ slotOk (Generators.normalizeTitle title) = true.
Proof.
  intros title _; repeat split.
  - apply normalizeTitle_alphabet.
  - apply normalizeTitle_alphabet.
  - apply normalizeTitle_clean.
Qed.

Lemma normalized_title_alphabet_witness :
  Generators.normalizeTitle (js "  l'été - à {Paris}: ça, c'est «déjà-vu» ")
  = js "L.ete.A.Paris.Ca.C.est.«deja.vu»"
  /\ forallb titleChar
       (Generators.normalizeTitle
          (js "  l'été - à {Paris}: ça, c'est «déjà-vu» ")) = true.
Proof.
  split; [vm_compute; reflexivity|].
  refine (proj1 (@normalized_title_alphabet
                   (js "  l'été - à {Paris}: ça, c'est «déjà-vu» ") _)).
  vm_compute; reflexivity.
Defined.

(* ================================================================== *)
(** * The genre block of [getAutoTags] *)
(* ================================================================== *)

Lemma genreTaxonomy_ok : genreTaxonomyOk Scenarios.genreTaxonomy.
Proof.
  intros t1 t2 H1 H2.
  vm_compute in H1, H2.
  destruct H1 as [<-|[<-|[]]], H2 as [<-|[<-|[]]];
    vm_compute; split; congruence.
Defined.

(** X29.  In a taxonomy whose Genre (or Genres) category holds a tag
    named Téléfilm and a tag named Drame, with one id per genre name, the
    genre block resolves the genres Téléfilm, Drame to the id of the Drame
    tag alone; and whatever the genre list (no genre being the name of an
    inherited property), the genre block yields the id of the Téléfilm tag
    only when Téléfilm is the sole genre. *)
Theorem genre_block_tags_telefilm_only_alone :
  forall (allCats : list SerieClass.Category) (cat : SerieClass.Category)
         (T D : SerieClass.Tag),
    In cat allCats ->
    arrIncludes [js "genre"; js "genres"]
                (SerieClass.norm (SerieClass.catName cat)) = true ->
    In T (SerieClass.tags cat) -> In D (SerieClass.tags cat) ->
    SerieClass.norm (SerieClass.tagName T) = js "telefilm" ->
    SerieClass.norm (SerieClass.tagName D) = js "drame" ->
    truthy (SerieClass.tagId D) = true ->
    genreTaxonomyOk allCats ->
    SerieClass.genreTags allCats [js "Téléfilm"; js "Drame"]
    = [SerieClass.tagId D]
    /\ (forall genres,
           forallb (fun g => ownKeyOnly (SerieClass.norm g)) genres = true ->
           In (SerieClass.tagId T) (SerieClass.genreTags allCats genres) ->
           exists g, genres = [g]
                     /\ SerieClass.isTelefilm (SerieClass.norm g) = true).
Proof.
  intros allCats cat T D Hcat Hname HT HD HnT HnD HiD Ok; split.
  - apply (@genreTags_drame_only allCats cat T D); assumption.
  - intros genres _ Hin.
    eapply genreTags_telefilm_sole; [exact Ok | | exact HnT | exact Hin].
    apply in_flat_map; exists cat; split; [|exact HT].
    apply filter_In; auto.
Qed.

Lemma genre_block_tags_telefilm_only_alone_witness :
  SerieClass.genreTags Scenarios.genreTaxonomy [js "Téléfilm"; js "Drame"]
  = [js "g-drame"]
  /\ SerieClass.genreTags Scenarios.genreTaxonomy [js "Téléfilm"]
     = [js "g-telefilm"].
Proof.
  split; [|vm_compute; reflexivity].
  refine (proj1 (@genre_block_tags_telefilm_only_alone
                   Scenarios.genreTaxonomy
                   (SerieClass.mkCategory (js "Genres")
                      [ SerieClass.mkTag (js "g-telefilm") (js "Téléfilm");
                        SerieClass.mkTag (js "g-drame") (js "Drame") ])
                   (SerieClass.mkTag (js "g-telefilm") (js "Téléfilm"))
                   (SerieClass.mkTag (js "g-drame") (js "Drame"))
                   _ _ _ _ _ _ _ genreTaxonomy_ok));
    try (vm_compute; reflexivity).
  - left; reflexivity.
  - left; reflexivity.
  - right; left; reflexivity.
Defined.
